(** * WitchDicker: the adaptive traffic-light controller of [Solut.py]

    A shallow embedding of [ParticipantController] and the properties of
    its per-tick decision function.

    Numbers.  Python's [float] is IEEE 754 binary64, and so is Rocq's
    primitive [float]: [+], [-], [*], [/], [<] and [<=] below are the
    very operations the interpreter performs.  The one exception is
    [capacity ** 0.5], which the interpreter hands to the C library's
    [pow] and which is taken here as the correctly rounded square root
    (see [Py.pow_half]).  Waiting counts and times are taken as floats
    (a Python [int] of magnitude below [2^53] behaves the same in every
    expression of the source).  General facts about these operations are
    derived from their specification over [spec_float].

    Sorting.  [list.sort] is modelled by the stable descending sort
    [sort_desc], which is what [list.sort] computes whenever no key is
    NaN.  With a NaN among the keys the order [list.sort] leaves depends
    on the interpreter's merge strategy and not on the keys alone; the
    statements about rankings below are made for scores that are numbers.

    Dictionaries are [gmap]s, a missing key is [None], and the
    exceptions the source can raise are the constructors of [exn]; a
    raised exception ends the call, and the model keeps no state of a
    call that raised. *)

From Stdlib Require Import ZArith Floats Ascii Lia.
From stdpp Require Import gmap strings list sorting.

Set Warnings "-inexact-float".
Set Default Proof Using "Type".

Local Open Scope Z_scope.

(** ** Exceptions *)

Inductive exn : Type :=
  | RuntimeError (tls_id : string)
  | KeyError (key : string)
  | IndexError
  | ZeroDivisionError.

Inductive result (A : Type) : Type :=
  | Ok (a : A)
  | Raise (e : exn).
Arguments Ok {A} a.
Arguments Raise {A} e.

#[global] Instance result_bind : MBind result := λ A B k r,
  match r with
  | Ok a => k a
  | Raise e => Raise e
  end.
#[global] Instance result_ret : MRet result := λ A a, Ok a.

Definition returns {A} (r : result A) : Prop := ∃ a, r = Ok a.

(** ** Python's float primitives *)

Module Py.

(** [max(a, b)] keeps its first argument unless the second is strictly
    greater; [min(a, b)] unless the second is strictly smaller. *)
Definition max (a b : float) : float := if (a <? b)%float then b else a.
Definition min (a b : float) : float := if (b <? a)%float then b else a.

(** [x / y] on floats raises when the divisor compares equal to zero. *)
Definition truediv (x y : float) : result float :=
  if (y =? 0)%float then Raise ZeroDivisionError else Ok (x / y)%float.

(** [x ** 0.5] for a base that is never negative here (a capacity is at
    least [10.0]).  The interpreter computes it with the C library's
    [pow], which returns the exact root rounded to a neighbouring float:
    the nearest one for most arguments, the next one for some.  The
    model takes the nearest, the correctly rounded square root, so a
    duration before its rounding to one decimal can differ from the
    interpreter's in the last bit. *)
Definition pow_half (x : float) : float := PrimFloat.sqrt x.

(** *** [float(f"{d:.1f}")]

    The format rounds the exact binary value to the nearest tenth, ties
    to the even digit, and [float] reads the decimal back as the nearest
    double.  [tenths m e] is the nearest integer to [m * 2^e * 10]. *)
Definition round_half_even (n d : Z) : Z :=
  let q := n / d in
  let r := n mod d in
  match (2 * r ?= d) with
  | Lt => q
  | Gt => q + 1
  | Eq => if Z.even q then q else q + 1
  end.

Definition tenths (m : positive) (e : Z) : Z :=
  match e with
  | Zneg k => round_half_even (Zpos m * 10) (2 ^ Zpos k)
  | _ => Zpos m * 10 * 2 ^ e
  end.

(** The double nearest to [n / 10], with sign [s]. *)
Definition of_tenths (s : bool) (n : Z) : float :=
  match n with
  | Zpos _ =>
      let '(q, e, l) := SFdiv_core_binary prec emax n 0 10 0 in
      SF2Prim (binary_round_aux prec emax s q e l)
  | _ => if s then (-0)%float else 0%float
  end.

Definition round1 (d : float) : float :=
  match Prim2SF d with
  | S754_finite s m e => of_tenths s (tenths m e)
  | _ => d
  end.

End Py.

(** ** Stable descending sort: [l.sort(key=lambda x: x[1], reverse=True)]

    [list.sort] is stable, also with [reverse=True], and compares keys
    with [<] only.  For keys that [<] orders totally, that is for keys
    without a NaN, its result is the unique arrangement in descending
    order that keeps equal keys in their order ([sort_desc_unique]
    below), which this insertion sort computes: an element moves right
    past exactly the elements with a strictly greater key.

    With a NaN key [<] is no order and the two part: the interpreter's
    merge sort then leaves a list that depends on the runs it finds, and
    that need not even keep equal keys in order.  [sort_desc] stands for
    [list.sort] on keys that are numbers only. *)

Section sort_desc.
Context {A : Type} (key : A → float).

Fixpoint insert_desc (x : A) (l : list A) : list A :=
  match l with
  | [] => [x]
  | y :: l' =>
      if (key x <? key y)%float then y :: insert_desc x l' else x :: l
  end.

Definition sort_desc (l : list A) : list A := foldr insert_desc [] l.
End sort_desc.

(** ** Data model *)

(** A phase of the static catalog: [phase.index] and [phase.state]. *)
Record Phase : Type := { index : Z; state : string }.

(** One entry of [observation["lights"]].  Each field is a key of the
    dictionary, [None] when the key is missing; [other_keys] tells whether
    the dictionary holds any further key. *)
Record LightInfo : Type := {
  time_to_next_switch : option float;
  current_phase : option Z;
  time_in_phase : option float;
  other_keys : bool;
}.

(** [not light_info]: a dictionary is falsy when it has no key at all. *)
Definition falsy (li : LightInfo) : bool :=
  match time_to_next_switch li, current_phase li, time_in_phase li with
  | None, None, None => negb (other_keys li)
  | _, _, _ => false
  end.

Record Observation : Type := {
  lights : option (gmap string LightInfo);
  waiting_vehicles : option (gmap string (gmap Z float));
}.

(** One entry of the decision: [{"phase_id": ..., "duration": ...}]. *)
Record Action : Type := { phase_id : Z; duration : float }.

Record ParticipantController : Type := {
  tls_ids : list string;
  min_green_duration : float;
  max_green_duration : float;
  green_phases : gmap string (list Z);
  cursor : gmap string Z;
  last_phase_actions : gmap string (gmap Z Z);
}.

(** ** Construction: [__init__] *)

Fixpoint contains (c : ascii) (s : string) : bool :=
  match s with
  | EmptyString => false
  | String c' s' => if Ascii.eqb c' c then true else contains c s'
  end.

(** ["y" not in state and any(ch in ("G", "g") for ch in state)] *)
Definition is_green (st : string) : bool :=
  negb (contains "y" st) && (contains "G" st || contains "g" st).

Definition green_indices (phases : list Phase) : list Z :=
  index <$> filter (λ ph, is_green (state ph) = true) phases.

Fixpoint init_phases (get_phase_catalog : string → list Phase)
    (ids : list string) (gp : gmap string (list Z)) (cur : gmap string Z)
    : result (gmap string (list Z) * gmap string Z) :=
  match ids with
  | [] => Ok (gp, cur)
  | tls_id :: ids' =>
      let greens := green_indices (get_phase_catalog tls_id) in
      match greens with
      | [] => Raise (RuntimeError tls_id)
      | _ :: _ =>
          init_phases get_phase_catalog ids'
            (<[tls_id := merge_sort Z.le greens]> gp) (<[tls_id := 0]> cur)
      end
  end.

Definition init_actions (ids : list string) : gmap string (gmap Z Z) :=
  foldl (λ acts tls_id, <[tls_id := ∅]> acts) ∅ ids.

(** [tls_ids] and [get_phase_catalog] are what the base class
    [IntersectionController] provides; they are arguments here. *)
Definition __init__ (ids : list string) (get_phase_catalog : string → list Phase)
    : result ParticipantController :=
  '(gp, cur) ← init_phases get_phase_catalog ids ∅ ∅;
  Ok {| tls_ids := ids;
        min_green_duration := 7.0;
        max_green_duration := 70.0;
        green_phases := gp;
        cursor := cur;
        last_phase_actions := init_actions ids |}.

(** ** Traffic scoring *)

Definition _calculate_waiting_traffic (obs : Observation) (tls_id : string)
    (phase : Z) : float :=
  default 0%float (default ∅ (default ∅ (waiting_vehicles obs) !! tls_id) !! phase).

Definition _estimate_phase_capacity (obs : Observation) (tls_id : string)
    (phase : Z) : float :=
  let waiting := _calculate_waiting_traffic obs tls_id phase in
  Py.max 10.0 (100.0 + waiting * 1.5)%float.

Definition _calculate_phase_efficiency (obs : Observation) (tls_id : string)
    (phase : Z) : float :=
  let waiting := _calculate_waiting_traffic obs tls_id phase in
  let capacity := _estimate_phase_capacity obs tls_id phase in
  if (waiting <=? 0)%float then 0.0%float else (waiting * capacity)%float.

Definition scores (obs : Observation) (tls_id : string) (phases : list Z)
    : list (Z * float) :=
  (λ p, (p, _calculate_phase_efficiency obs tls_id p)) <$> phases.

Definition _get_phase_priority (c : ParticipantController) (obs : Observation)
    (tls_id : string) : result (list (Z * float)) :=
  match green_phases c !! tls_id with
  | None => Raise (KeyError tls_id)
  | Some phases => Ok (sort_desc snd (scores obs tls_id phases))
  end.

(** ** The decision procedure *)

(** Step 2: the switch penalty, charged to every phase but the current one. *)
Fixpoint penalize (current : option Z) (tip : float) (raw : list (Z * float))
    : result (list (Z * float)) :=
  match raw with
  | [] => Ok []
  | (p, eff) :: raw' =>
      entry ← (if bool_decide (Some p = current) then Ok (p, eff)
               else pen ← Py.truediv 120.0 (tip + 1.0);
                    Ok (p, (eff - pen)%float));
      rest ← penalize current tip raw';
      Ok (entry :: rest)
  end.

(** [next((s for p, s in raw if p == current), 0)] *)
Fixpoint current_efficiency (current : Z) (raw : list (Z * float)) : float :=
  match raw with
  | [] => 0%float
  | (p, s) :: raw' => if bool_decide (p = current) then s else current_efficiency current raw'
  end.

(** Step 3: the stay-on-phase rule. *)
Definition stay_rule (current : option Z) (raw : list (Z * float))
    (best_phase : Z) : result Z :=
  match current with
  | None => Ok best_phase
  | Some cp =>
      let current_eff := current_efficiency cp raw in
      match raw with
      | [] => Raise IndexError
      | (_, best_eff) :: _ =>
          Ok (if (0.85 * best_eff <=? current_eff)%float then cp else best_phase)
      end
  end.

(** Step 4: the green duration of the chosen phase, before rounding. *)
Definition green_duration (c : ParticipantController) (obs : Observation)
    (tls_id : string) (best_phase : Z) (tip : float) : float :=
  let waiting := _calculate_waiting_traffic obs tls_id best_phase in
  let capacity := _estimate_phase_capacity obs tls_id best_phase in
  let duration :=
    (min_green_duration c + 0.27 * waiting + 0.17 * Py.pow_half capacity)%float in
  let duration :=
    Py.max (min_green_duration c) (Py.min (max_green_duration c) duration) in
  if (60 <? tip)%float then (duration * 0.9)%float else duration.

(** Steps 1 to 3 for one eligible intersection. *)
Definition select_phase (c : ParticipantController) (obs : Observation) (tls_id : string)
    (current : option Z) (tip : float) : result Z :=
  raw_priorities ← _get_phase_priority c obs tls_id;
  priorities ← penalize current tip raw_priorities;
  match sort_desc snd priorities with
  | [] => Raise IndexError
  | (best_phase, _) :: _ => stay_rule current raw_priorities best_phase
  end.

(** Step 5: [last_phase_actions[tls_id][best_phase] += 1], from [0]. *)
Definition record_action (c : ParticipantController) (tls_id : string) (best_phase : Z)
    : result ParticipantController :=
  match last_phase_actions c !! tls_id with
  | None => Raise (KeyError tls_id)
  | Some counts =>
      let n := default 0 (counts !! best_phase) + 1 in
      Ok {| tls_ids := tls_ids c;
            min_green_duration := min_green_duration c;
            max_green_duration := max_green_duration c;
            green_phases := green_phases c;
            cursor := cursor c;
            last_phase_actions :=
              <[tls_id := <[best_phase := n]> counts]> (last_phase_actions c) |}
  end.

(** The body of the loop over [self.tls_ids]; [None] stands for
    [continue]. *)
Definition decide_one (c : ParticipantController) (obs : Observation) (tls_id : string)
    : result (option (ParticipantController * Action)) :=
  match default ∅ (lights obs) !! tls_id with
  | None => Ok None
  | Some light_info =>
      if falsy light_info then Ok None else
      let time_to_switch := default 0%float (time_to_next_switch light_info) in
      let current := current_phase light_info in
      let tip := default 0%float (time_in_phase light_info) in
      if (0.5 <? time_to_switch)%float then Ok None else
      best_phase ← select_phase c obs tls_id current tip;
      let duration := green_duration c obs tls_id best_phase tip in
      c' ← record_action c tls_id best_phase;
      Ok (Some (c', {| phase_id := best_phase; duration := Py.round1 duration |}))
  end.

Fixpoint decide_loop (obs : Observation) (ids : list string) (c : ParticipantController)
    (decision : gmap string Action) : result (ParticipantController * gmap string Action) :=
  match ids with
  | [] => Ok (c, decision)
  | tls_id :: ids' =>
      step ← decide_one c obs tls_id;
      match step with
      | None => decide_loop obs ids' c decision
      | Some (c', action) => decide_loop obs ids' c' (<[tls_id := action]> decision)
      end
  end.

(** [return decision or None] *)
Definition decide_next_phase (c : ParticipantController) (obs : Observation)
    : result (ParticipantController * option (gmap string Action)) :=
  '(c', decision) ← decide_loop obs (tls_ids c) c ∅;
  Ok (c', if bool_decide (decision = ∅) then None else Some decision).

(** * Facts about binary64 comparison

    [SFcompare] orders the floats that are not NaN like the
    lexicographic order on a rank: the class of the number (infinite,
    finite, zero, by sign), then exponent and mantissa. *)

Module FloatOrder.

Definition rank (x : spec_float) : option (Z * Z * Z) :=
  match x with
  | S754_nan => None
  | S754_infinity true => Some (-2, 0, 0)
  | S754_infinity false => Some (2, 0, 0)
  | S754_zero _ => Some (0, 0, 0)
  | S754_finite true m e => Some (-1, - e, Zneg m)
  | S754_finite false m e => Some (1, e, Zpos m)
  end.

Definition lex (a b : Z * Z * Z) : comparison :=
  let '(a1, a2, a3) := a in
  let '(b1, b2, b3) := b in
  match a1 ?= b1 with
  | Eq => match a2 ?= b2 with
          | Eq => a3 ?= b3
          | c => c
          end
  | c => c
  end.

(** The order as a proposition, for [lia]. *)
Definition lex_lt (a b : Z * Z * Z) : Prop :=
  let '(a1, a2, a3) := a in
  let '(b1, b2, b3) := b in
  a1 < b1 ∨ (a1 = b1 ∧ (a2 < b2 ∨ (a2 = b2 ∧ a3 < b3))).

Lemma lex_Lt a b : lex a b = Lt ↔ lex_lt a b.
Proof.
  destruct a as [[a1 a2] a3], b as [[b1 b2] b3]; simpl.
  destruct (Z.compare_spec a1 b1), (Z.compare_spec a2 b2),
    (Z.compare_spec a3 b3); split; intros; try discriminate;
    try reflexivity; lia.
Qed.

Lemma lex_Eq a b : lex a b = Eq ↔ a = b.
Proof.
  destruct a as [[a1 a2] a3], b as [[b1 b2] b3]; simpl.
  destruct (Z.compare_spec a1 b1), (Z.compare_spec a2 b2),
    (Z.compare_spec a3 b3); split; intros; simplify_eq; try discriminate;
    try reflexivity; lia.
Qed.

Lemma lex_Gt a b : lex a b = Gt ↔ lex_lt b a.
Proof.
  destruct a as [[a1 a2] a3], b as [[b1 b2] b3]; simpl.
  destruct (Z.compare_spec a1 b1), (Z.compare_spec a2 b2),
    (Z.compare_spec a3 b3); split; intros; try discriminate;
    try reflexivity; lia.
Qed.

Lemma lex_trichotomy a b : lex_lt a b ∨ a = b ∨ lex_lt b a.
Proof.
  destruct a as [[a1 a2] a3], b as [[b1 b2] b3]. unfold lex_lt.
  destruct (Z.eq_dec a1 b1), (Z.eq_dec a2 b2), (Z.eq_dec a3 b3); subst;
    first [ right; left; reflexivity | lia ].
Qed.

Lemma SFcompare_rank x y :
  SFcompare x y =
    match rank x, rank y with
    | Some a, Some b => Some (lex a b)
    | _, _ => None
    end.
Proof.
  destruct x as [[]|[]| |[] mx ex], y as [[]|[]| |[] my ey]; try reflexivity;
    simpl.
  rewrite Z.compare_opp, (Z.compare_antisym ex ey).
  destruct (ex ?= ey); reflexivity.
Qed.

Definition frank (x : float) : option (Z * Z * Z) := rank (Prim2SF x).

Lemma ltb_rank x y :
  (x <? y)%float = true ↔
  ∃ a b, frank x = Some a ∧ frank y = Some b ∧ lex_lt a b.
Proof.
  rewrite FloatAxioms.ltb_spec. unfold SFltb, frank. rewrite SFcompare_rank.
  destruct (rank (Prim2SF x)) as [a|], (rank (Prim2SF y)) as [b|];
    try (split; [discriminate | intros (? & ? & ? & ? & _); discriminate]).
  destruct (lex a b) eqn:E; split; intros H; try done;
    try (destruct H as (? & ? & ? & ? & L); simplify_eq;
         apply lex_Lt in L; congruence).
  exists a, b. split_and!; [done..|]. by apply lex_Lt.
Qed.

Lemma eqb_rank x y :
  (x =? y)%float = true ↔ ∃ a, frank x = Some a ∧ frank y = Some a.
Proof.
  rewrite FloatAxioms.eqb_spec. unfold SFeqb, frank. rewrite SFcompare_rank.
  destruct (rank (Prim2SF x)) as [a|], (rank (Prim2SF y)) as [b|];
    try (split; [discriminate | intros (? & ? & ?); discriminate]).
  destruct (lex a b) eqn:E; split; intros H; try done;
    try (destruct H as (? & ? & ?);
         assert (lex a b = Eq) by (apply lex_Eq; congruence); congruence).
  apply lex_Eq in E. subst. eauto.
Qed.

Lemma leb_rank x y :
  (x <=? y)%float = true ↔
  ∃ a b, frank x = Some a ∧ frank y = Some b ∧ (lex_lt a b ∨ a = b).
Proof.
  rewrite FloatAxioms.leb_spec. unfold SFleb, frank. rewrite SFcompare_rank.
  destruct (rank (Prim2SF x)) as [a|], (rank (Prim2SF y)) as [b|];
    try (split; [discriminate | intros (? & ? & ? & ? & _); discriminate]).
  destruct (lex a b) eqn:E; split; intros H; try done.
  - exists a, b. split_and!; [done..|]. right. by apply lex_Eq.
  - exists a, b. split_and!; [done..|]. left. by apply lex_Lt.
  - destruct H as (a' & b' & ? & ? & [L|L]); simplify_eq.
    + apply lex_Lt in L. congruence.
    + assert (lex b' b' = Eq) by (by apply lex_Eq). congruence.
Qed.

Lemma is_nan_rank x : is_nan x = false ↔ is_Some (frank x).
Proof.
  unfold is_nan. rewrite negb_false_iff, eqb_rank. split.
  - intros (a & -> & _). eauto.
  - intros [a ->]. eauto.
Qed.

(** Unfolds every comparison of the context and goal into ranks. *)
Ltac to_ranks :=
  repeat match goal with
  | H : (_ <? _)%float = true |- _ =>
      apply ltb_rank in H; destruct H as (? & ? & ? & ? & ?)
  | H : (_ <=? _)%float = true |- _ =>
      apply leb_rank in H; destruct H as (? & ? & ? & ? & ?)
  | H : (_ =? _)%float = true |- _ =>
      apply eqb_rank in H; destruct H as (? & ? & ?)
  | H : is_nan _ = false |- _ =>
      apply is_nan_rank in H; destruct H as (? & ?)
  | H : (_ <? _)%float = false |- _ =>
      apply not_true_iff_false in H; rewrite ltb_rank in H
  | H : (_ <=? _)%float = false |- _ =>
      apply not_true_iff_false in H; rewrite leb_rank in H
  | H : (_ =? _)%float = false |- _ =>
      apply not_true_iff_false in H; rewrite eqb_rank in H
  | |- (_ <? _)%float = false => apply not_true_iff_false; intros ?
  | |- (_ <=? _)%float = false => apply not_true_iff_false; intros ?
  | |- (_ =? _)%float = false => apply not_true_iff_false; intros ?
  end; simplify_eq.

Ltac lex_lia :=
  repeat match goal with
  | a : (Z * Z * Z)%type |- _ => destruct a as [[? ?] ?]
  end; unfold lex_lt in *;
  repeat match goal with
  | H : _ ∨ (_, _) = (_, _) |- _ => destruct H
  end; simplify_eq; lia.

Lemma ltb_eqb_false x y : (x <? y)%float = true → (x =? y)%float = false.
Proof. intros. to_ranks. lex_lia. Qed.

Lemma eqb_ltb_false x y : (x =? y)%float = true → (x <? y)%float = false.
Proof. intros. to_ranks. lex_lia. Qed.

Lemma ltb_leb_false x y : (x <? y)%float = true → (y <=? x)%float = false.
Proof. intros. to_ranks. lex_lia. Qed.

Lemma leb_ltb_false x y : (x <=? y)%float = true → (y <? x)%float = false.
Proof. intros. to_ranks. lex_lia. Qed.

Lemma ltb_leb x y : (x <? y)%float = true → (x <=? y)%float = true.
Proof.
  intros. to_ranks. apply leb_rank. eexists _, _. split_and!; eauto.
Qed.

Lemma eqb_leb x y : (x =? y)%float = true → (x <=? y)%float = true.
Proof.
  intros. to_ranks. apply leb_rank. eexists _, _. split_and!; eauto.
Qed.

Lemma eqb_sym x y : (x =? y)%float = true → (y =? x)%float = true.
Proof. intros. to_ranks. apply eqb_rank. eauto. Qed.

Lemma eqb_trans x y z :
  (x =? y)%float = true → (y =? z)%float = true → (x =? z)%float = true.
Proof. intros. to_ranks. apply eqb_rank. eauto. Qed.

Lemma leb_trans x y z :
  (x <=? y)%float = true → (y <=? z)%float = true → (x <=? z)%float = true.
Proof.
  intros. to_ranks. apply leb_rank. eexists _, _. split_and!; eauto.
  match goal with |- lex_lt ?a ?b ∨ _ =>
    destruct (lex_trichotomy a b) as [?|[?|?]]; [by left | by right | exfalso]
  end.
  lex_lia.
Qed.

Lemma leb_antisym x y :
  (x <=? y)%float = true → (y <=? x)%float = true → (x =? y)%float = true.
Proof.
  intros. to_ranks. apply eqb_rank. eexists. split; eauto.
  match goal with H : frank y = Some ?b |- frank y = Some ?a =>
    rewrite H; f_equal;
    destruct (lex_trichotomy a b) as [?|[?|?]]; [exfalso | done | exfalso]
  end; lex_lia.
Qed.

(** Without NaN the order is total: [x <= y] is [not (y < x)]. *)
Lemma leb_negb_ltb x y :
  is_nan x = false → is_nan y = false →
  (x <=? y)%float = negb (y <? x)%float.
Proof.
  intros Hx Hy. apply is_nan_rank in Hx as [a Ha], Hy as [b Hb].
  destruct (y <? x)%float eqn:E; simpl.
  - by apply ltb_leb_false.
  - apply leb_rank. exists a, b. split_and!; [done..|].
    destruct (lex_trichotomy a b) as [?|[?|L]]; [by left | by right |].
    apply not_true_iff_false in E. destruct E. apply ltb_rank. eauto.
Qed.

Lemma leb_not_nan x y :
  (x <=? y)%float = true → is_nan x = false ∧ is_nan y = false.
Proof. intros. to_ranks. split; apply is_nan_rank; eauto. Qed.

Lemma leb_refl x : is_nan x = false → (x <=? x)%float = true.
Proof.
  intros. to_ranks. apply leb_rank. eexists _, _. split_and!; eauto.
Qed.

Lemma ltb_leb_trans x y z :
  (x <? y)%float = true → (y <=? z)%float = true → (x <? z)%float = true.
Proof.
  intros. to_ranks. apply ltb_rank. eexists _, _. split_and!; eauto.
  match goal with |- lex_lt ?a ?b =>
    destruct (lex_trichotomy a b) as [?|[?|?]]; [done | exfalso | exfalso]
  end; lex_lia.
Qed.

Lemma ltb_false_leb x y :
  is_nan x = false → is_nan y = false →
  (x <? y)%float = false → (y <=? x)%float = true.
Proof. intros Hx Hy H. by rewrite leb_negb_ltb, H. Qed.

End FloatOrder.

(** * The stable sort *)

Section sort_desc_facts.
Context {A : Type} (key : A → float).
Implicit Types (x y : A) (l : list A).

(** Entries whose key compares equal to [k]. *)
Definition with_key (k : float) (l : list A) : list A :=
  filter (λ y, (key y =? k)%float = true) l.

Lemma insert_desc_perm x l : insert_desc key x l ≡ₚ x :: l.
Proof.
  induction l as [|y l IH]; simpl; [done|].
  destruct (key x <? key y)%float; [|done].
  rewrite IH. apply Permutation_swap.
Qed.

Lemma sort_desc_perm l : sort_desc key l ≡ₚ l.
Proof.
  induction l as [|x l IH]; simpl; [done|].
  by rewrite insert_desc_perm, IH.
Qed.

Lemma sort_desc_length l : length (sort_desc key l) = length l.
Proof. by rewrite sort_desc_perm. Qed.

Lemma sort_desc_nil_inv l : sort_desc key l = [] → l = [].
Proof.
  intros E. apply length_zero_iff_nil.
  by rewrite <- sort_desc_length, E.
Qed.

Lemma elem_of_sort_desc x l : x ∈ sort_desc key l ↔ x ∈ l.
Proof. by rewrite sort_desc_perm. Qed.

(** Stability: an element only moves past elements of another key. *)
Lemma insert_desc_stable k x l :
  with_key k (insert_desc key x l) = with_key k (x :: l).
Proof.
  unfold with_key. induction l as [|y l IH]; simpl; [done|].
  destruct (key x <? key y)%float eqn:Lt; [|done].
  rewrite !filter_cons in *.
  destruct (decide ((key y =? k)%float = true)) as [Ey|Ey];
    destruct (decide ((key x =? k)%float = true)) as [Ex|Ex];
    rewrite IH; try done.
  apply FloatOrder.ltb_eqb_false in Lt.
  rewrite (FloatOrder.eqb_trans _ k _ Ex (FloatOrder.eqb_sym _ _ Ey)) in Lt.
  done.
Qed.

Lemma sort_desc_stable k l : with_key k (sort_desc key l) = with_key k l.
Proof.
  induction l as [|x l IH]; simpl; [done|].
  rewrite insert_desc_stable. unfold with_key in *.
  by rewrite !filter_cons, IH.
Qed.

(** The head of the sorted list is the first element of the input that
    no earlier element ties or beats: everything before it has a
    strictly smaller key. *)
Lemma insert_desc_head x l :
  head (insert_desc key x l) =
    match head l with
    | Some y => if (key x <? key y)%float then Some y else Some x
    | None => Some x
    end.
Proof. destruct l as [|y l]; simpl; [done|]. by destruct (_ <? _)%float. Qed.


(** When no key is NaN, the head carries a greatest key. *)
Lemma sort_desc_head_max x l :
  Forall (λ y, is_nan (key y) = false) l →
  head (sort_desc key l) = Some x →
  Forall (λ y, (key y <=? key x)%float = true) l.
Proof.
  intros Hnan. revert x.
  induction Hnan as [|y l Hy Hl IH]; intros x; simpl; [done|].
  rewrite insert_desc_head.
  destruct (head (sort_desc key l)) as [z|] eqn:Hz.
  - specialize (IH _ eq_refl).
    assert (is_nan (key z) = false) as Hzn.
    { apply (proj1 (Forall_forall _ _) Hl).
      apply elem_of_sort_desc. by apply head_Some_elem_of. }
    destruct (key y <? key z)%float eqn:Lt; intros [= <-].
    + constructor; [by apply FloatOrder.ltb_leb | done].
    + constructor; [by apply FloatOrder.leb_refl|].
      eapply Forall_impl; [exact IH|]. simpl. intros w Hw.
      eapply FloatOrder.leb_trans; [exact Hw|].
      by rewrite FloatOrder.leb_negb_ltb, Lt.
  - intros [= <-]. constructor; [by apply FloatOrder.leb_refl|].
    apply head_None in Hz. apply sort_desc_nil_inv in Hz. by subst.
Qed.

(** ** Descending order

    What makes [sort_desc] the sort of the source: for keys that are
    numbers its result is in descending order, and it is the only
    arrangement in descending order that keeps entries of equal key in
    the order they had. *)

(** [a] stands before [b] in a descending order. *)
Definition desc (a b : A) : Prop := (key b <=? key a)%float = true.

Lemma insert_desc_sorted x l :
  is_nan (key x) = false →
  Forall (λ y, is_nan (key y) = false) l →
  StronglySorted desc l →
  StronglySorted desc (insert_desc key x l).
Proof.
  intros Hx Hl Hs. induction Hs as [|y l Hs IH Hy]; simpl.
  { repeat constructor. }
  apply Forall_cons in Hl as [Hyn Hl].
  destruct (key x <? key y)%float eqn:E.
  - constructor; [by apply IH|].
    rewrite insert_desc_perm. constructor; [|done].
    by apply FloatOrder.ltb_leb.
  - assert (desc x y) as Hxy by by apply FloatOrder.ltb_false_leb.
    constructor; [by constructor|]. constructor; [done|].
    eapply Forall_impl; [exact Hy|]. intros z Hz.
    by apply (FloatOrder.leb_trans _ (key y)).
Qed.

(** Without a NaN among the keys the result is in descending order. *)
Lemma sort_desc_sorted l :
  Forall (λ y, is_nan (key y) = false) l →
  StronglySorted desc (sort_desc key l).
Proof.
  induction 1 as [|x l Hx Hl IH]; simpl; [constructor|].
  apply insert_desc_sorted; [done| |done].
  by rewrite sort_desc_perm.
Qed.

(** A list no element of which is below its successor is left as it
    is. *)
Lemma sort_desc_id l :
  Sorted (λ a b, (key a <? key b)%float = false) l →
  sort_desc key l = l.
Proof.
  induction 1 as [|x l Hs IH Hx]; simpl; [done|].
  rewrite IH. destruct Hx as [|y l' Hxy]; simpl; [done|]. by rewrite Hxy.
Qed.

Lemma eqb_refl_key x : is_nan (key x) = false → (key x =? key x)%float = true.
Proof. unfold is_nan. by rewrite negb_false_iff. Qed.

Lemma sorted_stable_unique l1 l2 :
  Forall (λ y, is_nan (key y) = false) l1 →
  Forall (λ y, is_nan (key y) = false) l2 →
  StronglySorted desc l1 → StronglySorted desc l2 →
  (∀ k, with_key k l1 = with_key k l2) →
  l1 = l2.
Proof.
  intros N1 N2 S1. revert l2 N2.
  induction S1 as [|x l1 S1 IH Hx]; intros l2 N2 S2 Hk.
  { destruct l2 as [|y l2]; [done|]. exfalso.
    apply Forall_cons in N2 as [Hy _]. specialize (Hk (key y)).
    unfold with_key in Hk. rewrite filter_nil, filter_cons in Hk.
    by rewrite decide_True in Hk by by apply eqb_refl_key. }
  apply Forall_cons in N1 as [Hxn N1].
  destruct l2 as [|y l2].
  { exfalso. specialize (Hk (key x)).
    unfold with_key in Hk. rewrite filter_nil, filter_cons in Hk.
    by rewrite decide_True in Hk by by apply eqb_refl_key. }
  apply Forall_cons in N2 as [Hyn N2].
  apply StronglySorted_inv in S2 as [S2 Hy].
  assert (desc y x) as Hxy.
  { assert (x ∈ with_key (key x) (y :: l2)) as Hin.
    { rewrite <- Hk. apply list_elem_of_filter.
      split; [by apply eqb_refl_key | left]. }
    apply list_elem_of_filter in Hin as [_ [->|Hin]%elem_of_cons].
    - by apply FloatOrder.leb_refl.
    - by apply (proj1 (Forall_forall _ _) Hy). }
  assert (desc x y) as Hyx.
  { assert (y ∈ with_key (key y) (x :: l1)) as Hin.
    { rewrite Hk. apply list_elem_of_filter.
      split; [by apply eqb_refl_key | left]. }
    apply list_elem_of_filter in Hin as [_ [->|Hin]%elem_of_cons].
    - by apply FloatOrder.leb_refl.
    - by apply (proj1 (Forall_forall _ _) Hx). }
  assert ((key y =? key x)%float = true) as Exy
    by by apply FloatOrder.leb_antisym.
  assert (x = y) as <-.
  { specialize (Hk (key x)). unfold with_key in Hk.
    rewrite !filter_cons in Hk.
    rewrite !decide_True in Hk by auto using eqb_refl_key. congruence. }
  f_equal. apply IH; [done..|]. intros k. specialize (Hk k).
  unfold with_key in *. rewrite !filter_cons in Hk.
  destruct (decide ((key x =? k)%float = true)); congruence.
Qed.

Lemma sort_desc_unique l l' :
  Forall (λ y, is_nan (key y) = false) l →
  l' ≡ₚ l →
  StronglySorted desc l' →
  (∀ k, with_key k l' = with_key k l) →
  l' = sort_desc key l.
Proof.
  intros Hn Hp Hs Hk. apply sorted_stable_unique.
  - by rewrite Hp.
  - by rewrite sort_desc_perm.
  - done.
  - by apply sort_desc_sorted.
  - intros k. by rewrite Hk, sort_desc_stable.
Qed.

End sort_desc_facts.

(** * The decision procedure, step by step *)

(** What one pass of the loop body decides for an intersection, without
    the bookkeeping: [None] when the intersection is skipped. *)
Definition action_for (c : ParticipantController) (obs : Observation) (tls_id : string)
    : result (option Action) :=
  match default ∅ (lights obs) !! tls_id with
  | None => Ok None
  | Some light_info =>
      if falsy light_info then Ok None else
      if (0.5 <? default 0%float (time_to_next_switch light_info))%float
      then Ok None else
      let tip := default 0%float (time_in_phase light_info) in
      best_phase ← select_phase c obs tls_id (current_phase light_info) tip;
      Ok (Some {| phase_id := best_phase;
                  duration := Py.round1 (green_duration c obs tls_id best_phase tip) |})
  end.

Lemma decide_one_action_for c obs tls_id :
  decide_one c obs tls_id =
    (oa ← action_for c obs tls_id;
     match oa with
     | None => Ok None
     | Some a => c' ← record_action c tls_id (phase_id a); Ok (Some (c', a))
     end).
Proof.
  unfold decide_one, action_for.
  destruct (default ∅ (lights obs) !! tls_id) as [li|]; [|done].
  destruct (falsy li); [done|].
  destruct (0.5 <? _)%float; [done|].
  by destruct (select_phase _ _ _ _ _).
Qed.

(** The part of the controller the choice depends on. *)
Record same_config (c1 c2 : ParticipantController) : Prop := {
  sc_tls_ids : tls_ids c1 = tls_ids c2;
  sc_min : min_green_duration c1 = min_green_duration c2;
  sc_max : max_green_duration c1 = max_green_duration c2;
  sc_green : green_phases c1 = green_phases c2;
  sc_dom : dom (last_phase_actions c1) = dom (last_phase_actions c2);
}.

Lemma same_config_refl c : same_config c c.
Proof. done. Qed.

Lemma same_config_sym c1 c2 : same_config c1 c2 → same_config c2 c1.
Proof. by intros []. Qed.

Lemma same_config_trans c1 c2 c3 :
  same_config c1 c2 → same_config c2 c3 → same_config c1 c3.
Proof. intros [] []. split; congruence. Qed.

Lemma action_for_config c1 c2 obs tls_id :
  same_config c1 c2 → action_for c1 obs tls_id = action_for c2 obs tls_id.
Proof.
  intros [_ Hmin Hmax Hg _].
  unfold action_for, select_phase, _get_phase_priority, green_duration.
  by rewrite Hmin, Hmax, Hg.
Qed.

(** The fields [record_action] leaves alone. *)
Record frame (c c' : ParticipantController) : Prop := {
  fr_tls_ids : tls_ids c' = tls_ids c;
  fr_min : min_green_duration c' = min_green_duration c;
  fr_max : max_green_duration c' = max_green_duration c;
  fr_green : green_phases c' = green_phases c;
  fr_cursor : cursor c' = cursor c;
}.

Lemma frame_refl c : frame c c.
Proof. done. Qed.

Lemma frame_trans c1 c2 c3 : frame c1 c2 → frame c2 c3 → frame c1 c3.
Proof. intros [] []. split; congruence. Qed.

(** The counter update of step 5 on one intersection's counters. *)
Definition bump (p : Z) (counts : gmap Z Z) : gmap Z Z :=
  <[p := default 0 (counts !! p) + 1]> counts.

Lemma record_action_Ok c tls_id p c' :
  record_action c tls_id p = Ok c' →
  frame c c' ∧
  ∃ counts, last_phase_actions c !! tls_id = Some counts ∧
    last_phase_actions c' = <[tls_id := bump p counts]> (last_phase_actions c).
Proof.
  unfold record_action.
  destruct (last_phase_actions c !! tls_id) as [counts|] eqn:E; [|done].
  intros [= <-]. split; [done|]. by exists counts.
Qed.

Lemma record_action_returns c tls_id p :
  is_Some (last_phase_actions c !! tls_id) →
  ∃ c', record_action c tls_id p = Ok c'.
Proof. intros [counts E]. unfold record_action. rewrite E. eauto. Qed.

Lemma record_action_config c tls_id p c' :
  record_action c tls_id p = Ok c' → same_config c c'.
Proof.
  intros (F & counts & E & E')%record_action_Ok. destruct F.
  split; try done. rewrite E', dom_insert_L.
  apply elem_of_dom_2 in E. apply (anti_symm (⊆)).
  - apply union_subseteq_r.
  - apply union_subseteq. split; [by apply singleton_subseteq_l | done].
Qed.

Lemma record_action_same_config c1 c2 tls_id p :
  same_config c1 c2 →
  match record_action c1 tls_id p, record_action c2 tls_id p with
  | Ok c1', Ok c2' => same_config c1' c2'
  | Raise e1, Raise e2 => e1 = e2
  | _, _ => False
  end.
Proof.
  intros S.
  destruct (record_action c1 tls_id p) as [c1'|e1] eqn:E1,
    (record_action c2 tls_id p) as [c2'|e2] eqn:E2.
  - apply record_action_config in E1, E2.
    eauto using same_config_trans, same_config_sym.
  - unfold record_action in *. destruct S as [_ _ _ _ D].
    destruct (last_phase_actions c1 !! tls_id) eqn:L1; [|done].
    destruct (last_phase_actions c2 !! tls_id) eqn:L2; [done|].
    apply elem_of_dom_2 in L1. apply not_elem_of_dom in L2. congruence.
  - unfold record_action in *. destruct S as [_ _ _ _ D].
    destruct (last_phase_actions c2 !! tls_id) eqn:L2; [|done].
    destruct (last_phase_actions c1 !! tls_id) eqn:L1; [done|].
    apply elem_of_dom_2 in L2. apply not_elem_of_dom in L1. congruence.
  - unfold record_action in *.
    destruct (last_phase_actions c1 !! tls_id); [done|].
    destruct (last_phase_actions c2 !! tls_id); [done|]. congruence.
Qed.

(** ** The loop over [tls_ids] *)

Definition decided (obs : Observation) (c : ParticipantController) (tls_id : string)
    (otherwise : option Action) : option Action :=
  match action_for c obs tls_id with
  | Ok (Some a) => Some a
  | _ => otherwise
  end.

Lemma decide_loop_spec obs ids : ∀ c d0 c' d,
  decide_loop obs ids c d0 = Ok (c', d) →
  frame c c' ∧ same_config c c' ∧
  ∀ tls_id, d !! tls_id =
    if decide (tls_id ∈ ids) then decided obs c tls_id (d0 !! tls_id)
    else d0 !! tls_id.
Proof.
  induction ids as [|t ids IH]; intros c d0 c' d; simpl.
  { intros [= <- <-]. by split_and!. }
  rewrite decide_one_action_for.
  destruct (action_for c obs t) as [[a|]|e] eqn:Ea; simpl; [| |done].
  - destruct (record_action c t (phase_id a)) as [c1|] eqn:Er; simpl; [|done].
    intros (F & S & Hd)%IH.
    pose proof (record_action_config _ _ _ _ Er) as S1.
    apply record_action_Ok in Er as [F1 _].
    split_and!; eauto using frame_trans, same_config_trans.
    intros tls. rewrite Hd. unfold decided.
    rewrite <- (action_for_config c c1) by done.
    destruct (decide (tls = t)) as [->|Hne].
    + rewrite (decide_True (P := t ∈ t :: ids)) by left.
      rewrite Ea, lookup_insert_eq. by destruct (decide (t ∈ ids)).
    + rewrite lookup_insert_ne by done.
      destruct (decide (tls ∈ ids)) as [Hin|Hin].
      * by rewrite decide_True by by right.
      * rewrite decide_False; [done|]. by intros [?|?]%elem_of_cons.
  - intros (F & S & Hd)%IH. split_and!; [done..|].
    intros tls. rewrite Hd. unfold decided.
    destruct (decide (tls ∈ ids)) as [Hin|Hin].
    + by rewrite decide_True by by right.
    + destruct (decide (tls = t)) as [->|Hne].
      * rewrite decide_True by left. by rewrite Ea.
      * rewrite decide_False; [done|]. by intros [?|?]%elem_of_cons.
Qed.

(** With distinct identifiers each counter map is touched at most once. *)
Definition counted (obs : Observation) (c : ParticipantController) (tls_id : string)
    (counts : option (gmap Z Z)) : option (gmap Z Z) :=
  match action_for c obs tls_id with
  | Ok (Some a) => bump (phase_id a) <$> counts
  | _ => counts
  end.

Lemma decide_loop_counters obs ids : ∀ c d0 c' d,
  NoDup ids →
  decide_loop obs ids c d0 = Ok (c', d) →
  ∀ tls_id, last_phase_actions c' !! tls_id =
    if decide (tls_id ∈ ids)
    then counted obs c tls_id (last_phase_actions c !! tls_id)
    else last_phase_actions c !! tls_id.
Proof.
  induction ids as [|t ids IH]; intros c d0 c' d Hnd; simpl.
  { by intros [= <- <-] tls. }
  apply NoDup_cons in Hnd as [Ht Hnd].
  rewrite decide_one_action_for.
  destruct (action_for c obs t) as [[a|]|e] eqn:Ea; simpl; [| |done].
  - destruct (record_action c t (phase_id a)) as [c1|] eqn:Er; simpl; [|done].
    intros Hl tls. rewrite (IH _ _ _ _ Hnd Hl). unfold counted.
    pose proof (record_action_config _ _ _ _ Er) as S1.
    apply record_action_Ok in Er as (_ & counts & Ec & ->).
    rewrite <- (action_for_config c c1) by done.
    destruct (decide (tls = t)) as [->|Hne].
    + rewrite decide_False by done. rewrite decide_True by left.
      by rewrite Ea, lookup_insert_eq, Ec.
    + rewrite lookup_insert_ne by done.
      destruct (decide (tls ∈ ids)) as [Hin|Hin].
      * by rewrite decide_True by by right.
      * rewrite decide_False; [done|]. by intros [?|?]%elem_of_cons.
  - intros Hl tls. rewrite (IH _ _ _ _ Hnd Hl). unfold counted.
    destruct (decide (tls ∈ ids)) as [Hin|Hin].
    + by rewrite decide_True by by right.
    + destruct (decide (tls = t)) as [->|Hne].
      * rewrite decide_True by left. by rewrite Ea.
      * rewrite decide_False; [done|]. by intros [?|?]%elem_of_cons.
Qed.

(** The loop raises exactly what the first failing intersection raises;
    it returns when every intersection can be decided and counted. *)
Lemma decide_loop_returns obs ids : ∀ c d0,
  (∀ tls_id, tls_id ∈ ids →
     returns (action_for c obs tls_id) ∧
     is_Some (last_phase_actions c !! tls_id)) →
  returns (decide_loop obs ids c d0).
Proof.
  induction ids as [|t ids IH]; intros c d0 Hok; simpl; [by eexists|].
  rewrite decide_one_action_for.
  destruct (Hok t) as [[oa Ea] Hc]; [left|]. rewrite Ea. simpl.
  destruct oa as [a|].
  - destruct (record_action_returns c t (phase_id a) Hc) as [c1 Er].
    rewrite Er. simpl. apply IH. intros tls Hin.
    pose proof (record_action_config _ _ _ _ Er) as S1.
    rewrite <- (action_for_config c c1) by done.
    destruct (Hok tls) as [? ?]; [by right|]. split; [done|].
    apply elem_of_dom. rewrite <- (sc_dom _ _ S1). by apply elem_of_dom.
  - apply IH. intros tls Hin. apply Hok. by right.
Qed.

(** Controllers that differ in their counters only decide alike. *)
Definition output {A B} (r : result (A * B)) : result B :=
  match r with
  | Ok (_, b) => Ok b
  | Raise e => Raise e
  end.

Lemma decide_loop_config obs ids : ∀ c1 c2 d0,
  same_config c1 c2 →
  output (decide_loop obs ids c1 d0) = output (decide_loop obs ids c2 d0).
Proof.
  induction ids as [|t ids IH]; intros c1 c2 d0 S; simpl; [done|].
  rewrite !decide_one_action_for, <- (action_for_config c1 c2) by done.
  destruct (action_for c1 obs t) as [[a|]|e]; simpl; [|by apply IH|done].
  pose proof (record_action_same_config c1 c2 t (phase_id a) S) as R.
  destruct (record_action c1 t (phase_id a)), (record_action c2 t (phase_id a));
    simpl; try done; [by apply IH | congruence].
Qed.

(** ** Choosing the phase of one intersection *)

(** The penalty-adjusted entry of step 2. *)
Definition adjust (current : option Z) (tip : float) (entry : Z * float)
    : Z * float :=
  if bool_decide (Some entry.1 = current) then entry
  else (entry.1, (entry.2 - 120.0 / (tip + 1.0))%float).

Lemma penalize_Ok current tip raw :
  (tip + 1.0 =? 0)%float = false →
  penalize current tip raw = Ok (adjust current tip <$> raw).
Proof.
  intros Hz. induction raw as [|[p eff] raw IH]; simpl; [done|].
  rewrite IH. unfold adjust, Py.truediv. simpl. rewrite Hz.
  by destruct (bool_decide (Some p = current)).
Qed.

Lemma penalize_length current tip raw adj :
  penalize current tip raw = Ok adj → length adj = length raw.
Proof.
  revert adj. induction raw as [|[p eff] raw IH]; intros adj; simpl.
  { by intros [= <-]. }
  destruct (bool_decide _); simpl.
  - destruct (penalize current tip raw); simpl; [|done].
    intros [= <-]. simpl. f_equal. by apply IH.
  - destruct (Py.truediv _ _); simpl; [|done].
    destruct (penalize current tip raw); simpl; [|done].
    intros [= <-]. simpl. f_equal. by apply IH.
Qed.

Lemma scores_length obs tls_id ps : length (scores obs tls_id ps) = length ps.
Proof. apply length_fmap. Qed.

Lemma sort_desc_cons_inv {A} (key : A → float) (l : list A) :
  l ≠ [] → ∃ x t, sort_desc key l = x :: t.
Proof.
  intros Hl. destruct (sort_desc key l) as [|x t] eqn:E; [|eauto].
  by apply sort_desc_nil_inv in E.
Qed.

(** The raw ranking of an intersection and its penalty-adjusted ranking. *)
Definition raw_ranking (obs : Observation) (tls_id : string) (ps : list Z)
    : list (Z * float) :=
  sort_desc snd (scores obs tls_id ps).

Definition adjusted_ranking (obs : Observation) (tls_id : string)
    (ps : list Z) (current : option Z) (tip : float) : list (Z * float) :=
  sort_desc snd (adjust current tip <$> raw_ranking obs tls_id ps).

Lemma raw_ranking_cons obs tls_id ps :
  ps ≠ [] → ∃ e t, raw_ranking obs tls_id ps = e :: t.
Proof.
  intros Hps. apply sort_desc_cons_inv. unfold scores. by destruct ps.
Qed.

Lemma adjusted_ranking_cons obs tls_id ps current tip :
  ps ≠ [] → ∃ e t, adjusted_ranking obs tls_id ps current tip = e :: t.
Proof.
  intros Hps. apply sort_desc_cons_inv.
  destruct (raw_ranking_cons obs tls_id ps Hps) as (e & t & ->). done.
Qed.

(** Steps 1 to 3 in one equation. *)
Lemma select_phase_Ok c obs tls_id current tip ps :
  green_phases c !! tls_id = Some ps →
  ps ≠ [] →
  (tip + 1.0 =? 0)%float = false →
  ∃ best_eff tentative,
    snd <$> head (raw_ranking obs tls_id ps) = Some best_eff ∧
    fst <$> head (adjusted_ranking obs tls_id ps current tip) = Some tentative ∧
    select_phase c obs tls_id current tip =
      Ok match current with
         | None => tentative
         | Some cp =>
             if (0.85 * best_eff <=?
                   current_efficiency cp (raw_ranking obs tls_id ps))%float
             then cp else tentative
         end.
Proof.
  intros Hg Hps Hz.
  destruct (raw_ranking_cons obs tls_id ps Hps) as ([rp best_eff] & rt & Er).
  destruct (adjusted_ranking_cons obs tls_id ps current tip Hps)
    as ([tentative ts] & at' & Ea).
  exists best_eff, tentative. rewrite Er, Ea. split_and!; [done..|].
  unfold select_phase, _get_phase_priority. rewrite Hg. simpl.
  unfold adjusted_ranking, raw_ranking in *.
  rewrite penalize_Ok by done. simpl. rewrite Ea, Er.
  unfold stay_rule. by destruct current.
Qed.

(** ** Well-formed controllers *)

(** What [__init__] establishes and every call preserves: each
    intersection has green phases and a counter map. *)
Definition wf (c : ParticipantController) : Prop :=
  ∀ tls_id, tls_id ∈ tls_ids c →
    (∃ ps, green_phases c !! tls_id = Some ps ∧ ps ≠ []) ∧
    is_Some (last_phase_actions c !! tls_id).

(** No reported [time_in_phase] is [-1.0], the one value for which the
    switch penalty divides by zero. *)
Definition no_zero_division (obs : Observation) : Prop :=
  ∀ tls_id light_info,
    default ∅ (lights obs) !! tls_id = Some light_info →
    (default 0 (time_in_phase light_info) + 1.0 =? 0)%float = false.

Lemma action_for_returns c obs tls_id :
  wf c → no_zero_division obs → tls_id ∈ tls_ids c →
  returns (action_for c obs tls_id).
Proof.
  intros W Hz Hin. unfold action_for.
  destruct (default ∅ (lights obs) !! tls_id) as [li|] eqn:El; [|by eexists].
  destruct (falsy li); [by eexists|].
  destruct (0.5 <? _)%float; [by eexists|].
  destruct (W _ Hin) as [(ps & Hg & Hps) _].
  destruct (select_phase_Ok c obs tls_id (current_phase li)
              (default 0%float (time_in_phase li)) ps Hg Hps (Hz _ _ El))
    as (? & ? & _ & _ & ->).
  by eexists.
Qed.

Lemma decide_next_phase_returns c obs :
  wf c → no_zero_division obs → returns (decide_next_phase c obs).
Proof.
  intros W Hz. unfold decide_next_phase.
  destruct (decide_loop_returns obs (tls_ids c) c ∅) as [[c' d] E].
  { intros tls Hin. split; [by apply action_for_returns | by apply W]. }
  rewrite E. by eexists.
Qed.

Lemma wf_config c c' : same_config c c' → wf c → wf c'.
Proof.
  intros [Hi _ _ Hg Hd] W tls Hin. rewrite <- Hi in Hin.
  destruct (W tls Hin) as [? Hc]. rewrite <- Hg. split; [done|].
  apply elem_of_dom. rewrite <- Hd. by apply elem_of_dom.
Qed.

Lemma decide_next_phase_Ok c obs c' d :
  decide_next_phase c obs = Ok (c', d) →
  ∃ dm, decide_loop obs (tls_ids c) c ∅ = Ok (c', dm) ∧
    d = if bool_decide (dm = ∅) then None else Some dm.
Proof.
  unfold decide_next_phase.
  destruct (decide_loop _ _ _ _) as [[c1 dm]|]; simpl; [|done].
  intros [= <- <-]. eauto.
Qed.

Lemma decide_next_phase_wf c obs c' d :
  wf c → decide_next_phase c obs = Ok (c', d) → wf c'.
Proof.
  intros W (dm & (_ & S & _)%decide_loop_spec & _)%decide_next_phase_Ok.
  by eapply wf_config.
Qed.

(** ** Construction *)

(** A signal-state string that lets traffic move: no ['y'], and some
    ['G'] or ['g']. *)
Definition green_state (st : string) : Prop :=
  contains "y" st = false ∧ (contains "G" st = true ∨ contains "g" st = true).

Lemma contains_spec ch st :
  contains ch st = true ↔ In ch (String.list_ascii_of_string st).
Proof.
  induction st as [|c' st IH]; simpl; [by split|].
  destruct (Ascii.eqb_spec c' ch) as [->|Hne].
  - split; auto.
  - rewrite IH. split; [auto | by intros [?|?]].
Qed.

Lemma is_green_spec st : is_green st = true ↔ green_state st.
Proof.
  unfold is_green, green_state.
  rewrite andb_true_iff, negb_true_iff, orb_true_iff. done.
Qed.

Lemma elem_of_green_indices i phases :
  i ∈ green_indices phases ↔
  ∃ ph, ph ∈ phases ∧ index ph = i ∧ green_state (state ph).
Proof.
  unfold green_indices. rewrite list_elem_of_fmap. split.
  - intros (ph & -> & [Hg Hin]%list_elem_of_filter).
    exists ph. by rewrite <- is_green_spec.
  - intros (ph & Hin & <- & Hg). exists ph. split; [done|].
    apply list_elem_of_filter. by rewrite is_green_spec.
Qed.

Lemma green_indices_nil phases :
  green_indices phases = [] ↔ ∀ ph, ph ∈ phases → ¬ green_state (state ph).
Proof.
  split.
  - intros E ph Hin Hg.
    assert (index ph ∈ green_indices phases) as Hi
      by (apply elem_of_green_indices; eauto).
    rewrite E in Hi. by apply not_elem_of_nil in Hi.
  - intros Hno. destruct (green_indices phases) as [|i l] eqn:E; [done|].
    assert (i ∈ green_indices phases) as Hi by (rewrite E; left).
    apply elem_of_green_indices in Hi as (ph & Hin & _ & Hg).
    by destruct (Hno ph Hin).
Qed.

Lemma init_phases_Raise cat ids : ∀ gp cur e,
  init_phases cat ids gp cur = Raise e →
  ∃ tls_id, tls_id ∈ ids ∧ green_indices (cat tls_id) = [] ∧
    e = RuntimeError tls_id.
Proof.
  induction ids as [|t ids IH]; intros gp cur e; simpl; [done|].
  destruct (green_indices (cat t)) as [|i l] eqn:E.
  - intros [= <-]. exists t. split_and!; [left|done..].
  - intros (t' & ? & ? & ?)%IH. exists t'. split_and!; [by right|done..].
Qed.

Lemma init_phases_Ok cat ids : ∀ gp cur gp' cur',
  init_phases cat ids gp cur = Ok (gp', cur') →
  (∀ tls_id, tls_id ∈ ids → green_indices (cat tls_id) ≠ []) ∧
  (∀ tls_id, gp' !! tls_id =
     if decide (tls_id ∈ ids)
     then Some (merge_sort Z.le (green_indices (cat tls_id)))
     else gp !! tls_id) ∧
  (∀ tls_id, cur' !! tls_id =
     if decide (tls_id ∈ ids) then Some 0 else cur !! tls_id).
Proof.
  induction ids as [|t ids IH]; intros gp cur gp' cur'; simpl.
  { intros [= <- <-]. split_and!; [|done..]. by intros ? ?%not_elem_of_nil. }
  destruct (green_indices (cat t)) as [|i l] eqn:E; [done|].
  intros (Hne & Hgp & Hcur)%IH. split_and!.
  - intros tls [->|?]%elem_of_cons; [by rewrite E | by apply Hne].
  - intros tls. rewrite Hgp.
    destruct (decide (tls ∈ ids)) as [Hin|Hin].
    + by rewrite decide_True by by right.
    + destruct (decide (tls = t)) as [->|Hne'].
      * rewrite decide_True by left. by rewrite lookup_insert_eq, E.
      * rewrite lookup_insert_ne by done.
        rewrite decide_False; [done|]. by intros [?|?]%elem_of_cons.
  - intros tls. rewrite Hcur.
    destruct (decide (tls ∈ ids)) as [Hin|Hin].
    + by rewrite decide_True by by right.
    + destruct (decide (tls = t)) as [->|Hne'].
      * rewrite decide_True by left. by rewrite lookup_insert_eq.
      * rewrite lookup_insert_ne by done.
        rewrite decide_False; [done|]. by intros [?|?]%elem_of_cons.
Qed.

Lemma init_actions_lookup ids tls_id :
  init_actions ids !! tls_id = if decide (tls_id ∈ ids) then Some ∅ else None.
Proof.
  unfold init_actions.
  assert (∀ acts : gmap string (gmap Z Z),
    foldl (λ acts t, <[t := ∅]> acts) acts ids !! tls_id =
      if decide (tls_id ∈ ids) then Some ∅ else acts !! tls_id) as H.
  { induction ids as [|t ids IH]; intros acts; simpl; [done|].
    rewrite IH. destruct (decide (tls_id ∈ ids)) as [Hin|Hin].
    - by rewrite decide_True by by right.
    - destruct (decide (tls_id = t)) as [->|Hne'].
      + rewrite decide_True by left. by rewrite lookup_insert_eq.
      + rewrite lookup_insert_ne by done.
        rewrite decide_False; [done|]. by intros [?|?]%elem_of_cons. }
  by rewrite H, lookup_empty.
Qed.

Lemma init_Ok ids cat c :
  __init__ ids cat = Ok c →
  tls_ids c = ids ∧
  min_green_duration c = 7.0%float ∧
  max_green_duration c = 70.0%float ∧
  (∀ tls_id, tls_id ∈ ids →
     green_indices (cat tls_id) ≠ [] ∧
     green_phases c !! tls_id = Some (merge_sort Z.le (green_indices (cat tls_id))) ∧
     cursor c !! tls_id = Some 0 ∧
     last_phase_actions c !! tls_id = Some ∅).
Proof.
  unfold __init__.
  destruct (init_phases cat ids ∅ ∅) as [[gp cur]|] eqn:E; simpl; [|done].
  intros [= <-]. simpl. split_and!; [done..|].
  apply init_phases_Ok in E as (Hne & Hgp & Hcur).
  intros tls Hin.
  rewrite Hgp, Hcur, init_actions_lookup, !decide_True by done.
  split_and!; auto.
Qed.

Lemma init_wf ids cat c : __init__ ids cat = Ok c → wf c.
Proof.
  intros (Hi & _ & _ & H)%init_Ok tls Hin. rewrite Hi in Hin.
  destruct (H tls Hin) as (Hne & Hg & _ & Ha). split; [|by rewrite Ha].
  eexists. split; [done|]. intros E. apply Hne.
  apply Permutation_nil_r. by rewrite <- (merge_sort_Permutation Z.le), E.
Qed.

(** ** What a call returns *)

(** The entry of the returned decision for an intersection; the absent
    decision [None] has no entry. *)
Definition entry (d : option (gmap string Action)) (tls_id : string)
    : option Action :=
  d ≫= (.!! tls_id).

Lemma decide_next_phase_entry c obs c' d :
  decide_next_phase c obs = Ok (c', d) →
  d ≠ Some ∅ ∧
  ∀ tls_id, entry d tls_id =
    if decide (tls_id ∈ tls_ids c) then decided obs c tls_id None else None.
Proof.
  intros (dm & (_ & _ & Hd)%decide_loop_spec & ->)%decide_next_phase_Ok.
  split.
  - case_bool_decide; [done|congruence].
  - intros tls. unfold entry. specialize (Hd tls).
    rewrite lookup_empty in Hd. rewrite <- Hd.
    case_bool_decide as E; simpl; [|done]. by rewrite E, lookup_empty.
Qed.

Lemma entry_None_all (d : option (gmap string Action)) :
  d ≠ Some ∅ → (d = None ↔ ∀ tls_id, entry d tls_id = None).
Proof.
  intros Hne. split; [by intros ->|]. intros Hall.
  destruct d as [dm|]; [|done]. destruct Hne. f_equal.
  apply map_empty. intros tls. apply (Hall tls).
Qed.

(** The test the loop applies before it acts on an intersection. *)
Definition acts (obs : Observation) (tls_id : string) : Prop :=
  ∃ light_info,
    default ∅ (lights obs) !! tls_id = Some light_info ∧
    falsy light_info = false ∧
    (0.5 <? default 0 (time_to_next_switch light_info))%float = false.

Lemma action_for_Some c obs tls_id a :
  action_for c obs tls_id = Ok (Some a) → acts obs tls_id.
Proof.
  unfold action_for, acts.
  destruct (default ∅ (lights obs) !! tls_id) as [li|]; [|done].
  destruct (falsy li) eqn:F; [done|].
  destruct (0.5 <? _)%float eqn:T; [done|]. eauto.
Qed.

Lemma action_for_None c obs tls_id :
  action_for c obs tls_id = Ok None → ¬ acts obs tls_id.
Proof.
  unfold action_for, acts. intros E (li & El & F & T).
  rewrite El, F, T in E. by destruct (select_phase _ _ _ _ _).
Qed.

Lemma decided_is_Some c obs tls_id :
  returns (action_for c obs tls_id) →
  is_Some (decided obs c tls_id None) ↔ acts obs tls_id.
Proof.
  intros [oa E]. unfold decided. rewrite E. destruct oa as [a|].
  - split; [intros _; by eapply action_for_Some | by eauto].
  - split; [by intros [? ?] | intros A; by apply action_for_None in E].
Qed.


(** * A junction to run the controller on

    One intersection ["A"] whose program has the green phases [0] and [2]
    and a yellow phase after each. *)

Definition demo_catalog (tls_id : string) : list Phase :=
  [ {| index := 0; state := "GGrr" |}; {| index := 1; state := "yyrr" |};
    {| index := 2; state := "rrGG" |}; {| index := 3; state := "rryy" |} ].

Definition demo : ParticipantController :=
  {| tls_ids := ["A"];
     min_green_duration := 7.0;
     max_green_duration := 70.0;
     green_phases := {[ "A" := [0; 2] ]};
     cursor := {[ "A" := 0 ]};
     last_phase_actions := {[ "A" := ∅ ]} |}.

(** A complete [lights] entry. *)
Definition light (time_to_switch : float) (current : option Z) (tip : float)
    : LightInfo :=
  {| time_to_next_switch := Some time_to_switch;
     current_phase := current;
     time_in_phase := Some tip;
     other_keys := false |}.

(** The empty dictionary [{}]. *)
Definition empty_light : LightInfo :=
  {| time_to_next_switch := None; current_phase := None;
     time_in_phase := None; other_keys := false |}.

(** An observation of intersection ["A"] alone. *)
Definition observe (light_info : LightInfo) (waiting : list (Z * float))
    : Observation :=
  {| lights := Some {[ "A" := light_info ]};
     waiting_vehicles := Some {[ "A" := list_to_map waiting ]} |}.

Lemma demo_init : __init__ ["A"] demo_catalog = Ok demo.
Proof. vm_compute. reflexivity. Qed.

Lemma demo_wf : wf demo.
Proof. eapply init_wf, demo_init. Qed.

Lemma observe_no_zero_division li waiting :
  (default 0 (time_in_phase li) + 1.0 =? 0)%float = false →
  no_zero_division (observe li waiting).
Proof.
  intros H tls li'. simpl. by intros [_ <-]%lookup_singleton_Some.
Qed.

(** * Construction fails exactly on a catalog without green phase *)

Lemma init_cases ids cat :
  match __init__ ids cat with
  | Raise e =>
      ∃ tls_id, e = RuntimeError tls_id ∧ tls_id ∈ ids ∧
        ∀ ph, ph ∈ cat tls_id → ¬ green_state (state ph)
  | Ok c =>
      ∀ tls_id, tls_id ∈ ids → ∃ ph, ph ∈ cat tls_id ∧ green_state (state ph)
  end.
Proof.
  destruct (__init__ ids cat) as [c|e] eqn:E.
  - intros tls Hin. apply init_Ok in E as (_ & _ & _ & H).
    destruct (H tls Hin) as (Hne & _).
    destruct (green_indices (cat tls)) as [|i l] eqn:Eg; [done|].
    assert (i ∈ green_indices (cat tls)) as Hi by (rewrite Eg; left).
    apply elem_of_green_indices in Hi as (ph & ? & _ & ?). eauto.
  - unfold __init__ in E.
    destruct (init_phases cat ids ∅ ∅) as [[gp cur]|e'] eqn:E'; [done|].
    simpl in E. injection E as <-.
    apply init_phases_Raise in E' as (tls & Hin & Hnil & ->).
    exists tls. split_and!; [done..|]. by apply green_indices_nil.
Qed.

(** C7.  [__init__] raises, and then it is the [RuntimeError] naming an
    intersection, if and only if the catalog of some intersection has no
    phase whose state string is free of ['y'] and holds a ['G'] or ['g'].
    The error is the result of construction itself: no controller exists
    that a tick could be run on, and nothing in [__init__] catches or
    retries. *)
Theorem init_raises_iff_no_green ids cat :
  (∃ e, __init__ ids cat = Raise e) ↔
  (∃ tls_id, tls_id ∈ ids ∧ ∀ ph, ph ∈ cat tls_id → ¬ green_state (state ph)).
Proof.
  pose proof (init_cases ids cat) as H. split.
  - intros [e E]. rewrite E in H. destruct H as (tls & _ & ? & ?). eauto.
  - intros (tls & Hin & Hno). destruct (__init__ ids cat) as [c|e]; [|eauto].
    destruct (H tls Hin) as (ph & ? & ?). by destruct (Hno ph).
Qed.

(** * Determinism *)

Lemma decide_next_phase_config c1 c2 obs :
  same_config c1 c2 →
  output (decide_next_phase c1 obs) = output (decide_next_phase c2 obs).
Proof.
  intros S. unfold decide_next_phase. rewrite <- (sc_tls_ids _ _ S).
  pose proof (decide_loop_config obs (tls_ids c1) c1 c2 ∅ S) as H.
  destruct (decide_loop obs (tls_ids c1) c1 ∅) as [[? ?]|],
    (decide_loop obs (tls_ids c1) c2 ∅) as [[? ?]|]; simpl in *;
    by simplify_eq.
Qed.

(** The controllers a constructed controller turns into, call after
    call. *)
Inductive reachable (c0 : ParticipantController) : ParticipantController → Prop :=
  | reachable_start : reachable c0 c0
  | reachable_call c obs c' d :
      reachable c0 c →
      decide_next_phase c obs = Ok (c', d) →
      reachable c0 c'.

Lemma reachable_config c0 c : reachable c0 c → same_config c0 c.
Proof.
  induction 1 as [|c obs c' d _ IH E]; [done|].
  apply decide_next_phase_Ok in E as (dm & (_ & S & _)%decide_loop_spec & _).
  by eapply same_config_trans.
Qed.

(** C8.  Two controllers built from the same identifiers and catalogs,
    whatever calls each has served since, answer the same observation
    with the same decision (or the same exception): the counters they
    have accumulated play no part. *)
Theorem decide_next_phase_deterministic ids cat c0 c1 c2 obs :
  __init__ ids cat = Ok c0 →
  reachable c0 c1 →
  reachable c0 c2 →
  output (decide_next_phase c1 obs) = output (decide_next_phase c2 obs).
Proof.
  intros _ R1%reachable_config R2%reachable_config.
  apply decide_next_phase_config.
  eauto using same_config_trans, same_config_sym.
Qed.

(** * The counters are the only state a call changes *)

(** How often [phase] has been selected at [tls_id] so far. *)
Definition count (c : ParticipantController) (tls_id : string) (phase : Z) : Z :=
  default 0 (last_phase_actions c !! tls_id ≫= (.!! phase)).

Lemma lookup_bump p counts q :
  bump p counts !! q =
    if decide (q = p) then Some (default 0 (counts !! p) + 1) else counts !! q.
Proof.
  unfold bump. destruct (decide (q = p)) as [->|Hne].
  - by rewrite lookup_insert_eq.
  - by rewrite lookup_insert_ne.
Qed.

(** C9.  A call on a well-formed controller with distinct intersection
    identifiers returns, leaves [tls_ids], both durations, [green_phases]
    and [cursor] as they were, and changes the counters in one way only:
    for each intersection present in the decision, the counter of the
    selected phase goes up by one (from [0] when it had none).  Every other
    counter map and every other counter keeps its value. *)
Theorem decide_next_phase_counts c obs :
  wf c → NoDup (tls_ids c) → no_zero_division obs →
  ∃ c' d,
    decide_next_phase c obs = Ok (c', d) ∧
    frame c c' ∧
    (∀ tls_id, last_phase_actions c' !! tls_id =
       match entry d tls_id with
       | Some a => bump (phase_id a) <$> last_phase_actions c !! tls_id
       | None => last_phase_actions c !! tls_id
       end) ∧
    (∀ tls_id phase, count c' tls_id phase =
       count c tls_id phase +
       if bool_decide (phase_id <$> entry d tls_id = Some phase) then 1 else 0).
Proof.
  intros W Hnd Hz.
  destruct (decide_next_phase_returns c obs W Hz) as [[c' d] E].
  exists c', d. split; [done|].
  pose proof (decide_next_phase_entry _ _ _ _ E) as [_ He].
  pose proof E as (dm & Hl & _)%decide_next_phase_Ok.
  pose proof (decide_loop_spec _ _ _ _ _ _ Hl) as (F & _ & _).
  pose proof (decide_loop_counters _ _ _ _ _ _ Hnd Hl) as Hc.
  assert (∀ tls_id, last_phase_actions c' !! tls_id =
    match entry d tls_id with
    | Some a => bump (phase_id a) <$> last_phase_actions c !! tls_id
    | None => last_phase_actions c !! tls_id
    end) as Hmap.
  { intros tls. rewrite Hc, He. unfold counted, decided.
    destruct (decide (tls ∈ tls_ids c)); [|done].
    by destruct (action_for c obs tls) as [[a|]|]. }
  split_and!; [done..|].
  intros tls p. unfold count. rewrite Hmap.
  destruct (entry d tls) as [a|] eqn:Ee; simpl; [|lia].
  assert (tls ∈ tls_ids c) as Hin.
  { specialize (He tls). rewrite Ee in He.
    by destruct (decide (tls ∈ tls_ids c)). }
  destruct (W tls Hin) as [_ [counts ->]]. simpl. rewrite lookup_bump.
  destruct (decide (p = phase_id a)) as [->|Hne].
  - rewrite bool_decide_true by done. done.
  - rewrite bool_decide_false by congruence. lia.
Qed.

(** * Intersections without light information *)

Lemma action_for_ext c obs1 obs2 tls_id :
  default ∅ (lights obs1) !! tls_id = default ∅ (lights obs2) !! tls_id →
  waiting_vehicles obs1 = waiting_vehicles obs2 →
  action_for c obs1 tls_id = action_for c obs2 tls_id.
Proof.
  intros Hl Hw.
  unfold action_for, select_phase, _get_phase_priority, green_duration,
    scores, _calculate_phase_efficiency, _estimate_phase_capacity,
    _calculate_waiting_traffic.
  by rewrite Hl, Hw.
Qed.

Lemma decide_loop_ext obs1 obs2 ids : ∀ c d0,
  (∀ c' tls_id, action_for c' obs1 tls_id = action_for c' obs2 tls_id) →
  decide_loop obs1 ids c d0 = decide_loop obs2 ids c d0.
Proof.
  induction ids as [|t ids IH]; intros c d0 H; simpl; [done|].
  rewrite !decide_one_action_for, H.
  destruct (action_for c obs2 t) as [[a|]|]; simpl; [|by apply IH|done].
  destruct (record_action c t (phase_id a)); simpl; [by apply IH|done].
Qed.

(** An intersection the loop passes over at once: the observation has no
    ["lights"] key, or binds the intersection to a falsy value. *)
Definition no_light_info (obs : Observation) (tls_id : string) : Prop :=
  lights obs = None ∨
  ∃ m light_info,
    lights obs = Some m ∧ m !! tls_id = Some light_info ∧
    falsy light_info = true.

(** The observation with [tls_id] taken out of its lights map. *)
Definition forget (tls_id : string) (obs : Observation) : Observation :=
  {| lights := Some (delete tls_id (default ∅ (lights obs)));
     waiting_vehicles := waiting_vehicles obs |}.

(** C10.  An intersection bound to a falsy light entry, or any
    intersection when ["lights"] is missing, is skipped: its loop body
    ends in [continue] without raising, the whole call behaves as on the
    observation whose lights map lacks the intersection, and a returned
    decision has no entry for it. *)
Theorem no_light_info_skipped c obs tls_id :
  no_light_info obs tls_id →
  decide_one c obs tls_id = Ok None ∧
  decide_next_phase c obs = decide_next_phase c (forget tls_id obs) ∧
  ∀ c' d, decide_next_phase c obs = Ok (c', d) → entry d tls_id = None.
Proof.
  intros Hno.
  assert (∀ c, action_for c obs tls_id = Ok None) as Hskip.
  { intros c0. unfold action_for.
    destruct Hno as [->|(m & li & -> & Hm & F)]; simpl.
    - by rewrite lookup_empty.
    - by rewrite Hm, F. }
  split_and!.
  - by rewrite decide_one_action_for, Hskip.
  - unfold decide_next_phase. f_equal. apply decide_loop_ext.
    intros c0 t. destruct (decide (t = tls_id)) as [->|Hne].
    + rewrite Hskip. unfold action_for, forget. simpl.
      by rewrite lookup_delete_eq.
    + apply action_for_ext; [|done]. simpl. by rewrite lookup_delete_ne.
  - intros c' d [_ He]%decide_next_phase_entry. rewrite He.
    unfold decided. rewrite Hskip. by destruct (decide _).
Qed.

(** * Which intersections a call decides *)

(** An intersection is eligible when the observation holds light
    information for it and the signal switches within half a second. *)
Definition eligible (obs : Observation) (tls_id : string) : Prop :=
  ∃ light_info,
    default ∅ (lights obs) !! tls_id = Some light_info ∧
    falsy light_info = false ∧
    (default 0 (time_to_next_switch light_info) <=? 0.5)%float = true.

(** Every reported [time_to_next_switch] is a number. *)
Definition timed (obs : Observation) : Prop :=
  ∀ tls_id light_info,
    default ∅ (lights obs) !! tls_id = Some light_info →
    is_nan (default 0%float (time_to_next_switch light_info)) = false.

Lemma acts_eligible obs tls_id :
  timed obs → acts obs tls_id ↔ eligible obs tls_id.
Proof.
  intros T. unfold acts, eligible.
  split; intros (li & El & F & H); exists li; split_and!; try done.
  - rewrite FloatOrder.leb_negb_ltb, H; [done|by eapply T|done].
  - rewrite FloatOrder.leb_negb_ltb in H; [|by eapply T|done].
    by apply negb_true_iff.
Qed.

(** C6.  On a well-formed controller a call returns, and its decision
    has an entry for exactly the controller's intersections that the
    observation holds light information for with
    [time_to_next_switch <= 0.5]; when there is none the result is [None],
    and it is never a present but empty map. *)
Theorem decide_next_phase_eligible c obs :
  wf c → no_zero_division obs → timed obs →
  ∃ c' d,
    decide_next_phase c obs = Ok (c', d) ∧
    (∀ tls_id, is_Some (entry d tls_id) ↔
       tls_id ∈ tls_ids c ∧ eligible obs tls_id) ∧
    d ≠ Some ∅ ∧
    (d = None ↔ ¬ ∃ tls_id, tls_id ∈ tls_ids c ∧ eligible obs tls_id).
Proof.
  intros W Hz T.
  destruct (decide_next_phase_returns c obs W Hz) as [[c' d] E].
  exists c', d. split; [done|].
  pose proof (decide_next_phase_entry _ _ _ _ E) as [Hne He].
  assert (∀ tls_id, is_Some (entry d tls_id) ↔
    tls_id ∈ tls_ids c ∧ eligible obs tls_id) as Hdom.
  { intros tls. rewrite He, <- acts_eligible by done.
    destruct (decide (tls ∈ tls_ids c)) as [Hin|Hin].
    - rewrite decided_is_Some by by apply action_for_returns.
      split; [by intros ? | by intros [_ ?]].
    - split; [by intros [? ?] | by intros [? _]]. }
  split_and!; [done..|].
  rewrite entry_None_all by done. split.
  - intros Hall (tls & Hin). apply Hdom in Hin as [a Ha].
    by rewrite Hall in Ha.
  - intros Hno tls. apply eq_None_not_Some. intros Hs%Hdom. eauto.
Qed.

(** * The junction at work *)

(** The end-to-end scenario: phase [0] has run for ten seconds with five
    vehicles waiting, fifty wait for phase [2]. *)
Definition rush : Observation :=
  observe (light 0 (Some 0) 10) [(0, 5%float); (2, 50%float)].

Definition demo_after : ParticipantController :=
  {| tls_ids := ["A"];
     min_green_duration := 7.0;
     max_green_duration := 70.0;
     green_phases := {[ "A" := [0; 2] ]};
     cursor := {[ "A" := 0 ]};
     last_phase_actions := {[ "A" := {[ 2 := 1 ]} ]} |}.

Lemma observe_timed li waiting :
  is_nan (default 0%float (time_to_next_switch li)) = false →
  timed (observe li waiting).
Proof.
  intros H tls li'. simpl. by intros [_ <-]%lookup_singleton_Some.
Qed.

Lemma float_neq (x y : float) : (x =? y)%float = false → is_nan x = false → x ≠ y.
Proof.
  intros Hne Hx ->. unfold is_nan in Hx. by rewrite Hne in Hx.
Qed.

Lemma rush_call :
  decide_next_phase demo rush =
    Ok (demo_after, Some {[ "A" := {| phase_id := 2; duration := 22.7 |} ]}).
Proof. vm_compute. reflexivity. Qed.

(** C2 (as amended).  In the end-to-end scenario the raw efficiencies
    are [537.5] and [8750], the stay rule does not hold, and the
    controller switches to phase [2] for [22.7] seconds: the duration
    before rounding is [22.748888614404901], within the bounds. *)
Theorem rush_decision :
  raw_ranking rush "A" [0; 2] = [(2, 8750%float); (0, 537.5%float)] ∧
  green_duration demo rush "A" 2 10 = 22.748888614404901%float ∧
  decide_next_phase demo rush =
    Ok (demo_after, Some {[ "A" := {| phase_id := 2; duration := 22.7 |} ]}).
Proof. vm_compute. done. Qed.

(** The same duration results when the square root is off by one unit
    in the last place, either way. *)
Example rush_duration_robust :
  Forall (λ root,
      Py.round1 (7.0 + 0.27 * 50 + 0.17 * root)%float = 22.7%float)
    [PrimFloat.sqrt 175; next_up (PrimFloat.sqrt 175);
     next_down (PrimFloat.sqrt 175)].
Proof. repeat constructor. Qed.

(** The duration of the scenario is not the [22.8] of the specification. *)
Lemma rush_duration_not_22_8 :
  ¬ ∃ c', decide_next_phase demo rush =
    Ok (c', Some {[ "A" := {| phase_id := 2; duration := 22.8 |} ]}).
Proof.
  intros [c' E]. rewrite rush_call in E.
  assert (({[ "A" := {| phase_id := 2; duration := 22.7 |} ]}
             : gmap string Action) !! "A" =
          ({[ "A" := {| phase_id := 2; duration := 22.8 |} ]}
             : gmap string Action) !! "A") as H by congruence.
  rewrite !lookup_singleton_eq in H.
  assert (22.7 = 22.8)%float as H' by congruence.
  by apply float_neq in H'.
Qed.

Lemma decide_next_phase_deterministic_demo :
  output (decide_next_phase demo rush) = output (decide_next_phase demo_after rush).
Proof.
  apply (decide_next_phase_deterministic ["A"] demo_catalog demo demo demo_after rush).
  - exact demo_init.
  - apply reachable_start.
  - eapply reachable_call; [apply reachable_start | exact rush_call].
Defined.

Lemma decide_next_phase_counts_demo :
  ∃ c' d,
    decide_next_phase demo rush = Ok (c', d) ∧
    frame demo c' ∧
    (∀ tls_id, last_phase_actions c' !! tls_id =
       match entry d tls_id with
       | Some a => bump (phase_id a) <$> last_phase_actions demo !! tls_id
       | None => last_phase_actions demo !! tls_id
       end) ∧
    (∀ tls_id phase, count c' tls_id phase =
       count demo tls_id phase +
       if bool_decide (phase_id <$> entry d tls_id = Some phase) then 1 else 0).
Proof.
  apply (decide_next_phase_counts demo rush).
  - exact demo_wf.
  - apply NoDup_singleton.
  - apply observe_no_zero_division. reflexivity.
Defined.

Lemma no_light_info_skipped_demo :
  decide_one demo (observe empty_light []) "A" = Ok None ∧
  decide_next_phase demo (observe empty_light []) =
    decide_next_phase demo (forget "A" (observe empty_light [])) ∧
  ∀ c' d, decide_next_phase demo (observe empty_light []) = Ok (c', d) →
    entry d "A" = None.
Proof.
  apply (no_light_info_skipped demo (observe empty_light []) "A").
  right. exists {[ "A" := empty_light ]}, empty_light.
  split_and!; reflexivity.
Defined.

Lemma decide_next_phase_eligible_demo :
  ∃ c' d,
    decide_next_phase demo rush = Ok (c', d) ∧
    (∀ tls_id, is_Some (entry d tls_id) ↔
       tls_id ∈ tls_ids demo ∧ eligible rush tls_id) ∧
    d ≠ Some ∅ ∧
    (d = None ↔ ¬ ∃ tls_id, tls_id ∈ tls_ids demo ∧ eligible rush tls_id).
Proof.
  apply (decide_next_phase_eligible demo rush).
  - exact demo_wf.
  - apply observe_no_zero_division. reflexivity.
  - apply observe_timed. reflexivity.
Defined.

(** The half-second test at its boundary: half a second is eligible,
    [0.51] is not, and the skipped call returns [None]. *)
Example gate_at_half_second :
  decide_next_phase demo (observe (light 0.5 (Some 0) 10) [(0, 5%float); (2, 50%float)]) =
    Ok (demo_after, Some {[ "A" := {| phase_id := 2; duration := 22.7 |} ]}).
Proof. vm_compute. reflexivity. Qed.

Example gate_above_half_second :
  decide_next_phase demo (observe (light 0.51 (Some 0) 10) [(0, 5%float); (2, 50%float)]) =
    Ok (demo, None).
Proof. vm_compute. reflexivity. Qed.

(** * The stay-on-phase rule *)

(** Floats that compare equal are the same float, or two zeros. *)
Lemma eqb_cases (x y : float) :
  (x =? y)%float = true →
  x = y ∨ ∃ s s', Prim2SF x = S754_zero s ∧ Prim2SF y = S754_zero s'.
Proof.
  rewrite FloatAxioms.eqb_spec. unfold SFeqb.
  destruct (Prim2SF x) as [sx|[]| |[] mx ex] eqn:Ex,
    (Prim2SF y) as [sy|[]| |[] my ey] eqn:Ey; simpl; try done;
    try (intros _; right; by eauto);
    try (intros _; left; apply Prim2SF_inj; by rewrite Ex, Ey);
    intros H; left; apply Prim2SF_inj; rewrite Ex, Ey;
    destruct (Z.compare_spec ex ey); try done; subst;
    rewrite Pos.compare_cont_spec in H; simpl in H;
    destruct (Pos.compare_spec mx my); try done; by subst.
Qed.

(** A product does not tell numerically equal factors apart. *)
Lemma mul_leb_eqb (k y y' z : float) :
  (y =? y')%float = true →
  (k * y <=? z)%float = (k * y' <=? z)%float.
Proof.
  intros [->|(s & s' & Hy & Hy')]%eqb_cases; [done|].
  rewrite !FloatAxioms.leb_spec, !FloatAxioms.mul_spec, Hy, Hy'.
  unfold SF64mul, SFleb.
  by destruct (Prim2SF k) as [[]|[]| |[] ? ?], s, s',
    (Prim2SF z) as [[]|[]| |[] ? ?].
Qed.

(** Every entry of a ranking pairs a phase with its own efficiency. *)
Lemma elem_of_scores obs tls_id ps p s :
  (p, s) ∈ scores obs tls_id ps ↔
  p ∈ ps ∧ s = _calculate_phase_efficiency obs tls_id p.
Proof.
  unfold scores. rewrite list_elem_of_fmap. split.
  - by intros (q & [= -> ->] & ?).
  - intros [? ->]. by exists p.
Qed.

Lemma elem_of_raw_ranking obs tls_id ps p s :
  (p, s) ∈ raw_ranking obs tls_id ps ↔
  p ∈ ps ∧ s = _calculate_phase_efficiency obs tls_id p.
Proof. unfold raw_ranking. by rewrite elem_of_sort_desc, elem_of_scores. Qed.

Lemma current_efficiency_elem cp raw :
  cp ∈ raw.*1 → ∃ s, (cp, s) ∈ raw ∧ current_efficiency cp raw = s.
Proof.
  induction raw as [|[p s] raw IH]; simpl; [by intros ?%not_elem_of_nil|].
  case_bool_decide as E.
  - subst. intros _. exists s. split; [left|done].
  - intros [?|Hin]%elem_of_cons; [done|].
    destruct (IH Hin) as (s' & ? & ?). exists s'. split; [by right|done].
Qed.

Lemma current_efficiency_raw obs tls_id ps cp :
  cp ∈ ps →
  current_efficiency cp (raw_ranking obs tls_id ps) =
    _calculate_phase_efficiency obs tls_id cp.
Proof.
  intros Hin.
  destruct (current_efficiency_elem cp (raw_ranking obs tls_id ps))
    as (s & [_ ->]%elem_of_raw_ranking & ->); [|done].
  apply list_elem_of_fmap.
  exists (cp, _calculate_phase_efficiency obs tls_id cp).
  split; [done|]. by apply elem_of_raw_ranking.
Qed.

(** The top of the raw ranking carries the greatest efficiency. *)
Lemma raw_ranking_best obs tls_id ps best best_eff :
  best ∈ ps →
  (∀ q, q ∈ ps →
     (_calculate_phase_efficiency obs tls_id q <=?
        _calculate_phase_efficiency obs tls_id best)%float = true) →
  snd <$> head (raw_ranking obs tls_id ps) = Some best_eff →
  (best_eff =? _calculate_phase_efficiency obs tls_id best)%float = true.
Proof.
  intros Hb Hmax Hh.
  destruct (head (raw_ranking obs tls_id ps)) as [[p s]|] eqn:E; [|done].
  injection Hh as ->.
  assert ((p, best_eff) ∈ raw_ranking obs tls_id ps) as [Hp ->]%elem_of_raw_ranking
    by by apply head_Some_elem_of.
  apply FloatOrder.leb_antisym; [by apply Hmax|].
  unfold raw_ranking in E. apply sort_desc_head_max in E.
  - rewrite Forall_forall in E.
    apply (E (best, _calculate_phase_efficiency obs tls_id best)).
    by apply elem_of_scores.
  - apply Forall_forall. intros [q s] [Hq ->]%elem_of_scores. simpl.
    by destruct (FloatOrder.leb_not_nan _ _ (Hmax q Hq)).
Qed.

Lemma action_for_eligible c obs tls_id li ps :
  default ∅ (lights obs) !! tls_id = Some li →
  falsy li = false →
  (0.5 <? default 0%float (time_to_next_switch li))%float = false →
  green_phases c !! tls_id = Some ps →
  ps ≠ [] →
  (default 0 (time_in_phase li) + 1.0 =? 0)%float = false →
  ∃ best_eff tentative,
    snd <$> head (raw_ranking obs tls_id ps) = Some best_eff ∧
    fst <$> head (adjusted_ranking obs tls_id ps (current_phase li)
                    (default 0%float (time_in_phase li))) = Some tentative ∧
    let chosen :=
      match current_phase li with
      | None => tentative
      | Some cp =>
          if (0.85 * best_eff <=?
                current_efficiency cp (raw_ranking obs tls_id ps))%float
          then cp else tentative
      end in
    action_for c obs tls_id =
      Ok (Some {| phase_id := chosen;
                  duration := Py.round1 (green_duration c obs tls_id chosen
                                (default 0%float (time_in_phase li))) |}).
Proof.
  intros El F T Hg Hps Hz.
  destruct (select_phase_Ok c obs tls_id (current_phase li)
              (default 0%float (time_in_phase li)) ps Hg Hps Hz)
    as (best_eff & tentative & Hb & Ht & Hs).
  exists best_eff, tentative. split_and!; [done..|].
  unfold action_for. by rewrite El, F, T, Hs.
Qed.

(** C5.  At an eligible intersection whose current phase is one of its
    green phases, the current phase is kept whenever its raw efficiency
    is at least [0.85] times the greatest raw efficiency of the green
    phases, equality included. *)
Theorem stay_rule_keeps_current c obs tls_id li ps cp best :
  wf c → no_zero_division obs →
  tls_id ∈ tls_ids c →
  default ∅ (lights obs) !! tls_id = Some li →
  (0.5 <? default 0%float (time_to_next_switch li))%float = false →
  current_phase li = Some cp →
  green_phases c !! tls_id = Some ps →
  cp ∈ ps →
  best ∈ ps →
  (∀ q, q ∈ ps →
     (_calculate_phase_efficiency obs tls_id q <=?
        _calculate_phase_efficiency obs tls_id best)%float = true) →
  (0.85 * _calculate_phase_efficiency obs tls_id best <=?
     _calculate_phase_efficiency obs tls_id cp)%float = true →
  ∃ c' d a,
    decide_next_phase c obs = Ok (c', Some d) ∧
    d !! tls_id = Some a ∧ phase_id a = cp.
Proof.
  intros W Hz Hin El T Hc Hg Hcp Hb Hmax Hstay.
  destruct (decide_next_phase_returns c obs W Hz) as [[c' d] E].
  pose proof (decide_next_phase_entry _ _ _ _ E) as [_ He].
  specialize (He tls_id). rewrite decide_True in He by done.
  assert (falsy li = false) as F by (unfold falsy; rewrite Hc; by destruct (time_to_next_switch li)).
  assert (ps ≠ []) as Hps by (intros ->; by apply not_elem_of_nil in Hcp).
  destruct (action_for_eligible c obs tls_id li ps El F T Hg Hps (Hz _ _ El))
    as (best_eff & tentative & Hbe & _ & Ha).
  rewrite Hc, current_efficiency_raw in Ha by done.
  rewrite (mul_leb_eqb _ _ _ _ (raw_ranking_best _ _ _ _ _ Hb Hmax Hbe)),
    Hstay in Ha.
  unfold decided in He. rewrite Ha in He.
  destruct d as [dm|]; [|done].
  eexists c', dm, _. split_and!; [done | exact He | done].
Qed.

(** The rule at its boundary: phase [0] is current with an efficiency of
    [456.875], which is [0.85] times the [537.5] of phase [2]. *)
Definition boundary : Observation :=
  observe (light 0 (Some 0) 10)
    [(0, 0x1.12b66270b74a9p+2%float); (2, 5%float)].

Lemma stay_rule_keeps_current_boundary :
  ∃ c' d a,
    decide_next_phase demo boundary = Ok (c', Some d) ∧
    d !! "A" = Some a ∧ phase_id a = 0.
Proof.
  apply (stay_rule_keeps_current demo boundary "A" (light 0 (Some 0) 10)
           [0; 2] 0 2).
  - exact demo_wf.
  - apply observe_no_zero_division. reflexivity.
  - apply list_elem_of_here.
  - reflexivity.
  - reflexivity.
  - reflexivity.
  - reflexivity.
  - apply list_elem_of_here.
  - apply list_elem_of_further, list_elem_of_here.
  - intros q Hq. repeat (apply elem_of_cons in Hq as [->|Hq]; [reflexivity|]).
    by apply not_elem_of_nil in Hq.
  - reflexivity.
Defined.

Example boundary_efficiencies :
  _calculate_phase_efficiency boundary "A" 0 = 456.875%float ∧
  _calculate_phase_efficiency boundary "A" 2 = 537.5%float ∧
  (0.85 * 537.5 = 456.875)%float ∧
  fst <$> head (adjusted_ranking boundary "A" [0; 2] (Some 0) 10) = Some 2.
Proof. vm_compute. done. Qed.

(** * Ties *)

Lemma elem_of_adjust_raw obs tls_id ps current tip e :
  e ∈ adjust current tip <$> raw_ranking obs tls_id ps → e.1 ∈ ps.
Proof.
  intros ([p s] & -> & [Hp _]%elem_of_raw_ranking)%list_elem_of_fmap.
  unfold adjust. simpl. by case_bool_decide.
Qed.






(** * The emitted phase *)

Lemma penalize_phases current tip raw adj :
  penalize current tip raw = Ok adj → adj.*1 = raw.*1.
Proof.
  revert adj. induction raw as [|[p s] raw IH]; intros adj; simpl.
  { by intros [= <-]. }
  destruct (bool_decide _); simpl;
    [|destruct (Py.truediv _ _); simpl; [|done]];
    destruct (penalize _ _ raw); simpl; try done;
    intros [= <-]; simpl; f_equal; by apply IH.
Qed.

(** The phase a call emits is a green phase of the intersection or the
    phase the observation reports as current. *)
Lemma emitted_phase_green_or_current c obs tls_id li ps a :
  default ∅ (lights obs) !! tls_id = Some li →
  green_phases c !! tls_id = Some ps →
  action_for c obs tls_id = Ok (Some a) →
  phase_id a ∈ ps ∨ current_phase li = Some (phase_id a).
Proof.
  intros El Hg. unfold action_for, select_phase, _get_phase_priority.
  rewrite El, Hg. simpl.
  destruct (falsy li); [done|]. destruct (0.5 <? _)%float; [done|].
  fold (raw_ranking obs tls_id ps).
  destruct (penalize _ _ _) as [adj|] eqn:Ep; simpl; [|done].
  destruct (sort_desc snd adj) as [|[bp bs] rest] eqn:Es; simpl; [done|].
  assert (bp ∈ ps) as Hbp.
  { assert (bp ∈ adj.*1) as Hin.
    { apply list_elem_of_fmap. exists (bp, bs). split; [done|].
      apply (elem_of_sort_desc snd). rewrite Es. left. }
    rewrite (penalize_phases _ _ _ _ Ep) in Hin.
    apply list_elem_of_fmap in Hin as ([p s] & -> & Hin).
    by apply elem_of_raw_ranking in Hin as [? _]. }
  unfold stay_rule. destruct (current_phase li) as [cp|] eqn:Ec; simpl.
  - destruct (raw_ranking obs tls_id ps) as [|[? best_eff] ?]; simpl; [done|].
    destruct (_ <=? _)%float; intros [= <-]; simpl; auto.
  - intros [= <-]. auto.
Qed.

(** An idle junction caught in a yellow phase: nothing waits, and the
    observation reports phase [1], which is not green, as current. *)
Definition idle_in_yellow : Observation := observe (light 0 (Some 1) 3) [].

Definition demo_after_yellow : ParticipantController :=
  {| tls_ids := ["A"];
     min_green_duration := 7.0;
     max_green_duration := 70.0;
     green_phases := {[ "A" := [0; 2] ]};
     cursor := {[ "A" := 0 ]};
     last_phase_actions := {[ "A" := {[ 1 := 1 ]} ]} |}.

(** C1 (where the code departs from it).  With every raw efficiency at
    [0.0] the stay rule compares the default [0] of the unknown current
    phase with [0.85 * 0.0] and holds: the call emits phase [1], which is
    not one of the green phases [0] and [2], while the penalty-adjusted
    ranking had selected phase [0]. *)
Theorem idle_in_yellow_emits_yellow :
  green_phases demo !! "A" = Some [0; 2] ∧
  raw_ranking idle_in_yellow "A" [0; 2] = [(0, 0%float); (2, 0%float)] ∧
  fst <$> head (adjusted_ranking idle_in_yellow "A" [0; 2] (Some 1) 3) = Some 0 ∧
  decide_next_phase demo idle_in_yellow =
    Ok (demo_after_yellow,
        Some {[ "A" := {| phase_id := 1; duration := 8.7 |} ]}) ∧
  1 ∉ [0; 2].
Proof.
  split_and!; [by vm_compute..|].
  intros [?|[?|?%not_elem_of_nil]%elem_of_cons]%elem_of_cons; done.
Qed.


(** * Bounds on binary64 arithmetic

    The specification of the primitive operations rounds an exact
    integer mantissa at a binary exponent.  For operands in the normal
    range the rounded mantissa has 53 digits and lies between the
    truncated mantissa and its successor, which is enough to bound a
    sum, a product or a square root from the bounds of its operands. *)

Module FloatBounds.

Lemma digits2_pos_bounds m :
  2 ^ (Zpos (digits2_pos m) - 1) <= Zpos m < 2 ^ Zpos (digits2_pos m).
Proof.
  induction m as [m IH|m IH|]; simpl digits2_pos.
  - rewrite Pos2Z.inj_succ, Z.pow_succ_r by lia.
    replace (Z.succ (Zpos (digits2_pos m)) - 1) with (Z.succ (Zpos (digits2_pos m) - 1)) by lia.
    rewrite Z.pow_succ_r by lia. lia.
  - rewrite Pos2Z.inj_succ, Z.pow_succ_r by lia.
    replace (Z.succ (Zpos (digits2_pos m)) - 1) with (Z.succ (Zpos (digits2_pos m) - 1)) by lia.
    rewrite Z.pow_succ_r by lia. lia.
  - simpl. lia.
Qed.

Lemma Zdigits2_bounds m :
  0 < m -> 2 ^ (Zdigits2 m - 1) <= m < 2 ^ Zdigits2 m.
Proof. destruct m as [|p|p]; try lia. intros _. apply digits2_pos_bounds. Qed.

Lemma Zdigits2_pos m : 0 < m -> 0 < Zdigits2 m.
Proof. destruct m; simpl; lia. Qed.

Lemma Zdigits2_unique m k :
  0 < m -> 2 ^ (k - 1) <= m < 2 ^ k -> Zdigits2 m = k.
Proof.
  intros Hm [Hl Hu]. pose proof (Zdigits2_bounds m Hm) as [Hl' Hu'].
  pose proof (Zdigits2_pos m Hm).
  assert (0 < k).
  { destruct (Z.lt_trichotomy 0 k) as [?|[<-|?]]; [done| |].
    - simpl in Hu. lia.
    - rewrite Z.pow_neg_r in Hu by lia. lia. }
  assert (k - 1 < Zdigits2 m).
  { apply (Z.pow_lt_mono_r_iff 2); lia. }
  assert (Zdigits2 m - 1 < k).
  { apply (Z.pow_lt_mono_r_iff 2); lia. }
  lia.
Qed.

Lemma shr_1_m mrs : 0 <= shr_m mrs -> shr_m (shr_1 mrs) = shr_m mrs / 2.
Proof.
  destruct mrs as [m r s]. simpl. intros Hm.
  destruct m as [|[p|p|]|p]; simpl; try lia; try done.
  - rewrite Pos2Z.inj_xI. apply Z.div_unique with 1; lia.
  - rewrite Pos2Z.inj_xO. apply Z.div_unique with 0; lia.
Qed.

Lemma iter_pos_shr_m p : forall mrs,
  0 <= shr_m mrs -> shr_m (SpecFloat.iter_pos shr_1 p mrs) = shr_m mrs / 2 ^ Zpos p.
Proof.
  induction p as [p IH|p IH|]; intros mrs Hm; simpl SpecFloat.iter_pos.
  - assert (0 <= shr_m (shr_1 mrs)) by (rewrite shr_1_m by done; apply Z.div_pos; lia).
    assert (0 <= shr_m (SpecFloat.iter_pos shr_1 p (shr_1 mrs)))
      by (rewrite IH by done; apply Z.div_pos; lia).
    rewrite !IH, shr_1_m by done.
    rewrite !Z.div_div by lia. f_equal.
    rewrite Pos2Z.inj_xI, <- Z.pow_add_r, <- Z.pow_succ_r by lia. f_equal. lia.
  - assert (0 <= shr_m (SpecFloat.iter_pos shr_1 p mrs))
      by (rewrite IH by done; apply Z.div_pos; lia).
    rewrite !IH by done. rewrite !Z.div_div by lia. f_equal.
    rewrite Pos2Z.inj_xO, <- Z.pow_add_r by lia. f_equal. lia.
  - rewrite shr_1_m by done. done.
Qed.

Lemma shr_record_of_loc_m m l : shr_m (shr_record_of_loc m l) = m.
Proof. by destruct l as [|[]]. Qed.

Lemma shr_spec mrs e n :
  0 <= shr_m mrs -> 0 <= n ->
  shr_m (fst (shr mrs e n)) = shr_m mrs / 2 ^ n /\ snd (shr mrs e n) = e + n.
Proof.
  intros Hm Hn. destruct n as [|p|p]; simpl; try lia.
  - rewrite Z.div_1_r. lia.
  - split; [|done]. by apply iter_pos_shr_m.
Qed.

Lemma round_nearest_even_bounds m l :
  m <= round_nearest_even m l <= m + 1.
Proof. destruct l as [|[]]; simpl; try lia. destruct (Z.even m); lia. Qed.

Lemma fexp_normal e : -1074 <= e - 53 -> fexp prec emax e = e - 53.
Proof. unfold fexp, emin, prec, emax. lia. Qed.

Lemma shr_fexp_normal m e l :
  0 < m -> 53 <= Zdigits2 m -> -1074 <= Zdigits2 m + e - 53 ->
  snd (shr_fexp prec emax m e l) = Zdigits2 m + e - 53 /\
  shr_m (fst (shr_fexp prec emax m e l)) = m / 2 ^ (Zdigits2 m - 53).
Proof.
  intros Hm Hd He. unfold shr_fexp. rewrite fexp_normal by lia.
  destruct (shr_spec (shr_record_of_loc m l) e (Zdigits2 m + e - 53 - e))
    as [H1 H2]; [rewrite shr_record_of_loc_m; lia | lia |].
  rewrite H1, H2, shr_record_of_loc_m. split; [lia|]. f_equal. f_equal. lia.
Qed.

Lemma div_pow_bounds m D :
  53 <= D -> 2 ^ (D - 1) <= m < 2 ^ D ->
  2 ^ 52 <= m / 2 ^ (D - 53) < 2 ^ 53.
Proof.
  intros HD [Hl Hu].
  assert (0 < 2 ^ (D - 53)) by (apply Z.pow_pos_nonneg; lia).
  assert (2 ^ (D - 1) = 2 ^ 52 * 2 ^ (D - 53)) as E1
    by (rewrite <- Z.pow_add_r by lia; f_equal; lia).
  assert (2 ^ D = 2 ^ 53 * 2 ^ (D - 53)) as E2
    by (rewrite <- Z.pow_add_r by lia; f_equal; lia).
  split.
  - apply Z.div_le_lower_bound; lia.
  - apply Z.div_lt_upper_bound; lia.
Qed.

(** Rounding a positive number of at least 53 digits in the normal
    range: the mantissa keeps 53 digits, between the truncated mantissa
    and its successor, and the result overflows to infinity when the
    exponent is out of range. *)
Definition finite_or_inf (m : positive) (e : Z) : spec_float :=
  if e <=? 971 then S754_finite false m e else S754_infinity false.

Lemma binary_round_aux_normal mx ex lx :
  0 < mx -> 53 <= Zdigits2 mx -> -1074 <= Zdigits2 mx + ex - 53 ->
  let e1 := Zdigits2 mx + ex - 53 in
  let m1 := mx / 2 ^ (Zdigits2 mx - 53) in
  exists m e,
    binary_round_aux prec emax false mx ex lx = finite_or_inf m e /\
    2 ^ 52 <= m1 < 2 ^ 53 /\
    ((e = e1 /\ m1 <= Zpos m <= m1 + 1 /\ Zpos m < 2 ^ 53) \/
     (e = e1 + 1 /\ Zpos m = 2 ^ 52 /\ m1 + 1 = 2 ^ 53)).
Proof.
  intros Hm Hd He e1 m1. unfold binary_round_aux, finite_or_inf.
  pose proof (shr_fexp_normal mx ex lx Hm Hd He) as [Hs1 Hs2].
  destruct (shr_fexp prec emax mx ex lx) as [mrs' e'] eqn:E1. simpl in Hs1, Hs2.
  fold m1 in Hs2. fold e1 in Hs1. subst e'.
  pose proof (div_pow_bounds mx (Zdigits2 mx) Hd (Zdigits2_bounds mx Hm)) as Hm1.
  fold m1 in Hm1.
  pose proof (round_nearest_even_bounds (shr_m mrs') (loc_of_shr_record mrs')) as Hr.
  set (m2 := round_nearest_even (shr_m mrs') (loc_of_shr_record mrs')) in *.
  rewrite Hs2 in Hr.
  destruct (Z.eq_dec m2 (2 ^ 53)) as [E2|N2].
  - assert (Zdigits2 m2 = 54) as Hd2
      by (apply Zdigits2_unique; rewrite E2; simpl; lia).
    pose proof (shr_fexp_normal m2 e1 loc_Exact) as [Ht1 Ht2]; [lia..|].
    destruct (shr_fexp prec emax m2 e1 loc_Exact) as [mrs'' e''] eqn:E3.
    simpl in Ht1, Ht2. rewrite Hd2 in Ht1, Ht2.
    rewrite Ht2, E2. change (2 ^ 53 / 2 ^ (54 - 53)) with (Zpos (2 ^ 52)).
    exists (2 ^ 52)%positive, e''. split; [done|]. split; [done|]. right.
    split_and!; [lia|done|lia].
  - assert (Zdigits2 m2 = 53) as Hd2
      by (apply Zdigits2_unique; simpl; lia).
    pose proof (shr_fexp_normal m2 e1 loc_Exact) as [Ht1 Ht2]; [lia..|].
    destruct (shr_fexp prec emax m2 e1 loc_Exact) as [mrs'' e''] eqn:E3.
    simpl in Ht1, Ht2. rewrite Hd2 in Ht1, Ht2.
    rewrite Ht2. change (2 ^ (53 - 53)) with 1. rewrite Z.div_1_r.
    destruct m2 as [|p|p] eqn:Ep; [lia| |lia].
    exists p, e''. split; [done|]. split; [done|]. left.
    split_and!; lia.
Qed.

(** ** Bounds by a normal float

    [above mL eL x]: [x] is infinite or finite and at least the float of
    mantissa [mL] and exponent [eL]; [below mU eU x]: [x] is positive,
    finite and at most that float. *)
Definition above (mL : positive) (eL : Z) (x : spec_float) : Prop :=
  x = S754_infinity false \/
  exists m e, x = S754_finite false m e /\
    (eL < e \/ (eL = e /\ Zpos mL <= Zpos m)).

Definition below (mU : positive) (eU : Z) (x : spec_float) : Prop :=
  exists m e, x = S754_finite false m e /\
    (e < eU \/ (e = eU /\ Zpos m <= Zpos mU)).

Definition normal (m : positive) (e : Z) : Prop :=
  Zpos (digits2_pos m) = 53 /\ -1074 <= e <= 971.

Lemma normal_bounds m e : normal m e -> 2 ^ 52 <= Zpos m < 2 ^ 53.
Proof.
  intros [Hd _]. pose proof (digits2_pos_bounds m) as H.
  rewrite Hd in H. exact H.
Qed.

Lemma above_finite_or_inf mL eL m e :
  eL < e \/ (eL = e /\ Zpos mL <= Zpos m) ->
  above mL eL (finite_or_inf m e).
Proof.
  intros H. unfold finite_or_inf. destruct (e <=? 971); [|by left].
  right. eauto.
Qed.

Lemma Zdigits2_ge m k : 0 < k -> 2 ^ (k - 1) <= m -> k <= Zdigits2 m.
Proof.
  intros Hk Hm.
  assert (0 < m) by (pose proof (Z.pow_pos_nonneg 2 (k - 1)); lia).
  pose proof (Zdigits2_bounds m H) as [_ Hu].
  assert (k - 1 < Zdigits2 m); [|lia].
  apply (Z.pow_lt_mono_r_iff 2); [lia| |lia].
  pose proof (Zdigits2_pos m H). lia.
Qed.

(** Rounding does not fall below a normal float that the truncated
    input reaches. *)
Lemma round_above mx ex lx mL eL :
  0 < mx -> 53 <= Zdigits2 mx ->
  normal mL eL ->
  (eL < ex \/ (ex <= eL /\ Zpos mL * 2 ^ (eL - ex) <= mx)) ->
  above mL eL (binary_round_aux prec emax false mx ex lx).
Proof.
  intros Hm Hd HL Hv.
  pose proof (normal_bounds _ _ HL) as HmL. destruct HL as [_ HeL].
  pose proof (Zdigits2_bounds mx Hm) as [Hdl Hdu].
  assert (eL <= Zdigits2 mx + ex - 53) as He1.
  { destruct Hv as [?|[Hle Hv]]; [lia|].
    assert (2 ^ (52 + (eL - ex)) < 2 ^ Zdigits2 mx) as Hp.
    { rewrite Z.pow_add_r by lia.
      pose proof (Z.pow_pos_nonneg 2 (eL - ex)). nia. }
    apply Z.pow_lt_mono_r_iff in Hp; lia. }
  destruct (binary_round_aux_normal mx ex lx Hm Hd) as (m & e & -> & Hm1 & Hc);
    [lia|].
  apply above_finite_or_inf.
  destruct Hc as [(-> & Hmm & _)|(-> & Hmm & _)]; [|left; lia].
  destruct (Z.eq_dec eL (Zdigits2 mx + ex - 53)) as [Ee|Ne]; [|left; lia].
  right. split; [done|].
  destruct Hv as [?|[Hle Hv]]; [lia|].
  assert (Zpos mL <= mx / 2 ^ (Zdigits2 mx - 53)); [|lia].
  replace (Zdigits2 mx - 53) with (eL - ex) by lia.
  apply Z.div_le_lower_bound; [apply Z.pow_pos_nonneg; lia | lia].
Qed.

(** Nor does it exceed a normal float that the input stays strictly
    under. *)
Lemma round_below mx ex lx mU eU :
  0 < mx -> 53 <= Zdigits2 mx -> -1074 <= Zdigits2 mx + ex - 53 ->
  normal mU eU ->
  ex <= eU -> mx < Zpos mU * 2 ^ (eU - ex) ->
  below mU eU (binary_round_aux prec emax false mx ex lx).
Proof.
  intros Hm Hd He HU Hle Hv.
  pose proof (normal_bounds _ _ HU) as HmU. destruct HU as [_ HeU].
  pose proof (Zdigits2_bounds mx Hm) as [Hdl Hdu].
  assert (0 < 2 ^ (eU - ex)) as Hp0 by (apply Z.pow_pos_nonneg; lia).
  assert (Zdigits2 mx + ex - 53 <= eU) as He1.
  { assert (2 ^ (Zdigits2 mx - 1) < 2 ^ (53 + (eU - ex))) as Hp.
    { rewrite Z.pow_add_r by lia. nia. }
    apply Z.pow_lt_mono_r_iff in Hp; lia. }
  destruct (binary_round_aux_normal mx ex lx Hm Hd He) as (m & e & -> & Hm1 & Hc).
  assert (Zdigits2 mx + ex - 53 = eU -> mx / 2 ^ (Zdigits2 mx - 53) < Zpos mU) as Hlt.
  { intros Ee. replace (Zdigits2 mx - 53) with (eU - ex) by lia.
    apply Z.div_lt_upper_bound; lia. }
  unfold finite_or_inf.
  destruct Hc as [(-> & Hmm & _)|(-> & Hmm & Ho)].
  - rewrite (proj2 (Z.leb_le _ _)) by lia. eexists _, _. split; [reflexivity|].
    destruct (Z.eq_dec (Zdigits2 mx + ex - 53) eU) as [Ee|Ne]; [|left; lia].
    right. split; [done|]. specialize (Hlt Ee). lia.
  - assert (Zdigits2 mx + ex - 53 < eU) as Hs.
    { destruct (Z.eq_dec (Zdigits2 mx + ex - 53) eU) as [Ee|Ne]; [|lia].
      specialize (Hlt Ee). lia. }
    rewrite (proj2 (Z.leb_le _ _)) by lia. eexists _, _. split; [reflexivity|].
    destruct (Z.eq_dec (Zdigits2 mx + ex - 53 + 1) eU) as [Ee|Ne]; [|left; lia].
    right. split; [done|]. lia.
Qed.

(** ** Valid floats and their values *)

Lemma bounded_digits m e :
  bounded prec emax m e = true ->
  Zpos (digits2_pos m) <= 53 /\ -1074 <= e <= 971 /\
  (-1074 < e -> Zpos (digits2_pos m) = 53).
Proof.
  unfold bounded, canonical_mantissa, fexp, emin, prec, emax.
  intros [H1 H2]%andb_prop. apply Z.eqb_eq in H1. apply Z.leb_le in H2. lia.
Qed.

Lemma above_value mL eL m e :
  normal mL eL -> bounded prec emax m e = true ->
  (eL < e \/ (eL = e /\ Zpos mL <= Zpos m)) ->
  normal m e /\ eL <= e /\ Zpos mL <= Zpos m * 2 ^ (e - eL).
Proof.
  intros HL Hb Hc. pose proof (normal_bounds _ _ HL) as HmL.
  destruct HL as [HdL HeL].
  pose proof (bounded_digits m e Hb) as (Hd & He & Hn).
  pose proof (digits2_pos_bounds m) as Hm.
  destruct Hc as [Hlt|[<- Hle]].
  - assert (normal m e) as N by (split; lia).
    split_and!; [done|lia|].
    pose proof (normal_bounds _ _ N).
    assert (2 ^ 1 <= 2 ^ (e - eL)) by (apply Z.pow_le_mono_r; lia).
    change (2 ^ 1) with 2 in *. nia.
  - rewrite Z.sub_diag, Z.mul_1_r.
    assert (Zpos (digits2_pos m) = 53).
    { assert (53 <= Zdigits2 (Zpos m)); [|simpl in *; lia].
      apply Zdigits2_ge; [lia|]. simpl. lia. }
    split_and!; [split; lia|lia|lia].
Qed.

Lemma below_value mU eU m e :
  normal mU eU -> bounded prec emax m e = true ->
  (e < eU \/ (e = eU /\ Zpos m <= Zpos mU)) ->
  e <= eU /\ Zpos m <= Zpos mU * 2 ^ (eU - e).
Proof.
  intros HU Hb Hc. pose proof (normal_bounds _ _ HU) as HmU.
  pose proof (bounded_digits m e Hb) as (Hd & He & Hn).
  pose proof (digits2_pos_bounds m) as [_ Hm].
  destruct Hc as [Hlt|[-> Hle]].
  - split; [lia|].
    assert (Zpos m < 2 ^ 53).
    { eapply Z.lt_le_trans; [exact Hm|]. apply Z.pow_le_mono_r; lia. }
    assert (2 ^ 1 <= 2 ^ (eU - e)) by (apply Z.pow_le_mono_r; lia).
    change (2 ^ 1) with 2 in *. nia.
  - rewrite Z.sub_diag, Z.mul_1_r. lia.
Qed.

(** ** Products *)

Lemma SFmul_above x y mLx eLx mLy eLy mL eL :
  valid_binary x = true -> valid_binary y = true ->
  normal mLx eLx -> normal mLy eLy -> normal mL eL ->
  eLx + eLy <= eL ->
  Zpos mL * 2 ^ (eL - eLx - eLy) <= Zpos mLx * Zpos mLy ->
  above mLx eLx x -> above mLy eLy y ->
  above mL eL (SFmul prec emax x y).
Proof.
  intros Vx Vy NLx NLy NL Hle Hside [->|(mx & ex & -> & Hx)] [->|(my & ey & -> & Hy)];
    simpl; try by left.
  destruct (above_value _ _ _ _ NLx Vx Hx) as (Nx & Hex & Hvx).
  destruct (above_value _ _ _ _ NLy Vy Hy) as (Ny & Hey & Hvy).
  pose proof (normal_bounds _ _ Nx). pose proof (normal_bounds _ _ Ny).
  pose proof (normal_bounds _ _ NL).
  rewrite Pos2Z.inj_mul. apply round_above; [lia| |done|].
  - apply Zdigits2_ge; [lia|]. change (2 ^ (53 - 1)) with (2 ^ 52). nia.
  - destruct (Z_lt_le_dec eL (ex + ey)) as [?|Hge]; [by left|right].
    split; [done|].
    set (a := ex - eLx) in *. set (b := ey - eLy) in *.
    set (c := eL - (ex + ey)).
    assert (0 <= a) by (unfold a; lia). assert (0 <= b) by (unfold b; lia).
    assert (0 <= c) by (unfold c; lia).
    replace (eL - eLx - eLy) with (c + (a + b)) in Hside by (unfold a, b, c; lia).
    rewrite !Z.pow_add_r in Hside by lia.
    pose proof (Z.pow_pos_nonneg 2 a). pose proof (Z.pow_pos_nonneg 2 b).
    pose proof (Z.pow_pos_nonneg 2 c).
    assert (Zpos mL * 2 ^ c * (2 ^ a * 2 ^ b) <= Zpos mx * Zpos my * (2 ^ a * 2 ^ b))
      as Hprod by nia.
    apply Z.mul_le_mono_pos_r in Hprod; nia.
Qed.

Lemma SFmul_below x y mLx eLx mLy eLy mUx eUx mUy eUy mU eU :
  valid_binary x = true -> valid_binary y = true ->
  normal mLx eLx -> normal mLy eLy ->
  normal mUx eUx -> normal mUy eUy -> normal mU eU ->
  -1126 <= eLx + eLy ->
  eUx + eUy <= eU ->
  Zpos mUx * Zpos mUy < Zpos mU * 2 ^ (eU - eUx - eUy) ->
  above mLx eLx x -> below mUx eUx x ->
  above mLy eLy y -> below mUy eUy y ->
  below mU eU (SFmul prec emax x y).
Proof.
  intros Vx Vy NLx NLy NUx NUy NU Hlow Hle Hside Ax (mx & ex & -> & Hx) Ay
    (my & ey & -> & Hy).
  destruct Ax as [?|(? & ? & [= <- <-] & Ax)]; [done|].
  destruct Ay as [?|(? & ? & [= <- <-] & Ay)]; [done|].
  destruct (above_value _ _ _ _ NLx Vx Ax) as (Nx & Hex & _).
  destruct (above_value _ _ _ _ NLy Vy Ay) as (Ny & Hey & _).
  destruct (below_value _ _ _ _ NUx Vx Hx) as (Hex' & Hvx).
  destruct (below_value _ _ _ _ NUy Vy Hy) as (Hey' & Hvy).
  pose proof (normal_bounds _ _ Nx). pose proof (normal_bounds _ _ Ny).
  pose proof (normal_bounds _ _ NU).
  simpl. rewrite Pos2Z.inj_mul.
  assert (53 + 52 <= Zdigits2 (Zpos mx * Zpos my)) as Hd.
  { apply Zdigits2_ge; [lia|]. change (2 ^ (53 + 52 - 1)) with (2 ^ 52 * 2 ^ 52). nia. }
  apply round_below; [lia|lia|lia|done|lia|].
  set (a := eUx - ex) in *. set (b := eUy - ey) in *.
  set (c := eU - eUx - eUy) in *.
  assert (0 <= a) by (unfold a; lia). assert (0 <= b) by (unfold b; lia).
  assert (0 <= c) by (unfold c; lia).
  replace (eU - (ex + ey)) with (c + (a + b)) by (unfold a, b, c; lia).
  rewrite !Z.pow_add_r by lia.
  pose proof (Z.pow_pos_nonneg 2 a). pose proof (Z.pow_pos_nonneg 2 b).
  pose proof (Z.pow_pos_nonneg 2 c).
  assert (Zpos mx * Zpos my <= (Zpos mUx * Zpos mUy) * (2 ^ a * 2 ^ b)) by nia.
  nia.
Qed.

(** ** Sums *)

Lemma iter_xO m d : Zpos (Pos.iter xO m d) = Zpos m * 2 ^ Zpos d.
Proof.
  induction d as [|d IH] using Pos.peano_ind.
  - simpl. lia.
  - rewrite Pos.iter_succ, Pos2Z.inj_xO, IH, Pos2Z.inj_succ, Z.pow_succ_r by lia.
    lia.
Qed.

Lemma shl_align_fst mx ex ez :
  ez <= ex -> Zpos (fst (shl_align mx ex ez)) = Zpos mx * 2 ^ (ex - ez).
Proof.
  intros Hle. unfold shl_align.
  destruct (ez - ex) as [|d|d] eqn:E; cbn [fst].
  - replace (ex - ez) with 0 by lia. lia.
  - lia.
  - rewrite iter_xO. f_equal. f_equal. lia.
Qed.

Lemma binary_normalize_pos M ez :
  0 < M -> 53 <= Zdigits2 M ->
  binary_normalize prec emax M ez false =
    binary_round_aux prec emax false M ez loc_Exact.
Proof.
  intros HM Hd. destruct M as [|p|p]; [lia| |lia].
  unfold binary_normalize, binary_round, shl_align.
  simpl in Hd.
  destruct (fexp prec emax (Zpos (digits2_pos p) + ez) - ez) eqn:E; try done.
  unfold fexp, emin, prec, emax in E. lia.
Qed.

(** A float that is zero, positive or [+infinity]. *)
Definition nonneg (x : spec_float) : Prop :=
  match x with
  | S754_zero _ | S754_infinity false | S754_finite false _ _ => True
  | _ => False
  end.

Lemma SFadd_above_l x y mL eL :
  valid_binary x = true -> valid_binary y = true ->
  normal mL eL ->
  above mL eL x -> nonneg y ->
  above mL eL (SFadd prec emax x y).
Proof.
  intros Vx Vy NL [->|(mx & ex & -> & Hx)] Hy.
  { destruct y as [|[]| |[]]; try done; by left. }
  destruct y as [sy|[]| |[] my ey]; try done;
    cbv beta iota zeta delta [SFadd cond_Zopp].
  - right. eauto.
  - by left.
  - destruct (above_value _ _ _ _ NL Vx Hx) as (Nx & Hex & Hvx).
    pose proof (normal_bounds _ _ Nx).
    set (ez := Z.min ex ey).
    rewrite !shl_align_fst by (unfold ez; lia).
    assert (0 < 2 ^ (ex - ez)) by (apply Z.pow_pos_nonneg; unfold ez; lia).
    assert (0 < 2 ^ (ey - ez)) by (apply Z.pow_pos_nonneg; unfold ez; lia).
    rewrite binary_normalize_pos; [|nia|].
    2:{ apply Zdigits2_ge; [lia|]. change (2 ^ (53 - 1)) with (2 ^ 52). nia. }
    apply round_above; [nia| |done|].
    { apply Zdigits2_ge; [lia|]. change (2 ^ (53 - 1)) with (2 ^ 52). nia. }
    destruct (Z_lt_le_dec eL ez) as [?|Hge]; [by left|right]. split; [done|].
    assert (Zpos mL * 2 ^ (eL - ez) <= Zpos mx * 2 ^ (ex - ez)); [|nia].
    replace (ex - ez) with ((ex - eL) + (eL - ez)) by lia.
    rewrite Z.pow_add_r by lia.
    pose proof (Z.pow_pos_nonneg 2 (eL - ez)). nia.
Qed.

Lemma SFadd_above_r x y mL eL :
  valid_binary x = true -> valid_binary y = true ->
  normal mL eL ->
  nonneg x -> above mL eL y ->
  above mL eL (SFadd prec emax x y).
Proof.
  intros Vx Vy NL Hx [->|(my & ey & -> & Hy)].
  { destruct x as [|[]| |[]]; try done; by left. }
  destruct x as [sx|[]| |[] mx ex]; try done;
    cbv beta iota zeta delta [SFadd cond_Zopp].
  - right. eauto.
  - by left.
  - destruct (above_value _ _ _ _ NL Vy Hy) as (Ny & Hey & Hvy).
    pose proof (normal_bounds _ _ Ny).
    set (ez := Z.min ex ey).
    rewrite !shl_align_fst by (unfold ez; lia).
    assert (0 < 2 ^ (ex - ez)) by (apply Z.pow_pos_nonneg; unfold ez; lia).
    assert (0 < 2 ^ (ey - ez)) by (apply Z.pow_pos_nonneg; unfold ez; lia).
    rewrite binary_normalize_pos; [|nia|].
    2:{ apply Zdigits2_ge; [lia|]. change (2 ^ (53 - 1)) with (2 ^ 52). nia. }
    apply round_above; [nia| |done|].
    { apply Zdigits2_ge; [lia|]. change (2 ^ (53 - 1)) with (2 ^ 52). nia. }
    destruct (Z_lt_le_dec eL ez) as [?|Hge]; [by left|right]. split; [done|].
    assert (Zpos mL * 2 ^ (eL - ez) <= Zpos my * 2 ^ (ey - ez)); [|nia].
    replace (ey - ez) with ((ey - eL) + (eL - ez)) by lia.
    rewrite Z.pow_add_r by lia.
    pose proof (Z.pow_pos_nonneg 2 (eL - ez)). nia.
Qed.

Lemma SFadd_above x y mLx eLx mLy eLy mL eL :
  valid_binary x = true -> valid_binary y = true ->
  normal mLx eLx -> normal mLy eLy -> normal mL eL ->
  Z.min eLx eLy <= eL ->
  Zpos mL * 2 ^ (eL - Z.min eLx eLy) <=
    Zpos mLx * 2 ^ (eLx - Z.min eLx eLy) + Zpos mLy * 2 ^ (eLy - Z.min eLx eLy) ->
  above mLx eLx x -> above mLy eLy y ->
  above mL eL (SFadd prec emax x y).
Proof.
  intros Vx Vy NLx NLy NL Hk Hside [->|(mx & ex & -> & Hx)] [->|(my & ey & -> & Hy)];
    cbv beta iota zeta delta [SFadd cond_Zopp]; try by left.
  destruct (above_value _ _ _ _ NLx Vx Hx) as (Nx & Hex & Hvx).
  destruct (above_value _ _ _ _ NLy Vy Hy) as (Ny & Hey & Hvy).
  pose proof (normal_bounds _ _ Nx). pose proof (normal_bounds _ _ Ny).
  set (k := Z.min eLx eLy) in *.
  set (ez := Z.min ex ey).
  assert (k <= ez) by (unfold k, ez; lia).
  rewrite !shl_align_fst by (unfold ez; lia).
  assert (0 < 2 ^ (ex - ez)) by (apply Z.pow_pos_nonneg; unfold ez; lia).
  assert (0 < 2 ^ (ey - ez)) by (apply Z.pow_pos_nonneg; unfold ez; lia).
  rewrite binary_normalize_pos; [|nia|].
  2:{ apply Zdigits2_ge; [lia|]. change (2 ^ (53 - 1)) with (2 ^ 52). nia. }
  apply round_above; [nia| |done|].
  { apply Zdigits2_ge; [lia|]. change (2 ^ (53 - 1)) with (2 ^ 52). nia. }
  destruct (Z_lt_le_dec eL ez) as [?|Hge]; [by left|right]. split; [done|].
  (* scale everything to the exponent k *)
  assert (0 < 2 ^ (ez - k)) as Hp by (apply Z.pow_pos_nonneg; lia).
  apply (Z.mul_le_mono_pos_r _ _ (2 ^ (ez - k))); [done|].
  rewrite Z.mul_add_distr_r, <- !Z.mul_assoc, <- !Z.pow_add_r by (unfold ez; lia).
  replace (eL - ez + (ez - k)) with (eL - k) by lia.
  replace (ex - ez + (ez - k)) with ((ex - eLx) + (eLx - k)) by lia.
  replace (ey - ez + (ez - k)) with ((ey - eLy) + (eLy - k)) by lia.
  rewrite !Z.pow_add_r by (unfold k; lia).
  assert (0 < 2 ^ (eLx - k)) by (apply Z.pow_pos_nonneg; unfold k; lia).
  assert (0 < 2 ^ (eLy - k)) by (apply Z.pow_pos_nonneg; unfold k; lia).
  nia.
Qed.

(** ** Square roots *)

Lemma SFsqrt_core_spec mx ex :
  normal mx ex ->
  exists q e' l,
    SFsqrt_core_binary prec emax (Zpos mx) ex = (q, e', l) /\
    2 * e' <= ex - 52 /\
    q = Z.sqrt (Zpos mx * 2 ^ (ex - 2 * e')).
Proof.
  intros N. pose proof (normal_bounds _ _ N). destruct N as [Hd He].
  unfold SFsqrt_core_binary. cbn [Zdigits2]. rewrite Hd.
  set (e' := Z.min _ _).
  assert (2 * e' <= ex - 52 /\ 2 * e' <= ex) as [He1 He2].
  { unfold e', fexp, emin, prec, emax. rewrite !Z.div2_div.
    Z.to_euclidean_division_equations. lia. }
  set (m' := match ex - 2 * e' with Zpos _ => _ | Z0 => _ | Zneg _ => _ end).
  assert (m' = Zpos mx * 2 ^ (ex - 2 * e')) as Em.
  { unfold m'. destruct (ex - 2 * e') as [|p|p] eqn:E; [lia| |lia].
    rewrite Z.shiftl_mul_pow2 by lia. done. }
  pose proof (Z.sqrtrem_sqrt m') as Hq.
  destruct (Z.sqrtrem m') as [q r]. simpl in Hq.
  eexists q, e', _. split; [reflexivity|]. split; [done|]. by rewrite <- Em.
Qed.

Lemma SFsqrt_above x mLx eLx mL eL :
  valid_binary x = true ->
  normal mLx eLx -> normal mL eL ->
  2 * eL <= eLx ->
  Zpos mL * Zpos mL <= Zpos mLx * 2 ^ (eLx - 2 * eL) ->
  above mLx eLx x ->
  above mL eL (SFsqrt prec emax x).
Proof.
  intros Vx NLx NL Hle Hside [->|(mx & ex & -> & Hx)]; [by left|].
  destruct (above_value _ _ _ _ NLx Vx Hx) as (Nx & Hex & Hvx).
  pose proof (normal_bounds _ _ Nx). pose proof (normal_bounds _ _ NL).
  destruct (SFsqrt_core_spec mx ex Nx) as (q & e' & l & Ec & He' & Eq).
  cbn [SFsqrt]. rewrite Ec.
  set (s := ex - 2 * e') in *.
  assert (52 <= s) by (unfold s; lia).
  assert (2 ^ 52 * 2 ^ 52 <= Zpos mx * 2 ^ s) as Hm'.
  { assert (2 ^ 52 <= 2 ^ s) by (apply Z.pow_le_mono_r; lia). nia. }
  assert (2 ^ 52 <= q) as Hq.
  { rewrite Eq. apply Z.sqrt_le_square; [lia|lia|done]. }
  apply round_above; [lia| |done|].
  { apply Zdigits2_ge; [lia|]. exact Hq. }
  destruct (Z_lt_le_dec eL e') as [?|Hge]; [by left|right]. split; [done|].
  assert (0 < 2 ^ (eL - e')) by (apply Z.pow_pos_nonneg; lia).
  rewrite Eq. apply Z.sqrt_le_square; [lia|nia|].
  (* the square of the bound, scaled to the exponent 2 e' *)
  replace s with ((ex - eLx) + ((eLx - 2 * eL) + ((eL - e') + (eL - e'))))
    by (unfold s; lia).
  rewrite !Z.pow_add_r by lia.
  assert (0 < 2 ^ (eLx - 2 * eL)) by (apply Z.pow_pos_nonneg; lia).
  assert (0 < 2 ^ (ex - eLx)) by (apply Z.pow_pos_nonneg; lia).
  set (A := 2 ^ (ex - eLx)) in *. set (B := 2 ^ (eLx - 2 * eL)) in *.
  set (P := 2 ^ (eL - e')) in *.
  assert (Zpos mL * Zpos mL <= Zpos mx * A * B) as Hsq by nia.
  assert (Zpos mL * Zpos mL * (P * P) <= Zpos mx * A * B * (P * P)) as Hfin
    by (apply Z.mul_le_mono_nonneg_r; nia).
  lia.
Qed.

(** ** Signs *)

Lemma shr_fexp_nonneg m e l :
  0 <= m -> 0 <= shr_m (fst (shr_fexp prec emax m e l)).
Proof.
  intros Hm. unfold shr_fexp, shr.
  destruct (fexp prec emax (Zdigits2 m + e) - e) as [|p|p]; cbn [fst];
    rewrite ?iter_pos_shr_m, shr_record_of_loc_m;
    rewrite ?shr_record_of_loc_m; try lia.
  apply Z.div_pos; lia.
Qed.

Lemma binary_round_aux_nonneg mx ex lx :
  0 <= mx -> nonneg (binary_round_aux prec emax false mx ex lx).
Proof.
  intros Hm. unfold binary_round_aux.
  pose proof (shr_fexp_nonneg mx ex lx Hm) as H1.
  destruct (shr_fexp prec emax mx ex lx) as [mrs' e']. cbn [fst] in H1.
  pose proof (round_nearest_even_bounds (shr_m mrs') (loc_of_shr_record mrs')) as Hr.
  pose proof (shr_fexp_nonneg (round_nearest_even (shr_m mrs') (loc_of_shr_record mrs'))
                e' loc_Exact) as H2.
  destruct (shr_fexp prec emax _ e' loc_Exact) as [mrs'' e'']. cbn [fst] in H2.
  destruct (shr_m mrs'') as [|p|p]; [done| |lia].
  by destruct (e'' <=? emax - prec).
Qed.

(** The product of a positive finite float and a float that is not
    negative is not negative (and not NaN). *)
Lemma SFmul_nonneg_r mk ek y :
  nonneg y -> nonneg (SFmul prec emax (S754_finite false mk ek) y).
Proof.
  destruct y as [[]|[]| |[] my ey]; try done. intros _. cbn [SFmul xorb].
  apply binary_round_aux_nonneg. lia.
Qed.

Lemma SFmul_nonneg_l x mk ek :
  nonneg x -> nonneg (SFmul prec emax x (S754_finite false mk ek)).
Proof.
  destruct x as [[]|[]| |[] mx ex]; try done. intros _. cbn [SFmul xorb].
  apply binary_round_aux_nonneg. lia.
Qed.

Lemma above_refl m e : above m e (S754_finite false m e).
Proof. right. exists m, e. split; [done|]. right. lia. Qed.

Lemma above_weaken mL eL mL' eL' x :
  (eL' < eL \/ (eL' = eL /\ Zpos mL' <= Zpos mL)) ->
  above mL eL x -> above mL' eL' x.
Proof.
  intros Hw [->|(m & e & -> & Hx)]; [by left|].
  right. exists m, e. split; [done|]. lia.
Qed.

End FloatBounds.

(** * Bounds on float expressions

    The bounds of [FloatBounds] for the primitive operations, stated
    with float constants: each side condition is a boolean over the
    constants and is settled by evaluation. *)

Module FloatExpr.
Import FloatBounds.

(** The mantissa and exponent of a positive normal float. *)
Definition parts (L : float) : option (positive * Z) :=
  match Prim2SF L with
  | S754_finite false m e =>
      if (Zpos (digits2_pos m) =? 53) && (-1074 <=? e) && (e <=? 971)
      then Some (m, e) else None
  | _ => None
  end.

Lemma parts_Some L m e :
  parts L = Some (m, e) → Prim2SF L = S754_finite false m e ∧ normal m e.
Proof.
  unfold parts, normal.
  destruct (Prim2SF L) as [?|?| |[] m' e']; try done.
  destruct (_ && _) eqn:E; [|done]. intros [= -> ->].
  apply andb_prop in E as [[E1 E2]%andb_prop E3]. split; [done|]. lia.
Qed.

Lemma leb_above L x m e :
  Prim2SF L = S754_finite false m e →
  (L <=? x)%float = true ↔ above m e (Prim2SF x).
Proof.
  intros HL. rewrite FloatAxioms.leb_spec, HL. unfold SFleb, above.
  destruct (Prim2SF x) as [[]|[]| |[] m' e']; simpl;
    try (split; [done | by intros [?|(? & ? & ? & ?)]]).
  - split; [by left | done].
  - rewrite Pos.compare_cont_spec. simpl.
    destruct (Z.compare_spec e e') as [Ee|?|?].
    + destruct (Pos.compare_spec m m') as [Em|?|?].
      * split; [|done]. intros _. right. eexists _, _. split; [done|]. lia.
      * split; [|done]. intros _. right. eexists _, _. split; [done|]. lia.
      * split; [done|]. intros [?|(? & ? & [= <- <-] & ?)]; [done|lia].
    + split; [|done]. intros _. right. eexists _, _. split; [done|]. lia.
    + split; [done|]. intros [?|(? & ? & [= <- <-] & ?)]; [done|lia].
Qed.

Lemma below_leb U x m e :
  Prim2SF U = S754_finite false m e →
  below m e (Prim2SF x) → (x <=? U)%float = true.
Proof.
  intros HU (m' & e' & Hx & H). rewrite FloatAxioms.leb_spec, HU, Hx.
  unfold SFleb. simpl. rewrite Pos.compare_cont_spec. simpl.
  destruct (Z.compare_spec e' e) as [Ee|?|?]; [|done|lia].
  destruct (Pos.compare_spec m' m) as [Em|?|?]; [done..|lia].
Qed.

Lemma leb_below U x m e :
  Prim2SF U = S754_finite false m e →
  (x <=? U)%float = true →
  (∃ m' e', Prim2SF x = S754_finite false m' e') →
  below m e (Prim2SF x).
Proof.
  intros HU H (m' & e' & Hx). rewrite FloatAxioms.leb_spec, HU, Hx in H.
  unfold SFleb in H. simpl in H. rewrite Pos.compare_cont_spec in H. simpl in H.
  exists m', e'. split; [done|].
  destruct (Z.compare_spec e' e) as [Ee|?|?]; [|by left|done].
  destruct (Pos.compare_spec m' m) as [Em|?|?]; [right; lia..|done].
Qed.

Lemma leb_zero_nonneg w : (0 <=? w)%float = true → nonneg (Prim2SF w).
Proof.
  rewrite FloatAxioms.leb_spec. change (Prim2SF 0) with (S754_zero false).
  unfold SFleb. by destruct (Prim2SF w) as [[]|[]| |[] m e].
Qed.

Lemma nonneg_leb_zero w : nonneg (Prim2SF w) → (0 <=? w)%float = true.
Proof.
  rewrite FloatAxioms.leb_spec. change (Prim2SF 0) with (S754_zero false).
  unfold SFleb. by destruct (Prim2SF w) as [[]|[]| |[] m e].
Qed.

(** [k * w] and [w * k] for a positive constant [k] and [w >= 0]. *)
Lemma mul_nonneg_r k w m e :
  parts k = Some (m, e) →
  (0 <=? w)%float = true → (0 <=? k * w)%float = true.
Proof.
  intros [Hk _]%parts_Some Hw%leb_zero_nonneg. apply nonneg_leb_zero.
  rewrite FloatAxioms.mul_spec, Hk. by apply SFmul_nonneg_r.
Qed.

Lemma mul_nonneg_l k w m e :
  parts k = Some (m, e) →
  (0 <=? w)%float = true → (0 <=? w * k)%float = true.
Proof.
  intros [Hk _]%parts_Some Hw%leb_zero_nonneg. apply nonneg_leb_zero.
  rewrite FloatAxioms.mul_spec, Hk. by apply SFmul_nonneg_l.
Qed.

(** [L <= x] and [0 <= y] give [L <= x + y]. *)
Lemma add_above_l L x y m e :
  parts L = Some (m, e) →
  (L <=? x)%float = true → (0 <=? y)%float = true →
  (L <=? x + y)%float = true.
Proof.
  intros [HL N]%parts_Some Hx Hy%leb_zero_nonneg.
  apply (leb_above L _ m e HL) in Hx. apply (leb_above L _ m e HL).
  rewrite FloatAxioms.add_spec.
  apply SFadd_above_l; auto using Prim2SF_valid.
Qed.

(** [0 <= x] and [L <= y] give [L <= x + y]. *)
Lemma add_above_r L x y m e :
  parts L = Some (m, e) →
  (0 <=? x)%float = true → (L <=? y)%float = true →
  (L <=? x + y)%float = true.
Proof.
  intros [HL N]%parts_Some Hx%leb_zero_nonneg Hy.
  apply (leb_above L _ m e HL) in Hy. apply (leb_above L _ m e HL).
  rewrite FloatAxioms.add_spec.
  apply SFadd_above_r; auto using Prim2SF_valid.
Qed.

(** [Lx <= x] and [Ly <= y] give [L <= x + y] when [L <= Lx + Ly] in
    exact arithmetic. *)
Definition add_ok (Lx Ly L : float) : bool :=
  match parts Lx, parts Ly, parts L with
  | Some (mx, ex), Some (my, ey), Some (m, e) =>
      let k := Z.min ex ey in
      (k <=? e) &&
      (Zpos m * 2 ^ (e - k) <=? Zpos mx * 2 ^ (ex - k) + Zpos my * 2 ^ (ey - k))
  | _, _, _ => false
  end.

Lemma add_above Lx Ly L x y :
  add_ok Lx Ly L = true →
  (Lx <=? x)%float = true → (Ly <=? y)%float = true →
  (L <=? x + y)%float = true.
Proof.
  unfold add_ok.
  destruct (parts Lx) as [[mx ex]|] eqn:Px; [|done].
  destruct (parts Ly) as [[my ey]|] eqn:Py; [|done].
  destruct (parts L) as [[m e]|] eqn:P; [|done].
  apply parts_Some in Px as [Hx Nx], Py as [Hy Ny], P as [HL N].
  intros [H1%Z.leb_le H2%Z.leb_le]%andb_prop Ax Ay.
  apply (leb_above _ _ _ _ Hx) in Ax. apply (leb_above _ _ _ _ Hy) in Ay.
  apply (leb_above _ _ _ _ HL). rewrite FloatAxioms.add_spec.
  apply (SFadd_above _ _ mx ex my ey m e); auto using Prim2SF_valid.
Qed.

(** [Lx <= x] and [Ly <= y] give [L <= x * y] when [L <= Lx * Ly]. *)
Definition mul_ok (Lx Ly L : float) : bool :=
  match parts Lx, parts Ly, parts L with
  | Some (mx, ex), Some (my, ey), Some (m, e) =>
      (ex + ey <=? e) && (Zpos m * 2 ^ (e - ex - ey) <=? Zpos mx * Zpos my)
  | _, _, _ => false
  end.

Lemma mul_above Lx Ly L x y :
  mul_ok Lx Ly L = true →
  (Lx <=? x)%float = true → (Ly <=? y)%float = true →
  (L <=? x * y)%float = true.
Proof.
  unfold mul_ok.
  destruct (parts Lx) as [[mx ex]|] eqn:Px; [|done].
  destruct (parts Ly) as [[my ey]|] eqn:Py; [|done].
  destruct (parts L) as [[m e]|] eqn:P; [|done].
  apply parts_Some in Px as [Hx Nx], Py as [Hy Ny], P as [HL N].
  intros [H1%Z.leb_le H2%Z.leb_le]%andb_prop Ax Ay.
  apply (leb_above _ _ _ _ Hx) in Ax. apply (leb_above _ _ _ _ Hy) in Ay.
  apply (leb_above _ _ _ _ HL). rewrite FloatAxioms.mul_spec.
  apply (SFmul_above _ _ mx ex my ey m e); auto using Prim2SF_valid.
Qed.

(** [Lx <= x <= Ux] and [Ly <= y <= Uy] give [x * y <= U] when
    [Ux * Uy < U]. *)
Definition mul_below_ok (Lx Ly Ux Uy U : float) : bool :=
  match parts Lx, parts Ly, parts Ux, parts Uy, parts U with
  | Some (mlx, elx), Some (mly, ely), Some (mx, ex), Some (my, ey), Some (m, e) =>
      (-1126 <=? elx + ely) && (ex + ey <=? e) &&
      (Zpos mx * Zpos my <? Zpos m * 2 ^ (e - ex - ey))
  | _, _, _, _, _ => false
  end.

Lemma mul_below Lx Ly Ux Uy U x y :
  mul_below_ok Lx Ly Ux Uy U = true →
  (Lx <=? x)%float = true → (x <=? Ux)%float = true →
  (Ly <=? y)%float = true → (y <=? Uy)%float = true →
  (x * y <=? U)%float = true.
Proof.
  unfold mul_below_ok.
  destruct (parts Lx) as [[mlx elx]|] eqn:Plx; [|done].
  destruct (parts Ly) as [[mly ely]|] eqn:Ply; [|done].
  destruct (parts Ux) as [[mx ex]|] eqn:Px; [|done].
  destruct (parts Uy) as [[my ey]|] eqn:Py; [|done].
  destruct (parts U) as [[m e]|] eqn:P; [|done].
  apply parts_Some in Plx as [Hlx Nlx], Ply as [Hly Nly], Px as [Hx Nx],
    Py as [Hy Ny], P as [HU N].
  intros [[H0%Z.leb_le H1%Z.leb_le]%andb_prop H2%Z.ltb_lt]%andb_prop Ax Bx Ay By.
  apply (leb_above _ _ _ _ Hlx) in Ax. apply (leb_above _ _ _ _ Hly) in Ay.
  assert (below mx ex (Prim2SF x)) as Bx'.
  { apply (leb_below Ux); [done..|].
    destruct Ax as [E|(? & ? & ? & _)]; [|eauto].
    rewrite FloatAxioms.leb_spec, E, Hx in Bx. done. }
  assert (below my ey (Prim2SF y)) as By'.
  { apply (leb_below Uy); [done..|].
    destruct Ay as [E|(? & ? & ? & _)]; [|eauto].
    rewrite FloatAxioms.leb_spec, E, Hy in By. done. }
  apply (below_leb _ _ _ _ HU). rewrite FloatAxioms.mul_spec.
  apply (SFmul_below _ _ mlx elx mly ely mx ex my ey m e);
    auto using Prim2SF_valid.
Qed.

(** [Lx <= x] gives [L <= sqrt x] when [L * L <= Lx]. *)
Definition sqrt_ok (Lx L : float) : bool :=
  match parts Lx, parts L with
  | Some (mx, ex), Some (m, e) =>
      (2 * e <=? ex) && (Zpos m * Zpos m <=? Zpos mx * 2 ^ (ex - 2 * e))
  | _, _ => false
  end.

Lemma sqrt_above Lx L x :
  sqrt_ok Lx L = true →
  (Lx <=? x)%float = true → (L <=? sqrt x)%float = true.
Proof.
  unfold sqrt_ok.
  destruct (parts Lx) as [[mx ex]|] eqn:Px; [|done].
  destruct (parts L) as [[m e]|] eqn:P; [|done].
  apply parts_Some in Px as [Hx Nx], P as [HL N].
  intros [H1%Z.leb_le H2%Z.leb_le]%andb_prop Ax.
  apply (leb_above _ _ _ _ Hx) in Ax.
  apply (leb_above _ _ _ _ HL). rewrite FloatAxioms.sqrt_spec.
  apply (SFsqrt_above _ mx ex m e); auto using Prim2SF_valid.
Qed.

End FloatExpr.

(** * The emitted duration *)

Lemma round_half_even_ge n d k :
  0 < d → (2 * k - 1) * d < 2 * n → k ≤ Py.round_half_even n d.
Proof.
  intros Hd H. unfold Py.round_half_even.
  pose proof (Z.div_mod n d ltac:(lia)) as E.
  pose proof (Z.mod_pos_bound n d Hd) as B.
  destruct (Z.compare_spec (2 * (n mod d)) d); [destruct (Z.even _)|..]; nia.
Qed.

Lemma round_half_even_le n d k :
  0 < d → 2 * n < (2 * k + 1) * d → Py.round_half_even n d ≤ k.
Proof.
  intros Hd H. unfold Py.round_half_even.
  pose proof (Z.div_mod n d ltac:(lia)) as E.
  pose proof (Z.mod_pos_bound n d Hd) as B.
  destruct (Z.compare_spec (2 * (n mod d)) d); [destruct (Z.even _)|..]; nia.
Qed.

(** Rounding [x] in [[L, U]] to one decimal gives one of the tenths
    [lo .. hi], each of which reads back as a float that is at least
    [T]. *)
Definition round1_ok (L U T : float) (lo hi : Z) : bool :=
  match FloatExpr.parts L, FloatExpr.parts U with
  | Some (mL, eL), Some (mU, eU) =>
      (eU <? 0) &&
      ((2 * lo - 1) * 2 ^ (- eL) <? 20 * Zpos mL) &&
      (20 * Zpos mU <? (2 * hi + 1) * 2 ^ (- eU)) &&
      (0 <? lo) &&
      forallb (λ n, (T <=? Py.of_tenths false n)%float) (seqZ lo (hi - lo + 1))
  | _, _ => false
  end.

Lemma round1_above L U T lo hi x :
  round1_ok L U T lo hi = true →
  (L <=? x)%float = true → (x <=? U)%float = true →
  (T <=? Py.round1 x)%float = true.
Proof.
  unfold round1_ok.
  destruct (FloatExpr.parts L) as [[mL eL]|] eqn:PL; [|done].
  destruct (FloatExpr.parts U) as [[mU eU]|] eqn:PU; [|done].
  apply FloatExpr.parts_Some in PL as [HL NL], PU as [HU NU].
  intros [[[[HeU%Z.ltb_lt Hlo%Z.ltb_lt]%andb_prop Hhi%Z.ltb_lt]%andb_prop
    Hpos%Z.ltb_lt]%andb_prop Hall]%andb_prop Hx Hx'.
  apply (FloatExpr.leb_above _ _ _ _ HL) in Hx.
  assert (∃ m e, Prim2SF x = S754_finite false m e) as (m & e & Ex).
  { destruct Hx as [E|(? & ? & ? & _)]; [|eauto].
    rewrite FloatAxioms.leb_spec, E, HU in Hx'. done. }
  apply (FloatExpr.leb_below _ _ _ _ HU) in Hx'; [|eauto].
  rewrite Ex in Hx, Hx'.
  destruct Hx as [?|(? & ? & [= <- <-] & Hx)]; [done|].
  destruct Hx' as (? & ? & [= <- <-] & Hx').
  pose proof (Prim2SF_valid x) as V. rewrite Ex in V. simpl in V.
  destruct (FloatBounds.above_value _ _ _ _ NL V Hx) as (N & Hle & Hv).
  destruct (FloatBounds.below_value _ _ _ _ NU V Hx') as (Hle' & Hv').
  unfold Py.round1. rewrite Ex.
  rewrite forallb_forall in Hall. apply Hall, list_elem_of_In, elem_of_seqZ.
  destruct e as [|k|k]; [lia..|]. unfold Py.tenths.
  assert (0 < 2 ^ Zpos k) by (apply Z.pow_pos_nonneg; lia).
  assert (0 < 2 ^ (Zneg k - eL)) by (apply Z.pow_pos_nonneg; lia).
  assert (0 < 2 ^ (eU - Zneg k)) by (apply Z.pow_pos_nonneg; lia).
  assert (2 ^ (- eL) = 2 ^ Zpos k * 2 ^ (Zneg k - eL)) as E1.
  { rewrite <- Z.pow_add_r by lia. f_equal. lia. }
  assert (2 ^ Zpos k = 2 ^ (- eU) * 2 ^ (eU - Zneg k)) as E2.
  { rewrite <- Z.pow_add_r by lia. f_equal. lia. }
  assert (0 < 2 ^ (- eU)) by (apply Z.pow_pos_nonneg; lia).
  split.
  - apply round_half_even_ge; [done|].
    apply (Z.mul_lt_mono_pos_r (2 ^ (Zneg k - eL))); [done|].
    rewrite E1 in Hlo. nia.
  - assert (Py.round_half_even (Zpos m * 10) (2 ^ Zpos k) ≤ hi); [|lia].
    apply round_half_even_le; [done|]. rewrite E2. nia.
Qed.

(** The green duration for a phase with a non-negative waiting count,
    under the durations [__init__] sets: at least [8.7] before the decay
    of long phases, between [7.8] and [70] after it. *)
Lemma capacity_at_least_100 w :
  (0 <=? w)%float = true →
  (100.0 <=? Py.max 10.0 (100.0 + w * 1.5))%float = true.
Proof.
  intros Hw.
  assert ((100.0 <=? 100.0 + w * 1.5)%float = true) as H.
  { eapply FloatExpr.add_above_l; [reflexivity|reflexivity|].
    eapply FloatExpr.mul_nonneg_l; [reflexivity|done]. }
  unfold Py.max.
  by rewrite (FloatOrder.ltb_leb_trans 10.0 100.0 _ eq_refl H).
Qed.

Lemma undecayed_duration_bounds w :
  (0 <=? w)%float = true →
  let duration :=
    (7.0 + 0.27 * w + 0.17 * Py.pow_half (Py.max 10.0 (100.0 + w * 1.5)))%float in
  let clamped := Py.max 7.0 (Py.min 70.0 duration) in
  (8.7 <=? clamped)%float = true ∧ (clamped <=? 70.0)%float = true.
Proof.
  intros Hw duration clamped.
  assert ((8.7 <=? duration)%float = true) as Hd.
  { unfold duration, Py.pow_half.
    apply (FloatExpr.add_above 7.0 1.7 8.7); [reflexivity| |].
    - eapply FloatExpr.add_above_l; [reflexivity|reflexivity|].
      eapply FloatExpr.mul_nonneg_r; [reflexivity|done].
    - apply (FloatExpr.mul_above 0.17 10.0 1.7); [reflexivity|reflexivity|].
      apply (FloatExpr.sqrt_above 100.0 10.0); [reflexivity|].
      by apply capacity_at_least_100. }
  assert ((8.7 <=? Py.min 70.0 duration)%float = true ∧
          (Py.min 70.0 duration <=? 70.0)%float = true) as [Hm Hm'].
  { unfold Py.min. destruct (duration <? 70.0)%float eqn:E.
    - split; [done|]. by apply FloatOrder.ltb_leb.
    - split; reflexivity. }
  unfold clamped, Py.max.
  by rewrite (FloatOrder.ltb_leb_trans 7.0 8.7 _ eq_refl Hm).
Qed.

Lemma green_duration_bounds c obs tls_id phase tip :
  min_green_duration c = 7.0%float →
  max_green_duration c = 70.0%float →
  (0 <=? _calculate_waiting_traffic obs tls_id phase)%float = true →
  (7.8 <=? green_duration c obs tls_id phase tip)%float = true ∧
  (green_duration c obs tls_id phase tip <=? 70.0)%float = true.
Proof.
  intros Hmin Hmax Hw. unfold green_duration, _estimate_phase_capacity.
  rewrite Hmin, Hmax.
  destruct (undecayed_duration_bounds _ Hw) as [Hl Hu].
  cbv zeta in Hl, Hu.
  set (d := Py.max 7.0 _) in *.
  destruct (60 <? tip)%float.
  - split.
    + apply (FloatExpr.mul_above 8.7 0.9 7.8); [reflexivity|done|reflexivity].
    + apply (FloatExpr.mul_below 8.7 0.9 70.0 0.9 70.0);
        [reflexivity|done|done|reflexivity|reflexivity].
  - split; [|done].
    by apply (FloatOrder.leb_trans 7.8 8.7 d eq_refl).
Qed.

(** Every waiting count the controller reads is zero or more. *)
Definition nonneg_waiting (obs : Observation) : Prop :=
  ∀ tls_id phase,
    (0 <=? _calculate_waiting_traffic obs tls_id phase)%float = true.

Lemma nonneg_counts_waiting obs :
  (∀ tls_id counts phase w,
     default ∅ (waiting_vehicles obs) !! tls_id = Some counts →
     counts !! phase = Some w → (0 <=? w)%float = true) →
  nonneg_waiting obs.
Proof.
  intros H tls p. unfold _calculate_waiting_traffic.
  destruct (default ∅ (waiting_vehicles obs) !! tls) as [counts|] eqn:E;
    simpl; [|done].
  destruct (counts !! p) as [w|] eqn:Ew; simpl; [|done]. eauto.
Qed.

Lemma observe_nonneg_waiting li waiting :
  Forall (λ pw, (0 <=? pw.2)%float = true) waiting →
  nonneg_waiting (observe li waiting).
Proof.
  intros Hall tls p. unfold _calculate_waiting_traffic, observe. simpl.
  destruct (decide (tls = "A")) as [->|Hne].
  - rewrite lookup_singleton_eq. simpl.
    destruct (list_to_map waiting !! p) as [w|] eqn:E; [|done]. simpl.
    apply elem_of_list_to_map_2 in E.
    by apply (proj1 (Forall_forall _ _) Hall (p, w)).
  - by rewrite lookup_singleton_ne.
Qed.

Lemma action_for_duration c obs tls_id a :
  action_for c obs tls_id = Ok (Some a) →
  ∃ tip, duration a =
    Py.round1 (green_duration c obs tls_id (phase_id a) tip).
Proof.
  unfold action_for.
  destruct (default ∅ (lights obs) !! tls_id) as [li|]; [|done].
  destruct (falsy li); [done|]. destruct (0.5 <? _)%float; [done|].
  destruct (select_phase _ _ _ _ _) as [best|]; simpl; [|done].
  intros [= <-]. simpl. eauto.
Qed.

Lemma emitted_duration_at_least c obs tls_id a :
  min_green_duration c = 7.0%float →
  max_green_duration c = 70.0%float →
  nonneg_waiting obs →
  action_for c obs tls_id = Ok (Some a) →
  (7.8 <=? duration a)%float = true.
Proof.
  intros Hmin Hmax Hw [tip ->]%action_for_duration.
  destruct (green_duration_bounds c obs tls_id (phase_id a) tip Hmin Hmax (Hw _ _))
    as [Hl Hu].
  apply (round1_above 7.8 70.0 7.8 78 700); [by vm_compute|done..].
Qed.

(** C3 (as amended).  With waiting counts that are not negative, a call
    on a controller with the durations of [__init__] returns, and every
    duration it emits is at least [7.8], so never below [min_green]:
    before the decay the clamped duration is at least [8.7], above
    [min_green / 0.9], and the window in which the decay would take a
    duration under [min_green] is not reached. *)
Theorem duration_at_least_min_green c obs :
  wf c → no_zero_division obs →
  min_green_duration c = 7.0%float →
  max_green_duration c = 70.0%float →
  nonneg_waiting obs →
  ∃ c' d,
    decide_next_phase c obs = Ok (c', d) ∧
    ∀ tls_id a, entry d tls_id = Some a →
      (7.8 <=? duration a)%float = true ∧
      (duration a <? min_green_duration c)%float = false.
Proof.
  intros W Hz Hmin Hmax Hw.
  destruct (decide_next_phase_returns c obs W Hz) as [[c' d] E].
  exists c', d. split; [done|]. intros tls a Ha.
  pose proof (decide_next_phase_entry _ _ _ _ E) as [_ He].
  rewrite He in Ha. destruct (decide (tls ∈ tls_ids c)); [|done].
  unfold decided in Ha.
  destruct (action_for c obs tls) as [[a'|]|] eqn:Ea; try done.
  injection Ha as ->.
  pose proof (emitted_duration_at_least c obs tls a Hmin Hmax Hw Ea) as Hd.
  split; [done|]. rewrite Hmin.
  apply FloatOrder.leb_ltb_false.
  by apply (FloatOrder.leb_trans 7.0 7.8 _ eq_refl).
Qed.

(** A phase that has run for [61] seconds with nothing waiting: the
    clamped duration [8.7] decays to [7.83]. *)
Definition long_phase : Observation := observe (light 0 (Some 0) 61) [].

Definition demo_after_0 : ParticipantController :=
  {| tls_ids := ["A"];
     min_green_duration := 7.0;
     max_green_duration := 70.0;
     green_phases := {[ "A" := [0; 2] ]};
     cursor := {[ "A" := 0 ]};
     last_phase_actions := {[ "A" := {[ 0 := 1 ]} ]} |}.

Lemma duration_at_least_min_green_long_phase :
  ∃ c' d,
    decide_next_phase demo long_phase = Ok (c', d) ∧
    ∀ tls_id a, entry d tls_id = Some a →
      (7.8 <=? duration a)%float = true ∧
      (duration a <? min_green_duration demo)%float = false.
Proof.
  apply (duration_at_least_min_green demo long_phase).
  - exact demo_wf.
  - apply observe_no_zero_division. reflexivity.
  - reflexivity.
  - reflexivity.
  - apply observe_nonneg_waiting. constructor.
Defined.

Example long_phase_decision :
  decide_next_phase demo long_phase =
    Ok (demo_after_0, Some {[ "A" := {| phase_id := 0; duration := 7.8 |} ]}).
Proof. vm_compute. reflexivity. Qed.

(** Only a negative waiting count takes the duration under [min_green]:
    with [-10] waiting the clamp yields [7.0] and the decay [6.3]. *)
Example negative_waiting_decision :
  decide_next_phase demo (observe (light 0 (Some 0) 61) [(0, (-10)%float)]) =
    Ok (demo_after_0, Some {[ "A" := {| phase_id := 0; duration := 6.3 |} ]}).
Proof. vm_compute. reflexivity. Qed.

(** No call on non-negative waiting counts emits a duration below
    [min_green = 7.0], whatever [time_in_phase] is. *)
Lemma no_duration_below_min_green :
  ¬ ∃ c obs c' d tls_id li a,
      min_green_duration c = 7.0%float ∧
      max_green_duration c = 70.0%float ∧
      nonneg_waiting obs ∧
      default ∅ (lights obs) !! tls_id = Some li ∧
      (60 <? default 0%float (time_in_phase li))%float = true ∧
      decide_next_phase c obs = Ok (c', d) ∧
      entry d tls_id = Some a ∧
      (duration a <? 7.0)%float = true.
Proof.
  intros (c & obs & c' & d & tls & li & a & Hmin & Hmax & Hw & _ & _ & E & Ha & Hlt).
  pose proof (decide_next_phase_entry _ _ _ _ E) as [_ He].
  rewrite He in Ha. destruct (decide (tls ∈ tls_ids c)); [|done].
  unfold decided in Ha.
  destruct (action_for c obs tls) as [[a'|]|] eqn:Ea; try done.
  injection Ha as ->.
  pose proof (emitted_duration_at_least c obs tls a Hmin Hmax Hw Ea) as Hd.
  apply FloatOrder.leb_ltb_false in Hd.
  by rewrite (FloatOrder.ltb_leb_trans _ 7.0 7.8 Hlt eq_refl) in Hd.
Qed.

(** * Observations of the data model

    The model of observations says that [time_to_next_switch] and
    [time_in_phase] are non-negative floats.  Such an observation meets
    the two side conditions used above: no switch penalty divides by
    zero, and every [time_to_next_switch] is a number. *)

Definition nonneg_times (obs : Observation) : Prop :=
  ∀ tls_id light_info,
    default ∅ (lights obs) !! tls_id = Some light_info →
    (0 <=? default 0 (time_to_next_switch light_info))%float = true ∧
    (0 <=? default 0 (time_in_phase light_info))%float = true.

Lemma nonneg_times_no_zero_division obs :
  nonneg_times obs → no_zero_division obs.
Proof.
  intros H tls li El. destruct (H tls li El) as [_ Ht].
  pose proof (FloatExpr.add_above_r 1.0 _ 1.0 _ _ eq_refl Ht eq_refl) as H1.
  pose proof (FloatOrder.ltb_leb_trans 0 1.0 _ eq_refl H1) as H0.
  destruct (_ =? 0)%float eqn:E; [|done].
  apply FloatOrder.eqb_leb, FloatOrder.leb_ltb_false in E. congruence.
Qed.

Lemma nonneg_times_timed obs : nonneg_times obs → timed obs.
Proof.
  intros H tls li El. destruct (H tls li El) as [Ht _].
  by destruct (FloatOrder.leb_not_nan _ _ Ht).
Qed.


(** * Further properties of the controller *)

(** ** What [__init__] builds *)

(** The [RuntimeError] names the first intersection, in the order of
    [tls_ids], whose catalog has no green phase. *)
Lemma init_phases_first cat ids : ∀ gp cur tls_id,
  init_phases cat ids gp cur = Raise (RuntimeError tls_id) →
  ∃ before after, ids = before ++ tls_id :: after ∧
    Forall (λ t, green_indices (cat t) ≠ []) before ∧
    green_indices (cat tls_id) = [].
Proof.
  induction ids as [|t ids IH]; intros gp cur tls; simpl; [done|].
  destruct (green_indices (cat t)) as [|i l] eqn:E.
  - intros [= <-]. exists [], ids. by split_and!.
  - intros (before & after & -> & Hb & Hn)%IH.
    exists (t :: before), after. split_and!; [done| |done].
    constructor; [by rewrite E | done].
Qed.

(** X1.  A constructed controller holds the identifiers it was given,
    the durations [7.0] and [70.0], and for each of its intersections the
    green phases of the catalog: every index of a green catalog phase and
    no other, as often as the catalog lists it, in ascending order and
    at least one; its cursor is [0] and its counter map is empty.  An
    identifier that is not among [tls_ids] has no entry in any of the
    three dictionaries. *)
Theorem init_controller ids cat c :
  __init__ ids cat = Ok c →
  tls_ids c = ids ∧
  min_green_duration c = 7.0%float ∧
  max_green_duration c = 70.0%float ∧
  (∀ tls_id, tls_id ∈ ids →
     ∃ ps, green_phases c !! tls_id = Some ps ∧
       ps ≠ [] ∧
       ps ≡ₚ green_indices (cat tls_id) ∧
       StronglySorted Z.le ps ∧
       (∀ i, i ∈ ps ↔
          ∃ ph, ph ∈ cat tls_id ∧ index ph = i ∧ green_state (state ph)) ∧
       cursor c !! tls_id = Some 0 ∧
       last_phase_actions c !! tls_id = Some ∅) ∧
  (∀ tls_id, tls_id ∉ ids →
     green_phases c !! tls_id = None ∧
     cursor c !! tls_id = None ∧
     last_phase_actions c !! tls_id = None).
Proof.
  unfold __init__.
  destruct (init_phases cat ids ∅ ∅) as [[gp cur]|] eqn:E; simpl; [|done].
  intros [= <-]. simpl. split_and!; [done..| |].
  - apply init_phases_Ok in E as (Hne & Hgp & Hcur). intros tls Hin.
    exists (merge_sort Z.le (green_indices (cat tls))).
    rewrite Hgp, Hcur, init_actions_lookup, !decide_True by done.
    pose proof (merge_sort_Permutation Z.le (green_indices (cat tls))) as P.
    split_and!; [done| |done| | |done..].
    + intros En. rewrite En in P. symmetry in P.
      apply Permutation_nil_r in P. by apply (Hne tls).
    + apply StronglySorted_merge_sort; apply _.
    + intros i. by rewrite P, elem_of_green_indices.
  - apply init_phases_Ok in E as (_ & Hgp & Hcur). intros tls Hin.
    by rewrite Hgp, Hcur, init_actions_lookup, !decide_False, !lookup_empty.
Qed.

Lemma init_controller_demo :
  tls_ids demo = ["A"] ∧
  min_green_duration demo = 7.0%float ∧
  max_green_duration demo = 70.0%float ∧
  (∀ tls_id, tls_id ∈ ["A"] →
     ∃ ps, green_phases demo !! tls_id = Some ps ∧
       ps ≠ [] ∧
       ps ≡ₚ green_indices (demo_catalog tls_id) ∧
       StronglySorted Z.le ps ∧
       (∀ i, i ∈ ps ↔
          ∃ ph, ph ∈ demo_catalog tls_id ∧ index ph = i ∧
            green_state (state ph)) ∧
       cursor demo !! tls_id = Some 0 ∧
       last_phase_actions demo !! tls_id = Some ∅) ∧
  (∀ tls_id, tls_id ∉ ["A"] →
     green_phases demo !! tls_id = None ∧
     cursor demo !! tls_id = None ∧
     last_phase_actions demo !! tls_id = None).
Proof. apply (init_controller ["A"] demo_catalog demo). reflexivity. Defined.

(** X2.  When construction fails, the [RuntimeError] names the first
    intersection, in the order of [tls_ids], whose catalog has no green
    phase: every intersection before it has one. *)
Theorem init_error_names_first ids cat e :
  __init__ ids cat = Raise e →
  ∃ before tls_id after,
    e = RuntimeError tls_id ∧
    ids = before ++ tls_id :: after ∧
    (∀ t, t ∈ before → ∃ ph, ph ∈ cat t ∧ green_state (state ph)) ∧
    (∀ ph, ph ∈ cat tls_id → ¬ green_state (state ph)).
Proof.
  unfold __init__.
  destruct (init_phases cat ids ∅ ∅) as [[gp cur]|e'] eqn:E; [done|].
  simpl. intros [= <-].
  destruct (init_phases_Raise _ _ _ _ _ E) as (tls & _ & _ & ->).
  apply init_phases_first in E as (before & after & -> & Hb & Hn).
  exists before, tls, after. split_and!; [done..| |].
  - intros t Ht. rewrite Forall_forall in Hb. specialize (Hb t Ht).
    destruct (green_indices (cat t)) as [|i l] eqn:Eg; [done|].
    assert (i ∈ green_indices (cat t)) as Hi by (rewrite Eg; left).
    apply elem_of_green_indices in Hi as (ph & ? & _ & ?). eauto.
  - by apply green_indices_nil.
Qed.

(** Two intersections, the second without a green phase. *)
Definition red_catalog (tls_id : string) : list Phase :=
  if bool_decide (tls_id = "B")
  then [ {| index := 0; state := "rrrr" |}; {| index := 1; state := "yGyG" |} ]
  else demo_catalog tls_id.

Lemma init_error_names_first_red :
  ∃ before tls_id after,
    RuntimeError "B" = RuntimeError tls_id ∧
    ["A"; "B"; "C"] = before ++ tls_id :: after ∧
    (∀ t, t ∈ before → ∃ ph, ph ∈ red_catalog t ∧ green_state (state ph)) ∧
    (∀ ph, ph ∈ red_catalog tls_id → ¬ green_state (state ph)).
Proof.
  apply (init_error_names_first ["A"; "B"; "C"] red_catalog).
  vm_compute. reflexivity.
Defined.

(** * Rounding near zero

    Below the normal range a product is rounded at the fixed exponent
    [-1074].  [FloatBounds] bounds results in the normal range; here the
    same is done for the smallest floats, which is what it takes to know
    that an efficiency is positive as soon as anything waits, and that
    [0.85 * e] never exceeds [e]. *)

Module FloatSmall.
Import FloatBounds.

Lemma Zdigits2_le m k : 0 < m -> m < 2 ^ k -> Zdigits2 m <= k.
Proof.
  intros Hm Hk. pose proof (Zdigits2_bounds m Hm) as [Hl _].
  pose proof (Zdigits2_pos m Hm).
  destruct (Z_lt_le_dec k (Zdigits2 m)) as [Hlt|?]; [|done].
  assert (2 ^ k <= 2 ^ (Zdigits2 m - 1)); [|lia].
  destruct (Z_lt_le_dec k 0); [rewrite (Z.pow_neg_r 2 k) in Hk by done; lia|].
  apply Z.pow_le_mono_r; lia.
Qed.

Lemma shr_fexp_low m e l :
  0 <= m -> Zdigits2 m + e - 53 <= -1074 -> e <= -1074 ->
  snd (shr_fexp prec emax m e l) = -1074 /\
  shr_m (fst (shr_fexp prec emax m e l)) = m / 2 ^ (-1074 - e).
Proof.
  intros Hm Hd He. unfold shr_fexp.
  replace (fexp prec emax (Zdigits2 m + e)) with (-1074)
    by (unfold fexp, emin, prec, emax; lia).
  destruct (shr_spec (shr_record_of_loc m l) e (-1074 - e)) as [H1 H2];
    [rewrite shr_record_of_loc_m; lia | lia |].
  rewrite H1, H2, shr_record_of_loc_m. split; [lia|done].
Qed.

(** Rounding a positive number under the normal range: the result has
    the exponent [-1074], and its mantissa is the truncated mantissa or
    its successor. *)
Lemma binary_round_aux_low mx ex lx :
  0 < mx -> ex <= -1074 -> Zdigits2 mx + ex - 53 < -1074 ->
  exists m,
    mx / 2 ^ (-1074 - ex) <= m <= mx / 2 ^ (-1074 - ex) + 1 /\
    binary_round_aux prec emax false mx ex lx =
      match m with
      | Zpos p => S754_finite false p (-1074)
      | _ => S754_zero false
      end.
Proof.
  intros Hm He Hd. unfold binary_round_aux.
  pose proof (shr_fexp_low mx ex lx) as [Hs1 Hs2]; [lia..|].
  destruct (shr_fexp prec emax mx ex lx) as [mrs' e'] eqn:E1.
  simpl in Hs1, Hs2. subst e'.
  set (n := -1074 - ex) in *. set (m1 := mx / 2 ^ n) in *.
  assert (0 < 2 ^ n) as Hn by (apply Z.pow_pos_nonneg; unfold n; lia).
  assert (0 <= m1 < 2 ^ 52) as Hm1.
  { pose proof (Zdigits2_bounds mx Hm) as [_ Hu]. split.
    - apply Z.div_pos; lia.
    - apply Z.div_lt_upper_bound; [done|].
      eapply Z.lt_le_trans; [exact Hu|].
      rewrite <- Z.pow_add_r by (unfold n; lia).
      apply Z.pow_le_mono_r; unfold n; lia. }
  pose proof (round_nearest_even_bounds (shr_m mrs') (loc_of_shr_record mrs'))
    as Hr.
  set (m2 := round_nearest_even (shr_m mrs') (loc_of_shr_record mrs')) in *.
  rewrite Hs2 in Hr.
  assert (Zdigits2 m2 <= 53) as Hd2.
  { destruct (Z.eq_dec m2 0) as [->|?]; [simpl; lia|].
    apply Zdigits2_le; [lia|]. change (2 ^ 53) with (2 * 2 ^ 52). lia. }
  pose proof (shr_fexp_low m2 (-1074) loc_Exact) as [Ht1 Ht2]; [lia..|].
  destruct (shr_fexp prec emax m2 (-1074) loc_Exact) as [mrs'' e''] eqn:E3.
  simpl in Ht1, Ht2. rewrite Ht2.
  change (-1074 - -1074) with 0. rewrite Z.pow_0_r, Z.div_1_r.
  exists m2. split; [lia|]. subst e''.
  by destruct m2 as [|p|p]; [|  |lia].
Qed.

(** ** Bounds in units of the smallest float

    [at_least k x]: [x] is [+infinity], or positive and at least [k]
    times [2^-1074]. *)
Definition at_least (k : Z) (x : spec_float) : Prop :=
  x = S754_infinity false \/
  exists m e, x = S754_finite false m e /\
    -1074 <= e /\ k <= Zpos m * 2 ^ (e + 1074).

Lemma round_at_least mx ex lx k :
  0 < mx -> 53 <= Zdigits2 mx -> 1 <= k <= 2 ^ 52 ->
  (ex <= -1074 -> k * 2 ^ (-1074 - ex) <= mx) ->
  at_least k (binary_round_aux prec emax false mx ex lx).
Proof.
  intros Hm Hd Hk Hv.
  destruct (Z_lt_le_dec (Zdigits2 mx + ex - 53) (-1074)) as [Hlow|Hnorm].
  - assert (ex <= -1074) as He by lia.
    destruct (binary_round_aux_low mx ex lx Hm He Hlow) as (m & Hmm & ->).
    assert (0 < 2 ^ (-1074 - ex)) by (apply Z.pow_pos_nonneg; lia).
    assert (k <= mx / 2 ^ (-1074 - ex)).
    { apply Z.div_le_lower_bound; [done|]. specialize (Hv He). lia. }
    destruct m as [|p|p]; [lia| |lia]. right. exists p, (-1074).
    split_and!; [done|lia|]. change (-1074 + 1074) with 0. lia.
  - destruct (binary_round_aux_normal mx ex lx Hm Hd Hnorm)
      as (m & e & -> & Hm1 & Hc).
    unfold finite_or_inf. destruct (e <=? 971); [|by left].
    right. exists m, e.
    assert (-1074 <= e /\ 2 ^ 52 <= Zpos m) as [He Hm2]
      by (destruct Hc as [(-> & ? & _)|(-> & ? & _)]; lia).
    split_and!; [done..|].
    assert (1 <= 2 ^ (e + 1074)); [|nia].
    pose proof (Z.pow_pos_nonneg 2 (e + 1074)). lia.
Qed.

Lemma SFmul_comm x y : SFmul prec emax x y = SFmul prec emax y x.
Proof.
  destruct x as [sx|sx| |sx mx ex], y as [sy|sy| |sy my ey]; simpl;
    try done; rewrite ?(xorb_comm sx sy); try done.
  by rewrite Pos.mul_comm, Z.add_comm.
Qed.

(** The product of [x], at least [kx] units, and [y], at least the
    normal float of [mL] and [eL], is at least [k] units when
    [k <= kx * mL * 2^eL]. *)
Lemma SFmul_at_least x y kx mL eL k :
  valid_binary y = true -> normal mL eL -> eL <= 0 ->
  1 <= k <= 2 ^ 52 ->
  k * 2 ^ (- eL) <= kx * Zpos mL ->
  at_least kx x -> above mL eL y ->
  at_least k (SFmul prec emax x y).
Proof.
  intros Vy NL HeL Hk Hside [->|(mx & ex & -> & Hex & Hx)]
    [->|(my & ey & -> & Hy)]; simpl; try by left.
  destruct (above_value _ _ _ _ NL Vy Hy) as (Ny & Hey & Hvy).
  pose proof (normal_bounds _ _ Ny).
  rewrite Pos2Z.inj_mul. apply round_at_least; [lia| |done|].
  - apply Zdigits2_ge; [lia|]. change (2 ^ (53 - 1)) with (2 ^ 52). nia.
  - intros HE.
    set (a := ex + 1074) in *. set (b := ey - eL) in *.
    set (n := -1074 - (ex + ey)) in *.
    assert (0 <= a) by (unfold a; lia). assert (0 <= b) by (unfold b; lia).
    assert (0 <= n) by (unfold n; lia).
    replace (- eL) with (n + (a + b)) in Hside by (unfold a, b, n; lia).
    rewrite !Z.pow_add_r in Hside by lia.
    pose proof (Z.pow_pos_nonneg 2 a). pose proof (Z.pow_pos_nonneg 2 b).
    pose proof (Z.pow_pos_nonneg 2 n).
    assert (k * 2 ^ n * (2 ^ a * 2 ^ b) <= Zpos mx * Zpos my * (2 ^ a * 2 ^ b))
      as Hprod by nia.
    apply Z.mul_le_mono_pos_r in Hprod; nia.
Qed.

(** A float that is not below one of at least [k] units has as many. *)
Lemma at_least_mono k x y :
  valid_binary x = true -> valid_binary y = true ->
  SFleb x y = true -> at_least k x -> at_least k y.
Proof.
  intros Vx Vy Hle [->|(mx & ex & -> & Hex & Hx)].
  { destruct y as [[]|[]| |[] my ey]; try done. by left. }
  destruct y as [[]|[]| |[] my ey]; try done; [by left|].
  right. exists my, ey.
  pose proof (bounded_digits _ _ Vx) as (Hdx & _ & _).
  pose proof (bounded_digits _ _ Vy) as (Hdy & Hey & Hny).
  pose proof (digits2_pos_bounds mx) as [_ Hux].
  pose proof (digits2_pos_bounds my) as [Hly _].
  unfold SFleb in Hle. simpl in Hle.
  destruct (Z.compare_spec ex ey) as [Ee|Hlt|Hgt]; [| |done].
  - subst ey. rewrite Pos.compare_cont_spec in Hle. simpl in Hle.
    assert (Zpos mx <= Zpos my)
      by (destruct (Pos.compare_spec mx my); [lia|lia|done]).
    split_and!; [done..|].
    pose proof (Z.pow_pos_nonneg 2 (ex + 1074)). nia.
  - split_and!; [done|lia|].
    rewrite (Hny ltac:(lia)) in Hly. change (2 ^ (53 - 1)) with (2 ^ 52) in Hly.
    assert (Zpos mx < 2 ^ 53).
    { eapply Z.lt_le_trans; [exact Hux|]. apply Z.pow_le_mono_r; lia. }
    replace (ey + 1074) with ((ey - ex - 1) + 1 + (ex + 1074)) by lia.
    rewrite !Z.pow_add_r by lia. change (2 ^ 1) with 2.
    assert (0 < 2 ^ (ex + 1074)) by (apply Z.pow_pos_nonneg; lia).
    assert (0 < 2 ^ (ey - ex - 1)) by (apply Z.pow_pos_nonneg; lia).
    set (A := 2 ^ (ex + 1074)) in *. set (B := 2 ^ (ey - ex - 1)) in *.
    change (2 ^ 53) with (2 * 2 ^ 52) in *.
    assert (Zpos mx * A <= 2 * Zpos my * A) by nia.
    assert (2 * Zpos my * A <= Zpos my * (B * 2 * A)) by nia.
    lia.
Qed.

(** ** A factor below one

    The product with a normal float below [1], of exponent [-53], never
    exceeds the other factor. *)
Lemma SFmul_le_self mk my ey :
  normal mk (-53) -> bounded prec emax my ey = true ->
  let r := SFmul prec emax (S754_finite false mk (-53)) (S754_finite false my ey) in
  r = S754_zero false \/ below my ey r.
Proof.
  intros Nk Vy. simpl. rewrite Pos2Z.inj_mul.
  pose proof (normal_bounds _ _ Nk) as Hk.
  pose proof (bounded_digits _ _ Vy) as (Hdy & Hey & Hny).
  pose proof (digits2_pos_bounds my) as [Hly Huy].
  set (M := Zpos mk * Zpos my). set (E := -53 + ey).
  assert (0 < M) as HM by (unfold M; lia).
  assert (53 <= Zdigits2 M) as HdM.
  { apply Zdigits2_ge; [lia|]. change (2 ^ (53 - 1)) with (2 ^ 52).
    unfold M. nia. }
  assert (M < Zpos my * 2 ^ 53) as Hlt by (unfold M; nia).
  destruct (Z_lt_le_dec (Zdigits2 M + E - 53) (-1074)) as [Hlow|Hnorm].
  - destruct (binary_round_aux_low M E loc_Exact HM) as (m & Hmm & ->);
      [unfold E in *; lia | done |].
    destruct m as [|p|p]; [by left| |by left]. right.
    exists p, (-1074). split; [done|].
    destruct (Z.eq_dec ey (-1074)) as [->|?]; [right|left; lia].
    split; [done|].
    assert (M / 2 ^ (-1074 - E) < Zpos my); [|lia].
    apply Z.div_lt_upper_bound; [by apply Z.pow_pos_nonneg|].
    unfold E. change (-1074 - (-53 + -1074)) with 53. lia.
  - right.
    assert (Zpos (digits2_pos my) = 53) as Hd53.
    { destruct (Z.eq_dec (Zpos (digits2_pos my)) 53) as [?|Hne]; [done|].
      assert (ey = -1074) as -> by (destruct (Z.eq_dec ey (-1074)); [done|lia]).
      assert (Zdigits2 M <= 53 + 52); [|unfold E in *; lia].
      apply Zdigits2_le; [done|]. rewrite Z.pow_add_r by lia.
      assert (Zpos my < 2 ^ 52).
      { eapply Z.lt_le_trans; [exact Huy|]. apply Z.pow_le_mono_r; lia. }
      unfold M. nia. }
    apply round_below; [done|done|done|split; [done|lia]|unfold E; lia|].
    unfold E. replace (ey - (-53 + ey)) with 53 by lia. lia.
Qed.

End FloatSmall.

(** The same with float expressions. *)

(** A float above zero is a positive number or [+infinity]. *)
Lemma ltb_zero_pos w :
  (0 <? w)%float = true →
  Prim2SF w = S754_infinity false ∨ ∃ m e, Prim2SF w = S754_finite false m e.
Proof.
  rewrite FloatAxioms.ltb_spec. change (Prim2SF 0) with (S754_zero false).
  unfold SFltb. destruct (Prim2SF w) as [[]|[]| |[] m e]; try done; eauto.
Qed.

Lemma ltb_zero_at_least w :
  (0 <? w)%float = true → FloatSmall.at_least 1 (Prim2SF w).
Proof.
  intros [E|(m & e & E)]%ltb_zero_pos; [by left|]. right. exists m, e.
  pose proof (Prim2SF_valid w) as V. rewrite E in V. simpl in V.
  pose proof (FloatBounds.bounded_digits _ _ V) as (_ & He & _).
  split_and!; [done|lia|].
  pose proof (Z.pow_pos_nonneg 2 (e + 1074)). nia.
Qed.

Lemma at_least_ltb_zero k x :
  1 ≤ k → FloatSmall.at_least k (Prim2SF x) → (0 <? x)%float = true.
Proof.
  intros Hk H. rewrite FloatAxioms.ltb_spec.
  change (Prim2SF 0) with (S754_zero false).
  by destruct H as [->|(m & e & -> & _)].
Qed.

Lemma at_least_leb k x y :
  FloatSmall.at_least k (Prim2SF x) → (x <=? y)%float = true →
  FloatSmall.at_least k (Prim2SF y).
Proof.
  intros H Hle. rewrite FloatAxioms.leb_spec in Hle.
  by apply (FloatSmall.at_least_mono k (Prim2SF x)); auto using Prim2SF_valid.
Qed.

(** [k <= kx * L] for a normal [L] of exponent at most zero. *)
Definition small_ok (kx : Z) (L : float) (k : Z) : bool :=
  match FloatExpr.parts L with
  | Some (mL, eL) =>
      (eL <=? 0) && (1 <=? k) && (k <=? 2 ^ 52) &&
      (k * 2 ^ (- eL) <=? kx * Zpos mL)
  | None => false
  end.

Lemma mul_at_least kx L k x y :
  small_ok kx L k = true →
  FloatSmall.at_least kx (Prim2SF x) → (L <=? y)%float = true →
  FloatSmall.at_least k (Prim2SF (x * y)).
Proof.
  unfold small_ok. destruct (FloatExpr.parts L) as [[mL eL]|] eqn:P; [|done].
  apply FloatExpr.parts_Some in P as [HL NL].
  intros [[[H1%Z.leb_le H2%Z.leb_le]%andb_prop H3%Z.leb_le]%andb_prop
    H4%Z.leb_le]%andb_prop Hx Hy.
  apply (FloatExpr.leb_above _ _ _ _ HL) in Hy.
  rewrite FloatAxioms.mul_spec.
  apply (FloatSmall.SFmul_at_least _ _ kx mL eL k); auto using Prim2SF_valid.
Qed.

Lemma mul_at_least_l kx L k x y :
  small_ok kx L k = true →
  (L <=? x)%float = true → FloatSmall.at_least kx (Prim2SF y) →
  FloatSmall.at_least k (Prim2SF (x * y)).
Proof.
  intros Hok Hx Hy. rewrite FloatAxioms.mul_spec.
  unfold SF64mul. rewrite FloatSmall.SFmul_comm.
  rewrite <- FloatAxioms.mul_spec. by apply (mul_at_least kx L k).
Qed.

(** [0.85 * e <= e] for every [e] that is not negative. *)
Lemma mul_le_self k e mk :
  FloatExpr.parts k = Some (mk, -53) →
  (0 <=? e)%float = true → (k * e <=? e)%float = true.
Proof.
  intros [Hk Nk]%FloatExpr.parts_Some He%FloatExpr.leb_zero_nonneg.
  pose proof (Prim2SF_valid e) as V.
  destruct (Prim2SF e) as [s|[]| |[] my ey] eqn:Ee; try done.
  - rewrite FloatAxioms.leb_spec, FloatAxioms.mul_spec, Hk, Ee.
    by destruct s.
  - by rewrite FloatAxioms.leb_spec, FloatAxioms.mul_spec, Hk, Ee.
  - destruct (FloatSmall.SFmul_le_self mk my ey Nk V) as [Hz|Hb].
    + rewrite FloatAxioms.leb_spec, FloatAxioms.mul_spec, Hk, Ee.
      unfold SF64mul. by rewrite Hz.
    + apply (FloatExpr.below_leb e _ my ey Ee).
      by rewrite FloatAxioms.mul_spec, Hk, Ee.
Qed.

(** ** Capacity and efficiency *)

(** The product of a positive float, finite or not, and a float that
    is at least some positive one is not negative, and not NaN. *)
Lemma SFmul_pos_above x y mL eL :
  x = S754_infinity false ∨ (∃ m e, x = S754_finite false m e) →
  FloatBounds.above mL eL y →
  FloatBounds.nonneg (SFmul prec emax x y).
Proof.
  intros [->|(mx & ex & ->)] [->|(my & ey & -> & _)]; try done.
  cbn [SFmul xorb]. apply FloatBounds.binary_round_aux_nonneg. lia.
Qed.

Lemma max_at_least a b :
  is_nan a = false → (a <=? Py.max a b)%float = true.
Proof.
  intros Ha. unfold Py.max. destruct (a <? b)%float eqn:E.
  - by apply FloatOrder.ltb_leb.
  - by apply FloatOrder.leb_refl.
Qed.

Lemma capacity_at_least_10 obs tls_id phase :
  (10.0 <=? _estimate_phase_capacity obs tls_id phase)%float = true.
Proof. by apply max_at_least. Qed.

Lemma efficiency_nonneg obs tls_id phase :
  is_nan (_calculate_waiting_traffic obs tls_id phase) = false →
  (0 <=? _calculate_phase_efficiency obs tls_id phase)%float = true.
Proof.
  intros Hn. unfold _calculate_phase_efficiency.
  pose proof (capacity_at_least_10 obs tls_id phase) as Hc.
  set (w := _calculate_waiting_traffic obs tls_id phase) in *.
  set (cap := _estimate_phase_capacity obs tls_id phase) in *.
  destruct (w <=? 0)%float eqn:E; [done|].
  assert ((0 <? w)%float = true) as Hw.
  { rewrite FloatOrder.leb_negb_ltb in E by done.
    by apply negb_false_iff in E. }
  apply FloatExpr.nonneg_leb_zero. rewrite FloatAxioms.mul_spec.
  apply (SFmul_pos_above _ _ 5629499534213120 (-49)).
  - by apply ltb_zero_pos.
  - by apply (FloatExpr.leb_above 10.0).
Qed.

Lemma efficiency_at_least_100 obs tls_id phase :
  (1 <=? _calculate_waiting_traffic obs tls_id phase)%float = true →
  (100 <=? _calculate_phase_efficiency obs tls_id phase)%float = true.
Proof.
  intros Hw. unfold _calculate_phase_efficiency.
  rewrite (FloatOrder.ltb_leb_false 0 _
             (FloatOrder.ltb_leb_trans 0 1 _ eq_refl Hw)).
  apply (FloatExpr.mul_above 1 100 100); [reflexivity|done|].
  apply capacity_at_least_100.
  by apply (FloatOrder.leb_trans 0 1 _ eq_refl).
Qed.

(** X3.  The capacity of a phase is at least [10.0] for every waiting
    count, a NaN included, so it is a number whose square root the
    duration formula can take.  For a waiting count that is not negative
    the floor of [10.0] plays no part: the capacity is
    [100.0 + waiting * 1.5], and at least [100.0]. *)
Theorem capacity_bounds obs tls_id phase :
  let waiting := _calculate_waiting_traffic obs tls_id phase in
  let capacity := _estimate_phase_capacity obs tls_id phase in
  (10.0 <=? capacity)%float = true ∧
  ((0 <=? waiting)%float = true →
     capacity = (100.0 + waiting * 1.5)%float ∧
     (100.0 <=? capacity)%float = true).
Proof.
  intros waiting capacity. split; [apply capacity_at_least_10|]. intros Hw.
  pose proof (capacity_at_least_100 _ Hw) as H.
  split; [|done]. subst capacity. unfold _estimate_phase_capacity.
  fold waiting. unfold Py.max in *.
  destruct (10.0 <? 100.0 + waiting * 1.5)%float eqn:E; [done|].
  vm_compute in H. discriminate H.
Qed.

(** An efficiency that is a number is not negative: a NaN waiting
    count yields a NaN. *)
Lemma efficiency_not_nan obs tls_id phase :
  is_nan (_calculate_phase_efficiency obs tls_id phase) = false →
  is_nan (_calculate_waiting_traffic obs tls_id phase) = false.
Proof.
  unfold _calculate_phase_efficiency.
  set (w := _calculate_waiting_traffic obs tls_id phase).
  destruct (w <=? 0)%float eqn:E.
  { intros _. by destruct (FloatOrder.leb_not_nan _ _ E). }
  rewrite !FloatOrder.is_nan_rank. unfold FloatOrder.frank.
  rewrite FloatAxioms.mul_spec. unfold SF64mul.
  destruct (Prim2SF w) as [s|s| |s m e]; simpl; intros H;
    try (destruct s; by eexists).
  by destruct H.
Qed.

(** As soon as anything waits the efficiency is positive: at least ten
    times the smallest positive float. *)
Lemma efficiency_units obs tls_id phase :
  (0 <? _calculate_waiting_traffic obs tls_id phase)%float = true →
  FloatSmall.at_least 10
    (Prim2SF (_calculate_phase_efficiency obs tls_id phase)).
Proof.
  intros Hw. unfold _calculate_phase_efficiency.
  rewrite (FloatOrder.ltb_leb_false _ _ Hw).
  apply (mul_at_least 1 10.0 10); [reflexivity| |].
  - by apply ltb_zero_at_least.
  - apply capacity_at_least_10.
Qed.

(** X4.  The efficiency of a phase whose waiting count is a number is
    never negative and never NaN.  It is [0.0] when nothing waits,
    positive as soon as anything waits, however little, and at least
    [100] when one vehicle or more waits. *)
Theorem efficiency_bounds obs tls_id phase :
  let waiting := _calculate_waiting_traffic obs tls_id phase in
  let efficiency := _calculate_phase_efficiency obs tls_id phase in
  is_nan waiting = false →
  (0 <=? efficiency)%float = true ∧
  ((waiting <=? 0)%float = true → efficiency = 0%float) ∧
  ((0 <? waiting)%float = true → (0 <? efficiency)%float = true) ∧
  ((1 <=? waiting)%float = true → (100 <=? efficiency)%float = true).
Proof.
  intros waiting efficiency Hn. split_and!.
  - by apply efficiency_nonneg.
  - intros Hw. subst efficiency. unfold _calculate_phase_efficiency.
    fold waiting. by rewrite Hw.
  - intros Hw. apply (at_least_ltb_zero 10); [lia|].
    by apply efficiency_units.
  - apply efficiency_at_least_100.
Qed.

Lemma efficiency_bounds_rush :
  let waiting := _calculate_waiting_traffic rush "A" 2 in
  let efficiency := _calculate_phase_efficiency rush "A" 2 in
  (0 <=? efficiency)%float = true ∧
  ((waiting <=? 0)%float = true → efficiency = 0%float) ∧
  ((0 <? waiting)%float = true → (0 <? efficiency)%float = true) ∧
  ((1 <=? waiting)%float = true → (100 <=? efficiency)%float = true).
Proof. apply (efficiency_bounds rush "A" 2). reflexivity. Defined.

(** ** The raw ranking *)

(** X5.  For an intersection of the controller, [_get_phase_priority]
    returns each green phase once, paired with its efficiency (a
    permutation of the scores in the order of [green_phases]); when the
    waiting counts are numbers the list is in descending order of
    efficiency.  For an intersection without green phases it raises
    [KeyError]. *)
Theorem phase_priority_ranking c obs tls_id :
  match green_phases c !! tls_id with
  | None => _get_phase_priority c obs tls_id = Raise (KeyError tls_id)
  | Some ps =>
      ∃ raw, _get_phase_priority c obs tls_id = Ok raw ∧
        raw ≡ₚ (λ p, (p, _calculate_phase_efficiency obs tls_id p)) <$> ps ∧
        ((∀ p, p ∈ ps →
            is_nan (_calculate_waiting_traffic obs tls_id p) = false) →
         StronglySorted (λ a b, (b.2 <=? a.2)%float = true) raw)
  end.
Proof.
  unfold _get_phase_priority.
  destruct (green_phases c !! tls_id) as [ps|]; [|done].
  eexists. split_and!; [done|apply sort_desc_perm|].
  intros Hn. apply (sort_desc_sorted snd).
  apply Forall_forall. intros [p s] [Hp ->]%elem_of_scores. simpl.
  by destruct (FloatOrder.leb_not_nan _ _ (efficiency_nonneg _ _ _ (Hn p Hp))).
Qed.

(** ** What an emitted action went through *)

Lemma select_phase_inv c obs tls_id current tip best :
  select_phase c obs tls_id current tip = Ok best →
  ∃ ps adj tentative s rest,
    green_phases c !! tls_id = Some ps ∧
    penalize current tip (raw_ranking obs tls_id ps) = Ok adj ∧
    sort_desc snd adj = (tentative, s) :: rest ∧
    stay_rule current (raw_ranking obs tls_id ps) tentative = Ok best.
Proof.
  unfold select_phase, _get_phase_priority.
  destruct (green_phases c !! tls_id) as [ps|]; [|done]. simpl.
  fold (raw_ranking obs tls_id ps).
  destruct (penalize _ _ _) as [adj|] eqn:Ep; simpl; [|done].
  destruct (sort_desc snd adj) as [|[tentative s] rest] eqn:Es; [done|].
  intros Hs. by exists ps, adj, tentative, s, rest.
Qed.

Lemma action_for_inv c obs tls_id a :
  action_for c obs tls_id = Ok (Some a) →
  ∃ li, default ∅ (lights obs) !! tls_id = Some li ∧
    falsy li = false ∧
    (0.5 <? default 0%float (time_to_next_switch li))%float = false ∧
    select_phase c obs tls_id (current_phase li)
      (default 0%float (time_in_phase li)) = Ok (phase_id a) ∧
    duration a =
      Py.round1 (green_duration c obs tls_id (phase_id a)
                   (default 0%float (time_in_phase li))).
Proof.
  unfold action_for.
  destruct (default ∅ (lights obs) !! tls_id) as [li|]; [|done].
  destruct (falsy li) eqn:F; [done|].
  destruct (0.5 <? _)%float eqn:T; [done|].
  destruct (select_phase _ _ _ _ _) as [best|] eqn:Es; simpl; [|done].
  intros [= <-]. simpl. exists li. by split_and!.
Qed.

(** The entries of a returned decision are the actions of the
    controller's intersections. *)
Lemma entry_action_for c obs c' d tls_id a :
  decide_next_phase c obs = Ok (c', d) →
  entry d tls_id = Some a →
  tls_id ∈ tls_ids c ∧ action_for c obs tls_id = Ok (Some a).
Proof.
  intros [_ He]%decide_next_phase_entry Ha. rewrite He in Ha.
  destruct (decide (tls_id ∈ tls_ids c)); [|done]. split; [done|].
  unfold decided in Ha.
  destruct (action_for c obs tls_id) as [[a'|]|]; by simplify_eq.
Qed.

(** ** The range of the emitted duration *)

(** The clamp of step 4 puts any float, a NaN included, between the two
    durations. *)
Lemma clamp_bounds d :
  (7.0 <=? Py.max 7.0 (Py.min 70.0 d))%float = true ∧
  (Py.max 7.0 (Py.min 70.0 d) <=? 70.0)%float = true.
Proof.
  split; [by apply max_at_least|].
  unfold Py.max, Py.min. destruct (d <? 70.0)%float eqn:E.
  - destruct (7.0 <? d)%float; [by apply FloatOrder.ltb_leb | reflexivity].
  - reflexivity.
Qed.

Lemma green_duration_range c obs tls_id phase tip :
  min_green_duration c = 7.0%float →
  max_green_duration c = 70.0%float →
  ((if (60 <? tip)%float then 6.3 else 7.0) <=?
     green_duration c obs tls_id phase tip)%float = true ∧
  (green_duration c obs tls_id phase tip <=? 70.0)%float = true.
Proof.
  intros Hmin Hmax. unfold green_duration. rewrite Hmin, Hmax.
  match goal with |- context [Py.max 7.0 (Py.min 70.0 ?d)] =>
    destruct (clamp_bounds d) as [Hl Hu]; set (clamped := Py.max 7.0 _) in *
  end.
  destruct (60 <? tip)%float; [|done]. split.
  - apply (FloatExpr.mul_above 7.0 0.9 6.3); [reflexivity|done|reflexivity].
  - apply (FloatExpr.mul_below 7.0 0.9 70.0 0.9 70.0);
      [reflexivity|done|done|reflexivity|reflexivity].
Qed.

(** Rounding [x] in [[L, U]] to one decimal gives the float nearest to
    [n / 10] for one of the integers [lo .. hi]. *)
Definition tenths_ok (L U : float) (lo hi : Z) : bool :=
  match FloatExpr.parts L, FloatExpr.parts U with
  | Some (mL, eL), Some (mU, eU) =>
      (eU <? 0) &&
      ((2 * lo - 1) * 2 ^ (- eL) <? 20 * Zpos mL) &&
      (20 * Zpos mU <? (2 * hi + 1) * 2 ^ (- eU))
  | _, _ => false
  end.

Lemma round1_tenths L U lo hi x :
  tenths_ok L U lo hi = true →
  (L <=? x)%float = true → (x <=? U)%float = true →
  ∃ n, lo ≤ n ≤ hi ∧ Py.round1 x = Py.of_tenths false n.
Proof.
  unfold tenths_ok.
  destruct (FloatExpr.parts L) as [[mL eL]|] eqn:PL; [|done].
  destruct (FloatExpr.parts U) as [[mU eU]|] eqn:PU; [|done].
  apply FloatExpr.parts_Some in PL as [HL NL], PU as [HU NU].
  intros [[HeU%Z.ltb_lt Hlo%Z.ltb_lt]%andb_prop Hhi%Z.ltb_lt]%andb_prop Hx Hx'.
  apply (FloatExpr.leb_above _ _ _ _ HL) in Hx.
  assert (∃ m e, Prim2SF x = S754_finite false m e) as (m & e & Ex).
  { destruct Hx as [E|(? & ? & ? & _)]; [|eauto].
    rewrite FloatAxioms.leb_spec, E, HU in Hx'. done. }
  apply (FloatExpr.leb_below _ _ _ _ HU) in Hx'; [|eauto].
  rewrite Ex in Hx, Hx'.
  destruct Hx as [?|(? & ? & [= <- <-] & Hx)]; [done|].
  destruct Hx' as (? & ? & [= <- <-] & Hx').
  pose proof (Prim2SF_valid x) as V. rewrite Ex in V. simpl in V.
  destruct (FloatBounds.above_value _ _ _ _ NL V Hx) as (N & Hle & Hv).
  destruct (FloatBounds.below_value _ _ _ _ NU V Hx') as (Hle' & Hv').
  unfold Py.round1. rewrite Ex. eexists. split; [|reflexivity].
  destruct e as [|k|k]; [lia..|]. unfold Py.tenths.
  assert (0 < 2 ^ Zpos k) by (apply Z.pow_pos_nonneg; lia).
  assert (0 < 2 ^ (Zneg k - eL)) by (apply Z.pow_pos_nonneg; lia).
  assert (0 < 2 ^ (eU - Zneg k)) by (apply Z.pow_pos_nonneg; lia).
  assert (2 ^ (- eL) = 2 ^ Zpos k * 2 ^ (Zneg k - eL)) as E1.
  { rewrite <- Z.pow_add_r by lia. f_equal. lia. }
  assert (2 ^ Zpos k = 2 ^ (- eU) * 2 ^ (eU - Zneg k)) as E2.
  { rewrite <- Z.pow_add_r by lia. f_equal. lia. }
  assert (0 < 2 ^ (- eU)) by (apply Z.pow_pos_nonneg; lia).
  split.
  - apply round_half_even_ge; [done|].
    apply (Z.mul_lt_mono_pos_r (2 ^ (Zneg k - eL))); [done|].
    rewrite E1 in Hlo. nia.
  - apply round_half_even_le; [done|]. rewrite E2. nia.
Qed.

(** The floats nearest to [6.3], [6.4], ..., [70.0]. *)
Definition tenth_in_range (n : Z) : bool :=
  (6.3 <=? Py.of_tenths false n)%float &&
  (Py.of_tenths false n <=? 70.0)%float &&
  ((n <? 70) || (7.0 <=? Py.of_tenths false n)%float).

Lemma tenths_in_range n :
  63 ≤ n ≤ 700 → tenth_in_range n = true.
Proof.
  assert (forallb tenth_in_range (seqZ 63 638) = true) as H
    by (vm_compute; reflexivity).
  rewrite forallb_forall in H. intros Hn.
  apply H, list_elem_of_In, elem_of_seqZ. lia.
Qed.

(** X6.  Whatever the observation holds, negative or NaN waiting counts
    and times included, every duration a call of a constructed
    controller emits is the float nearest to a whole number of tenths
    between [6.3] and [70.0]; it is at least [7.0] unless the reported
    [time_in_phase] exceeds [60]. *)
Theorem emitted_duration_range c obs c' d tls_id a :
  min_green_duration c = 7.0%float →
  max_green_duration c = 70.0%float →
  decide_next_phase c obs = Ok (c', d) →
  entry d tls_id = Some a →
  ∃ light_info n,
    default ∅ (lights obs) !! tls_id = Some light_info ∧
    duration a = Py.of_tenths false n ∧
    63 ≤ n ≤ 700 ∧
    (6.3 <=? duration a)%float = true ∧
    (duration a <=? 70.0)%float = true ∧
    ((60 <? default 0%float (time_in_phase light_info))%float = false →
       70 ≤ n ∧ (7.0 <=? duration a)%float = true).
Proof.
  intros Hmin Hmax E Ha.
  destruct (entry_action_for _ _ _ _ _ _ E Ha) as [_ Hact].
  apply action_for_inv in Hact as (li & El & _ & _ & _ & Hd).
  set (tip := default 0%float (time_in_phase li)) in *.
  destruct (green_duration_range c obs tls_id (phase_id a) tip Hmin Hmax)
    as [Hl Hu].
  exists li.
  destruct (60 <? tip)%float eqn:Et.
  - destruct (round1_tenths 6.3 70.0 63 700 _ eq_refl Hl Hu) as (n & Hn & Hr).
    exists n. rewrite Hd, Hr.
    pose proof (tenths_in_range n Hn) as [[H1 H2]%andb_prop _]%andb_prop.
    split_and!; [done|done|lia|lia|done|done|]. fold tip. congruence.
  - destruct (round1_tenths 7.0 70.0 70 700 _ eq_refl Hl Hu) as (n & Hn & Hr).
    exists n. rewrite Hd, Hr.
    pose proof (tenths_in_range n ltac:(lia))
      as [[H1 H2]%andb_prop [H3%Z.ltb_lt|H3]%orb_prop]%andb_prop; [lia|].
    split_and!; [done|done|lia|lia|done|done|]. intros _. split; [lia|done].
Qed.

Lemma emitted_duration_range_rush :
  ∃ light_info n,
    default ∅ (lights rush) !! "A" = Some light_info ∧
    duration {| phase_id := 2; duration := 22.7 |} = Py.of_tenths false n ∧
    63 ≤ n ≤ 700 ∧
    (6.3 <=? duration {| phase_id := 2; duration := 22.7 |})%float = true ∧
    (duration {| phase_id := 2; duration := 22.7 |} <=? 70.0)%float = true ∧
    ((60 <? default 0%float (time_in_phase light_info))%float = false →
       70 ≤ n ∧
       (7.0 <=? duration {| phase_id := 2; duration := 22.7 |})%float = true).
Proof.
  apply (emitted_duration_range demo rush demo_after
           (Some {[ "A" := {| phase_id := 2; duration := 22.7 |} ]}) "A").
  - reflexivity.
  - reflexivity.
  - exact rush_call.
  - reflexivity.
Defined.

(** ** The exceptions of a call *)

(** The penalty loop fails on the first phase that is not the current
    one, and only by dividing by zero. *)
Lemma penalize_Raise current tip raw e :
  penalize current tip raw = Raise e →
  e = ZeroDivisionError ∧
  (tip + 1.0 =? 0)%float = true ∧
  ∃ p s, (p, s) ∈ raw ∧ Some p ≠ current.
Proof.
  induction raw as [|[p s] raw IH]; simpl; [done|].
  case_bool_decide as Ec; simpl.
  - destruct (penalize current tip raw); simpl; [done|].
    intros [= <-]. destruct IH as (-> & Hz & q & s' & Hin & Hne); [done|].
    split_and!; [done..|]. exists q, s'. split; [by right|done].
  - unfold Py.truediv. destruct (tip + 1.0 =? 0)%float eqn:Hz; simpl.
    + intros [= <-]. split_and!; [done..|]. exists p, s. split; [left|done].
    + destruct (penalize current tip raw); simpl; [done|].
      intros [= <-]. by destruct IH as (_ & ? & _).
Qed.

Lemma penalize_zero_division current tip raw p s :
  (tip + 1.0 =? 0)%float = true →
  (p, s) ∈ raw → Some p ≠ current →
  penalize current tip raw = Raise ZeroDivisionError.
Proof.
  intros Hz Hin Hne. induction raw as [|[q t] raw IH]; simpl.
  { by apply not_elem_of_nil in Hin. }
  case_bool_decide as Ec; simpl.
  - apply elem_of_cons in Hin as [[= -> ->]|Hin]; [done|].
    by rewrite IH.
  - unfold Py.truediv. by rewrite Hz.
Qed.

(** An intersection the call acts on while the penalty of some green
    phase divides by zero: [time_in_phase + 1.0] is zero and a green
    phase differs from the reported current phase. *)
Definition divides_by_zero (c : ParticipantController) (obs : Observation)
    (tls_id : string) : Prop :=
  ∃ light_info ps p,
    default ∅ (lights obs) !! tls_id = Some light_info ∧
    falsy light_info = false ∧
    (0.5 <? default 0%float (time_to_next_switch light_info))%float = false ∧
    (default 0 (time_in_phase light_info) + 1.0 =? 0)%float = true ∧
    green_phases c !! tls_id = Some ps ∧
    p ∈ ps ∧ Some p ≠ current_phase light_info.

Lemma select_phase_Raise c obs tls_id current tip ps e :
  green_phases c !! tls_id = Some ps → ps ≠ [] →
  select_phase c obs tls_id current tip = Raise e ↔
  e = ZeroDivisionError ∧ (tip + 1.0 =? 0)%float = true ∧
  ∃ p, p ∈ ps ∧ Some p ≠ current.
Proof.
  intros Hg Hps. unfold select_phase, _get_phase_priority. rewrite Hg. simpl.
  fold (raw_ranking obs tls_id ps). split.
  - destruct (penalize _ _ _) as [adj|e'] eqn:Ep; simpl.
    + destruct (sort_desc snd adj) as [|[bp bs] rest] eqn:Es.
      * apply sort_desc_nil_inv in Es. subst adj.
        apply penalize_length in Ep.
        unfold raw_ranking in Ep.
        rewrite sort_desc_length, scores_length in Ep. by destruct ps.
      * unfold stay_rule. destruct current as [cp|]; [|done].
        by destruct (raw_ranking_cons obs tls_id ps Hps) as ([? ?] & ? & ->).
    + intros [= <-].
      apply penalize_Raise in Ep as (-> & Hz & p & s & Hin & Hne).
      apply elem_of_raw_ranking in Hin as [Hin _]. eauto.
  - intros (-> & Hz & p & Hin & Hne).
    rewrite (penalize_zero_division _ _ _ p
               (_calculate_phase_efficiency obs tls_id p)); [done..| |done].
    by apply elem_of_raw_ranking.
Qed.

Lemma action_for_Raise c obs tls_id e :
  (∃ ps, green_phases c !! tls_id = Some ps ∧ ps ≠ []) →
  action_for c obs tls_id = Raise e ↔
  e = ZeroDivisionError ∧ divides_by_zero c obs tls_id.
Proof.
  intros (ps & Hg & Hps). unfold action_for, divides_by_zero. split.
  - destruct (default ∅ (lights obs) !! tls_id) as [li|]; [|done].
    destruct (falsy li) eqn:F; [done|].
    destruct (0.5 <? _)%float eqn:T; [done|].
    destruct (select_phase _ _ _ _ _) as [best|e'] eqn:Es; simpl; [done|].
    intros [= <-].
    apply (select_phase_Raise _ _ _ _ _ ps) in Es as (-> & Hz & p & ? & ?);
      [|done..].
    split; [done|]. exists li, ps, p. by split_and!.
  - intros (-> & li & ps' & p & -> & -> & -> & Hz & Hg' & Hin & Hne).
    simplify_eq.
    assert (select_phase c obs tls_id (current_phase li)
              (default 0%float (time_in_phase li)) = Raise ZeroDivisionError)
      as ->; [|done].
    apply (select_phase_Raise _ _ _ _ _ ps); [done..|]. eauto.
Qed.

(** The loop fails exactly when the action of some intersection does,
    provided each intersection has its counter map. *)
Lemma decide_loop_Raise obs ids : ∀ c d0 e,
  (∀ tls_id, tls_id ∈ ids → is_Some (last_phase_actions c !! tls_id)) →
  decide_loop obs ids c d0 = Raise e →
  ∃ tls_id, tls_id ∈ ids ∧ action_for c obs tls_id = Raise e.
Proof.
  induction ids as [|t ids IH]; intros c d0 e Hc; simpl; [done|].
  rewrite decide_one_action_for.
  destruct (action_for c obs t) as [[a|]|e'] eqn:Ea; simpl.
  - destruct (record_action_returns c t (phase_id a)) as [c1 Er];
      [apply Hc; left|].
    rewrite Er. simpl. intros Hl.
    pose proof (record_action_config _ _ _ _ Er) as S1.
    apply IH in Hl as (tls & Hin & Hl).
    + exists tls. split; [by right|].
      by rewrite (action_for_config c c1).
    + intros tls Hin. apply elem_of_dom. rewrite <- (sc_dom _ _ S1).
      apply elem_of_dom, Hc. by right.
  - intros (tls & Hin & Hl)%IH; [|intros tls Hin; apply Hc; by right].
    exists tls. split; [by right|done].
  - intros [= <-]. exists t. split; [left|done].
Qed.

Lemma decide_loop_raises obs ids : ∀ c d0 tls_id e,
  (∀ tls_id, tls_id ∈ ids → is_Some (last_phase_actions c !! tls_id)) →
  tls_id ∈ ids →
  action_for c obs tls_id = Raise e →
  ∃ e', decide_loop obs ids c d0 = Raise e'.
Proof.
  induction ids as [|t ids IH]; intros c d0 tls e Hc Hin Hr; simpl.
  { by apply not_elem_of_nil in Hin. }
  rewrite decide_one_action_for.
  destruct (action_for c obs t) as [[a|]|e'] eqn:Ea; simpl; [| |eauto].
  - destruct (record_action_returns c t (phase_id a)) as [c1 Er];
      [apply Hc; left|].
    rewrite Er. simpl.
    pose proof (record_action_config _ _ _ _ Er) as S1.
    apply elem_of_cons in Hin as [->|Hin]; [congruence|].
    apply (IH c1 _ tls e); [|done|by rewrite <- (action_for_config c c1)].
    intros tls' Hin'. apply elem_of_dom. rewrite <- (sc_dom _ _ S1).
    apply elem_of_dom, Hc. by right.
  - apply elem_of_cons in Hin as [->|Hin]; [congruence|].
    apply (IH c _ tls e); [|done..]. intros tls' Hin'. apply Hc. by right.
Qed.

Lemma reachable_wf c0 c : wf c0 → reachable c0 c → wf c.
Proof. intros W R%reachable_config. by eapply wf_config. Qed.

(** X7.  A call on a constructed controller, whatever calls it has
    served, raises in one case only: for some intersection it acts on,
    [time_in_phase + 1.0] is zero and some green phase is not the
    reported current phase, so that the switch penalty divides by zero.
    The exception is then [ZeroDivisionError]; no call raises [KeyError]
    or [IndexError]. *)
Theorem decide_next_phase_raises ids cat c0 c obs e :
  __init__ ids cat = Ok c0 →
  reachable c0 c →
  (decide_next_phase c obs = Raise e ↔
   e = ZeroDivisionError ∧
   ∃ tls_id, tls_id ∈ tls_ids c ∧ divides_by_zero c obs tls_id).
Proof.
  intros W%init_wf R. pose proof (reachable_wf _ _ W R) as Wc.
  assert (∀ tls_id, tls_id ∈ tls_ids c →
    is_Some (last_phase_actions c !! tls_id)) as Hc
    by (intros tls Hin; by apply Wc).
  unfold decide_next_phase. split.
  - destruct (decide_loop obs (tls_ids c) c ∅) as [[c' dm]|e'] eqn:El;
      simpl; [done|].
    intros [= <-].
    apply decide_loop_Raise in El as (tls & Hin & Ha); [|done].
    apply action_for_Raise in Ha as [-> ?]; [eauto|by apply Wc].
  - intros (-> & tls & Hin & Hz).
    assert (action_for c obs tls = Raise ZeroDivisionError) as Ha
      by (apply action_for_Raise; [by apply Wc|done]).
    destruct (decide_loop_raises obs (tls_ids c) c ∅ tls _ Hc Hin Ha)
      as [e' El].
    rewrite El. simpl. f_equal.
    apply decide_loop_Raise in El as (tls' & Hin' & Ha'); [|done].
    apply action_for_Raise in Ha' as [-> _]; [done|by apply Wc].
Qed.

(** Phase [0] is reported as current with a [time_in_phase] of [-1.0]:
    the penalty of phase [2] divides by zero. *)
Definition stalled : Observation := observe (light 0 (Some 0) (-1)) [].

Lemma decide_next_phase_raises_stalled :
  decide_next_phase demo stalled = Raise ZeroDivisionError ↔
  ZeroDivisionError = ZeroDivisionError ∧
  ∃ tls_id, tls_id ∈ tls_ids demo ∧ divides_by_zero demo stalled tls_id.
Proof.
  apply (decide_next_phase_raises ["A"] demo_catalog demo demo stalled).
  - reflexivity.
  - constructor.
Defined.

Example stalled_call : decide_next_phase demo stalled = Raise ZeroDivisionError.
Proof. vm_compute. reflexivity. Qed.

(** ** An intersection where nothing waits *)

Lemma ltb_irrefl x : (x <? x)%float = false.
Proof.
  destruct (x <? x)%float eqn:E; [|done].
  pose proof (FloatOrder.ltb_leb _ _ E) as H.
  by rewrite (FloatOrder.ltb_leb_false _ _ E) in H.
Qed.

(** Entries that all carry the same score keep their order. *)
Lemma sort_desc_const (k : float) (ps : list Z) :
  sort_desc snd ((λ p, (p, k)) <$> ps) = (λ p, (p, k)) <$> ps.
Proof.
  apply sort_desc_id. induction ps as [|p ps IH]; simpl; [constructor|].
  constructor; [done|]. destruct ps; simpl; constructor. apply ltb_irrefl.
Qed.

Lemma current_efficiency_const cp (ps : list Z) :
  current_efficiency cp ((λ p, (p, 0%float)) <$> ps) = 0%float.
Proof.
  induction ps as [|p ps IH]; simpl; [done|]. by case_bool_decide.
Qed.

(** With nothing waiting for any green phase every efficiency is
    [0.0], and the raw ranking is the list of green phases in their
    order. *)
Lemma idle_raw_ranking obs tls_id ps :
  (∀ p, p ∈ ps →
     (_calculate_waiting_traffic obs tls_id p <=? 0)%float = true) →
  raw_ranking obs tls_id ps = (λ p, (p, 0%float)) <$> ps.
Proof.
  intros Hw. unfold raw_ranking. rewrite <- sort_desc_const. f_equal.
  unfold scores. apply list_fmap_ext. intros i p Hi.
  unfold _calculate_phase_efficiency.
  by rewrite (Hw p (list_elem_of_lookup_2 _ _ _ Hi)).
Qed.

Lemma idle_duration c obs tls_id phase tip :
  min_green_duration c = 7.0%float →
  max_green_duration c = 70.0%float →
  _calculate_waiting_traffic obs tls_id phase = 0%float →
  Py.round1 (green_duration c obs tls_id phase tip) =
    if (60 <? tip)%float then 7.8%float else 8.7%float.
Proof.
  intros Hmin Hmax Hw.
  unfold green_duration, _estimate_phase_capacity. rewrite Hmin, Hmax, Hw.
  destruct (60 <? tip)%float; vm_compute; reflexivity.
Qed.

(** X8.  Where no vehicle waits for any phase of an intersection (the
    counts are zero or missing), the intersection, when it is acted on,
    keeps the phase the observation reports as current, green or not;
    with no current phase reported it takes its first green phase.  The
    duration is [8.7], or [7.8] when [time_in_phase] exceeds [60]. *)
Theorem idle_intersection c obs c' d tls_id a light_info ps :
  min_green_duration c = 7.0%float →
  max_green_duration c = 70.0%float →
  decide_next_phase c obs = Ok (c', d) →
  entry d tls_id = Some a →
  default ∅ (lights obs) !! tls_id = Some light_info →
  green_phases c !! tls_id = Some ps →
  (∀ p, _calculate_waiting_traffic obs tls_id p = 0%float) →
  Some (phase_id a) =
    match current_phase light_info with
    | Some cp => Some cp
    | None => head ps
    end ∧
  duration a =
    if (60 <? default 0%float (time_in_phase light_info))%float
    then 7.8%float else 8.7%float.
Proof.
  intros Hmin Hmax E Ha El Hg Hw.
  destruct (entry_action_for _ _ _ _ _ _ E Ha) as [_ Hact].
  apply action_for_inv in Hact as (li & El' & _ & _ & Hs & Hd).
  rewrite El in El'. injection El' as <-.
  split; [|by rewrite Hd; apply idle_duration].
  apply select_phase_inv in Hs
    as (ps' & adj & tentative & s & rest & Hg' & Hp & Hsort & Hstay).
  simplify_eq.
  rewrite idle_raw_ranking in Hp, Hstay by (intros p _; by rewrite Hw).
  set (tip := default 0%float (time_in_phase light_info)) in *.
  unfold stay_rule in Hstay.
  destruct (current_phase light_info) as [cp|] eqn:Ec.
  - rewrite current_efficiency_const in Hstay.
    destruct ps as [|p0 ps]; simpl in Hstay; [done|].
    change (0.85 * 0 <=? 0)%float with true in Hstay. by simplify_eq.
  - simplify_eq.
    destruct ps as [|p0 ps]; [simpl in Hp; by simplify_eq|].
    destruct (tip + 1.0 =? 0)%float eqn:Hz.
    + rewrite (penalize_zero_division None tip _ p0 0%float) in Hp;
        [done|done|left|done].
    + rewrite penalize_Ok in Hp by done.
      assert (adjust None tip <$> ((λ p, (p, 0%float)) <$> p0 :: ps) =
              (λ p, (p, (0 - 120.0 / (tip + 1.0))%float)) <$> p0 :: ps) as Eadj
        by by rewrite <- list_fmap_compose.
      rewrite Eadj in Hp. injection Hp as <-.
      pose proof (eq_trans (eq_sym Hsort)
        (sort_desc_const (0 - 120.0 / (tip + 1.0))%float (p0 :: ps))) as H.
      simpl in H. by simplify_eq.
Qed.

(** The intersection of [demo] with an empty observation of waiting
    vehicles and no current phase reported. *)
Definition idle : Observation := observe (light 0 None 3) [].

Lemma idle_call :
  decide_next_phase demo idle =
    Ok (demo_after_0, Some {[ "A" := {| phase_id := 0; duration := 8.7 |} ]}).
Proof. vm_compute. reflexivity. Qed.

Lemma idle_intersection_demo :
  Some (phase_id {| phase_id := 0; duration := 8.7 |}) =
    match current_phase (light 0 None 3) with
    | Some cp => Some cp
    | None => head [0; 2]
    end ∧
  duration {| phase_id := 0; duration := 8.7 |} =
    if (60 <? default 0%float (time_in_phase (light 0 None 3)))%float
    then 7.8%float else 8.7%float.
Proof.
  apply (idle_intersection demo idle demo_after_0
           (Some {[ "A" := {| phase_id := 0; duration := 8.7 |} ]}) "A").
  - reflexivity.
  - reflexivity.
  - exact idle_call.
  - reflexivity.
  - reflexivity.
  - reflexivity.
  - intros p. unfold _calculate_waiting_traffic, idle, observe. simpl.
    rewrite lookup_singleton_eq. simpl. by rewrite lookup_empty.
Defined.

(** ** Intersections are decided one by one *)

(** The action for an intersection reads the observation at that
    intersection only. *)
Lemma action_for_local c obs1 obs2 tls_id :
  default ∅ (lights obs1) !! tls_id = default ∅ (lights obs2) !! tls_id →
  (∀ p, _calculate_waiting_traffic obs1 tls_id p =
        _calculate_waiting_traffic obs2 tls_id p) →
  action_for c obs1 tls_id = action_for c obs2 tls_id.
Proof.
  intros Hl Hw.
  assert (∀ ps, scores obs1 tls_id ps = scores obs2 tls_id ps) as Hs.
  { intros ps. unfold scores. apply list_fmap_ext. intros _ p _.
    unfold _calculate_phase_efficiency, _estimate_phase_capacity.
    by rewrite Hw. }
  unfold action_for. rewrite Hl.
  destruct (default ∅ (lights obs2) !! tls_id) as [li|]; [|done].
  destruct (falsy li); [done|]. destruct (0.5 <? _)%float; [done|].
  assert (∀ cur tip, select_phase c obs1 tls_id cur tip =
                     select_phase c obs2 tls_id cur tip) as ->.
  { intros cur tip. unfold select_phase, _get_phase_priority.
    destruct (green_phases c !! tls_id) as [ps|]; [|done]. by rewrite Hs. }
  destruct (select_phase c obs2 tls_id _ _) as [best|]; simpl; [|done].
  unfold green_duration, _estimate_phase_capacity. by rewrite Hw.
Qed.

(** X9.  The entry of the decision for an intersection depends on the
    observation at that intersection alone: two observations with the
    same light information and the same waiting counts there (a missing
    map counting as empty) yield the same entry, whatever they hold for
    the other intersections. *)
Theorem decision_is_local c obs1 obs2 tls_id c1 d1 c2 d2 :
  default ∅ (lights obs1) !! tls_id = default ∅ (lights obs2) !! tls_id →
  default ∅ (default ∅ (waiting_vehicles obs1) !! tls_id) =
    default ∅ (default ∅ (waiting_vehicles obs2) !! tls_id) →
  decide_next_phase c obs1 = Ok (c1, d1) →
  decide_next_phase c obs2 = Ok (c2, d2) →
  entry d1 tls_id = entry d2 tls_id.
Proof.
  intros Hl Hw [_ H1]%decide_next_phase_entry [_ H2]%decide_next_phase_entry.
  rewrite H1, H2. destruct (decide (tls_id ∈ tls_ids c)); [|done].
  unfold decided. rewrite (action_for_local c obs1 obs2); [done..|].
  intros p. unfold _calculate_waiting_traffic. by rewrite Hw.
Qed.

(** The rush hour at ["A"], seen together with an intersection ["B"]
    that the controller does not manage. *)
Definition rush_and_more : Observation :=
  {| lights := Some {[ "A" := light 0 (Some 0) 10; "B" := light 0 (Some 1) 99 ]};
     waiting_vehicles :=
       Some {[ "A" := {[ 0 := 5%float; 2 := 50%float ]};
               "B" := {[ 0 := 1000%float ]} ]} |}.

Lemma decision_is_local_rush :
  entry (Some {[ "A" := {| phase_id := 2; duration := 22.7 |} ]}) "A" =
  entry (Some {[ "A" := {| phase_id := 2; duration := 22.7 |} ]}) "A".
Proof.
  apply (decision_is_local demo rush rush_and_more "A" demo_after _ demo_after _).
  - vm_compute. reflexivity.
  - vm_compute. reflexivity.
  - exact rush_call.
  - vm_compute. reflexivity.
Defined.

(** ** When the emitted phase is a green phase *)

Lemma current_efficiency_unknown cp raw :
  cp ∉ raw.*1 → current_efficiency cp raw = 0%float.
Proof.
  induction raw as [|[p s] raw IH]; simpl; [done|].
  intros Hn. apply not_elem_of_cons in Hn as [Hne Hn].
  rewrite bool_decide_false by done. by apply IH.
Qed.

(** With every waiting count a number, the head of the raw ranking
    carries an efficiency no green phase exceeds. *)
Lemma raw_ranking_head_max obs tls_id ps bp best_eff rest q :
  (∀ p, p ∈ ps →
     is_nan (_calculate_waiting_traffic obs tls_id p) = false) →
  raw_ranking obs tls_id ps = (bp, best_eff) :: rest →
  q ∈ ps →
  (_calculate_phase_efficiency obs tls_id q <=? best_eff)%float = true.
Proof.
  intros Hn Er Hq.
  assert (head (sort_desc snd (scores obs tls_id ps)) = Some (bp, best_eff))
    as Hh by (fold (raw_ranking obs tls_id ps); by rewrite Er).
  apply sort_desc_head_max in Hh.
  - rewrite Forall_forall in Hh.
    apply (Hh (q, _calculate_phase_efficiency obs tls_id q)).
    by apply elem_of_scores.
  - apply Forall_forall. intros [p s] [Hp ->]%elem_of_scores. simpl.
    by destruct (FloatOrder.leb_not_nan _ _
                   (efficiency_nonneg _ _ _ (Hn p Hp))).
Qed.

Lemma tentative_green obs tls_id ps current tip adj tentative s rest :
  penalize current tip (raw_ranking obs tls_id ps) = Ok adj →
  sort_desc snd adj = (tentative, s) :: rest →
  tentative ∈ ps.
Proof.
  intros Hp Hs.
  assert (tentative ∈ adj.*1) as Hin.
  { apply list_elem_of_fmap. exists (tentative, s). split; [done|].
    apply (elem_of_sort_desc snd). rewrite Hs. left. }
  rewrite (penalize_phases _ _ _ _ Hp) in Hin.
  apply list_elem_of_fmap in Hin as ([p s'] & -> & Hin).
  by apply elem_of_raw_ranking in Hin as [? _].
Qed.

(** What steps 1 to 3 made of an entry of the decision. *)
Lemma entry_selection c obs c' d tls_id a light_info ps :
  decide_next_phase c obs = Ok (c', d) →
  entry d tls_id = Some a →
  default ∅ (lights obs) !! tls_id = Some light_info →
  green_phases c !! tls_id = Some ps →
  ∃ tentative, tentative ∈ ps ∧
    stay_rule (current_phase light_info) (raw_ranking obs tls_id ps) tentative =
      Ok (phase_id a).
Proof.
  intros E Ha El Hg.
  destruct (entry_action_for _ _ _ _ _ _ E Ha) as [_ Hact].
  apply action_for_inv in Hact as (li & El' & _ & _ & Hs & _).
  rewrite El in El'. injection El' as <-.
  apply select_phase_inv in Hs
    as (ps' & adj & tentative & s & rest & Hg' & Hp & Hsort & Hstay).
  rewrite Hg in Hg'. injection Hg' as <-.
  exists tentative. split; [|done]. by eapply tentative_green.
Qed.

(** X10.  With waiting counts that are numbers, the phase a call emits
    for an intersection is one of its green phases in every case but
    one: the observation reports a current phase that is not green, and
    nothing waits for any green phase.  In that case the stay rule keeps
    the reported phase. *)
Theorem emitted_phase_not_green c obs c' d tls_id a light_info ps :
  decide_next_phase c obs = Ok (c', d) →
  entry d tls_id = Some a →
  default ∅ (lights obs) !! tls_id = Some light_info →
  green_phases c !! tls_id = Some ps →
  (∀ p, p ∈ ps →
     is_nan (_calculate_waiting_traffic obs tls_id p) = false) →
  (phase_id a ∉ ps ↔
   ∃ cp, current_phase light_info = Some cp ∧ (cp ∉ ps) ∧
     ∀ q, q ∈ ps →
       (_calculate_waiting_traffic obs tls_id q <=? 0)%float = true).
Proof.
  intros E Ha El Hg Hn.
  destruct (entry_selection _ _ _ _ _ _ _ _ E Ha El Hg)
    as (tentative & Ht & Hstay).
  unfold stay_rule in Hstay. split.
  - intros Hout.
    destruct (current_phase light_info) as [cp|]; [|by simplify_eq].
    destruct (raw_ranking obs tls_id ps) as [|[bp best_eff] raw'] eqn:Er;
      [done|].
    rewrite <- Er in Hstay.
    destruct (0.85 * best_eff <=? _)%float eqn:Estay;
      injection Hstay as Hs; [|by rewrite <- Hs in Hout].
    rewrite <- Hs in Hout.
    exists cp. split_and!; [done..|]. intros q Hq.
    destruct (_ <=? 0)%float eqn:Ew; [done|]. exfalso.
    rewrite current_efficiency_unknown in Estay.
    + assert ((0 <? _calculate_waiting_traffic obs tls_id q)%float = true)
        as Hw.
      { rewrite FloatOrder.leb_negb_ltb in Ew by auto.
        by apply negb_false_iff in Ew. }
      pose proof (at_least_leb _ _ _ (efficiency_units _ _ _ Hw)
                    (raw_ranking_head_max _ _ _ _ _ _ _ Hn Er Hq)) as Hb.
      pose proof (mul_at_least_l 10 0.85 1 0.85 best_eff eq_refl eq_refl Hb)
        as H1.
      apply (at_least_ltb_zero 1) in H1; [|lia].
      apply FloatOrder.ltb_leb_false in H1. congruence.
    + intros ([p s'] & -> & [? _]%elem_of_raw_ranking)%list_elem_of_fmap.
      done.
  - intros (cp & Ec & Hout & Hw). rewrite Ec in Hstay.
    rewrite idle_raw_ranking in Hstay by done.
    rewrite current_efficiency_const in Hstay.
    destruct ps as [|p0 ps]; simpl in Hstay; [done|].
    change (0.85 * 0 <=? 0)%float with true in Hstay. by simplify_eq.
Qed.

(** One vehicle waits for phase [2] while the yellow phase [1] is
    reported as current. *)
Definition busy_in_yellow : Observation :=
  observe (light 0 (Some 1) 3) [(2, 1%float)].

Lemma busy_in_yellow_call :
  decide_next_phase demo busy_in_yellow =
    Ok (demo_after, Some {[ "A" := {| phase_id := 2; duration := 9.0 |} ]}).
Proof. vm_compute. reflexivity. Qed.

Lemma emitted_phase_not_green_busy_in_yellow :
  phase_id {| phase_id := 2; duration := 9.0 |} ∉ [0; 2] ↔
  ∃ cp, current_phase (light 0 (Some 1) 3) = Some cp ∧ (cp ∉ [0; 2]) ∧
    ∀ q, q ∈ [0; 2] →
      (_calculate_waiting_traffic busy_in_yellow "A" q <=? 0)%float = true.
Proof.
  apply (emitted_phase_not_green demo busy_in_yellow demo_after
           (Some {[ "A" := {| phase_id := 2; duration := 9.0 |} ]}) "A").
  - exact busy_in_yellow_call.
  - reflexivity.
  - reflexivity.
  - reflexivity.
  - intros p _. unfold _calculate_waiting_traffic, busy_in_yellow, observe.
    simpl. rewrite lookup_singleton_eq. simpl.
    destruct (decide (p = 2)) as [->|Hne].
    + reflexivity.
    + rewrite lookup_insert_ne by done. reflexivity.
Defined.

(** X13.  A current phase that is green and whose efficiency no green
    phase exceeds is kept: the controller does not leave the best phase,
    whatever the penalties and whatever [time_in_phase] is. *)
Theorem best_phase_is_kept c obs c' d tls_id a light_info ps cp :
  decide_next_phase c obs = Ok (c', d) →
  entry d tls_id = Some a →
  default ∅ (lights obs) !! tls_id = Some light_info →
  green_phases c !! tls_id = Some ps →
  current_phase light_info = Some cp →
  cp ∈ ps →
  (∀ q, q ∈ ps →
     (_calculate_phase_efficiency obs tls_id q <=?
        _calculate_phase_efficiency obs tls_id cp)%float = true) →
  phase_id a = cp.
Proof.
  intros E Ha El Hg Ec Hcp Hmax.
  destruct (entry_selection _ _ _ _ _ _ _ _ E Ha El Hg)
    as (tentative & Ht & Hstay).
  unfold stay_rule in Hstay. rewrite Ec in Hstay.
  destruct (raw_ranking obs tls_id ps) as [|[bp best_eff] raw'] eqn:Er;
    [done|].
  rewrite <- Er, current_efficiency_raw in Hstay by done.
  assert ((best_eff =? _calculate_phase_efficiency obs tls_id cp)%float = true)
    as Hb by (apply (raw_ranking_best _ _ ps cp); [done..|by rewrite Er]).
  rewrite (mul_leb_eqb _ _ _ _ Hb) in Hstay.
  rewrite (mul_le_self 0.85 _ 7656119366529843) in Hstay;
    [by simplify_eq | reflexivity |].
  apply efficiency_nonneg, efficiency_not_nan.
  by destruct (FloatOrder.leb_not_nan _ _ (Hmax cp Hcp)).
Qed.

Lemma best_phase_is_kept_tie :
  phase_id {| phase_id := 0; duration := 10.1 |} = 0.
Proof.
  apply (best_phase_is_kept demo
           (observe (light 0 (Some 0) 10) [(0, 5%float); (2, 5%float)])
           demo_after_0
           (Some {[ "A" := {| phase_id := 0; duration := 10.1 |} ]}) "A" _
           (light 0 (Some 0) 10) [0; 2]).
  - vm_compute. reflexivity.
  - reflexivity.
  - reflexivity.
  - reflexivity.
  - reflexivity.
  - left.
  - intros q [->|[->|?%not_elem_of_nil]%elem_of_cons]%elem_of_cons;
      [vm_compute; reflexivity..|done].
Defined.

(** ** The state across calls *)

Lemma record_action_count c t p c' tls_id q :
  record_action c t p = Ok c' →
  count c' tls_id q =
    count c tls_id q + if bool_decide (tls_id = t ∧ q = p) then 1 else 0.
Proof.
  intros (_ & counts & Ec & E')%record_action_Ok. unfold count. rewrite E'.
  destruct (decide (tls_id = t)) as [->|Hne].
  - rewrite lookup_insert_eq, Ec. simpl. rewrite lookup_bump.
    destruct (decide (q = p)) as [->|Hq].
    + by rewrite bool_decide_true.
    + rewrite bool_decide_false by by intros [_ ?]. lia.
  - rewrite lookup_insert_ne by done.
    rewrite bool_decide_false by by intros [? _]. lia.
Qed.

Lemma decide_loop_count obs ids : ∀ c d0 c' d tls_id q,
  decide_loop obs ids c d0 = Ok (c', d) →
  count c tls_id q ≤ count c' tls_id q.
Proof.
  induction ids as [|t ids IH]; intros c d0 c' d tls q; simpl.
  { by intros [= <- <-]. }
  destruct (decide_one c obs t) as [[[c1 a]|]|] eqn:E1; simpl; [| |done].
  - intros Hl%(IH _ _ _ _ tls q).
    rewrite decide_one_action_for in E1.
    destruct (action_for c obs t) as [[a'|]|]; simpl in E1; [|done..].
    destruct (record_action c t (phase_id a')) as [c1'|] eqn:Er;
      simpl in E1; [|done].
    injection E1 as <- <-.
    rewrite (record_action_count _ _ _ _ tls q Er) in Hl.
    case_bool_decide; lia.
  - apply IH.
Qed.

Lemma decide_next_phase_count c obs c' d tls_id q :
  decide_next_phase c obs = Ok (c', d) →
  count c tls_id q ≤ count c' tls_id q.
Proof.
  intros (dm & Hl & _)%decide_next_phase_Ok. by eapply decide_loop_count.
Qed.

Lemma reachable_frame c0 c : reachable c0 c → frame c0 c.
Proof.
  induction 1 as [|c obs c' d _ IH E]; [done|].
  apply decide_next_phase_Ok in E as (dm & (F & _ & _)%decide_loop_spec & _).
  by eapply frame_trans.
Qed.

Lemma reachable_count c0 c tls_id q :
  reachable c0 c → count c0 tls_id q ≤ count c tls_id q.
Proof.
  induction 1 as [|c obs c' d _ IH E]; [done|].
  pose proof (decide_next_phase_count _ _ _ _ tls_id q E). lia.
Qed.

(** X11.  Through any sequence of calls on a constructed controller the
    identifiers, both durations, the green phases and the cursors stay
    what [__init__] made them, every cursor still [0], and the
    intersections with a counter map stay the same.  Counters start at
    zero, and no call ever lowers one. *)
Theorem state_across_calls ids cat c0 c :
  __init__ ids cat = Ok c0 →
  reachable c0 c →
  tls_ids c = ids ∧
  min_green_duration c = 7.0%float ∧
  max_green_duration c = 70.0%float ∧
  green_phases c = green_phases c0 ∧
  cursor c = cursor c0 ∧
  (∀ tls_id, tls_id ∈ ids → cursor c !! tls_id = Some 0) ∧
  dom (last_phase_actions c) = dom (last_phase_actions c0) ∧
  (∀ tls_id phase, count c0 tls_id phase = 0 ∧ 0 ≤ count c tls_id phase) ∧
  (∀ obs c' d, decide_next_phase c obs = Ok (c', d) →
     ∀ tls_id phase, count c tls_id phase ≤ count c' tls_id phase).
Proof.
  intros Hi R.
  pose proof (reachable_frame _ _ R) as [F1 F2 F3 F4 F5].
  pose proof (reachable_config _ _ R) as S.
  pose proof Hi as (Hids & Hmin & Hmax & Hall)%init_Ok.
  assert (∀ tls_id phase, count c0 tls_id phase = 0) as H0.
  { intros tls q. unfold count. unfold __init__ in Hi.
    destruct (init_phases cat ids ∅ ∅) as [[gp cur]|]; [|done].
    simpl in Hi. injection Hi as <-. simpl. rewrite init_actions_lookup.
    destruct (decide (tls ∈ ids)); simpl; [|done]. by rewrite lookup_empty. }
  split_and!; try congruence.
  - intros tls Hin. rewrite F5. by destruct (Hall tls Hin) as (_ & _ & ? & _).
  - symmetry. apply (sc_dom _ _ S).
  - intros tls q. split; [done|].
    pose proof (reachable_count _ _ tls q R). rewrite H0 in *. lia.
  - intros obs c' d E tls q. by eapply decide_next_phase_count.
Qed.

Lemma state_across_calls_demo :
  tls_ids demo_after = ["A"] ∧
  min_green_duration demo_after = 7.0%float ∧
  max_green_duration demo_after = 70.0%float ∧
  green_phases demo_after = green_phases demo ∧
  cursor demo_after = cursor demo ∧
  (∀ tls_id, tls_id ∈ ["A"] → cursor demo_after !! tls_id = Some 0) ∧
  dom (last_phase_actions demo_after) = dom (last_phase_actions demo) ∧
  (∀ tls_id phase,
     count demo tls_id phase = 0 ∧ 0 ≤ count demo_after tls_id phase) ∧
  (∀ obs c' d, decide_next_phase demo_after obs = Ok (c', d) →
     ∀ tls_id phase, count demo_after tls_id phase ≤ count c' tls_id phase).
Proof.
  apply (state_across_calls ["A"] demo_catalog demo demo_after).
  - reflexivity.
  - eapply reachable_call; [apply reachable_start | exact rush_call].
Defined.

(** ** Calls that decide nothing *)

Lemma decide_loop_quiet obs ids : ∀ c d0,
  (∀ tls_id, tls_id ∈ ids → ¬ acts obs tls_id) →
  decide_loop obs ids c d0 = Ok (c, d0).
Proof.
  induction ids as [|t ids IH]; intros c d0 Hq; simpl; [done|].
  assert (decide_one c obs t = Ok None) as ->.
  { unfold decide_one.
    destruct (default ∅ (lights obs) !! t) as [li|] eqn:El; [|done].
    destruct (falsy li) eqn:F; [done|].
    destruct (0.5 <? _)%float eqn:T; [done|].
    destruct (Hq t); [left|]. by exists li. }
  simpl. apply IH. intros tls Hin. apply Hq. by right.
Qed.

Lemma decide_loop_nonempty obs ids : ∀ c d0 c' d,
  decide_loop obs ids c d0 = Ok (c', d) →
  (∃ tls_id, tls_id ∈ ids ∧ acts obs tls_id) → d ≠ ∅.
Proof.
  intros c d0 c' d Hl (tls & Hin & Ha).
  destruct (decide_loop_spec _ _ _ _ _ _ Hl) as (_ & _ & Hd).
  specialize (Hd tls). rewrite decide_True in Hd by done.
  intros ->. rewrite lookup_empty in Hd. symmetry in Hd.
  unfold decided in Hd.
  destruct (action_for c obs tls) as [[a|]|e] eqn:Ea; [done| |].
  - by apply action_for_None in Ea.
  - clear Hd. revert c d0 c' Hl Ea.
    induction ids as [|t ids IH]; intros c d0 c' Hl Ea; simpl in *.
    { by apply not_elem_of_nil in Hin. }
    rewrite decide_one_action_for in Hl.
    destruct (action_for c obs t) as [[a|]|e'] eqn:Et; simpl in Hl; [| |done].
    + destruct (record_action c t (phase_id a)) as [c1|] eqn:Er;
        simpl in Hl; [|done].
      destruct (decide_loop_spec _ _ _ _ _ _ Hl) as (_ & _ & Hd).
      specialize (Hd t). rewrite lookup_empty, lookup_insert_eq in Hd.
      unfold decided in Hd.
      by destruct (decide (t ∈ ids)), (action_for c1 obs t) as [[?|]|].
    + apply elem_of_cons in Hin as [->|Hin]; [congruence|]. eauto.
Qed.

(** X12.  A call returns [None] exactly when it acts on none of the
    controller's intersections: each one lacks light information or has
    a [time_to_next_switch] above [0.5].  Such a call returns the
    controller as it was, and it cannot raise, whatever the controller
    and the rest of the observation hold. *)
Theorem quiet_call c obs :
  ((∀ tls_id, tls_id ∈ tls_ids c → ¬ acts obs tls_id) →
     decide_next_phase c obs = Ok (c, None)) ∧
  (∀ c', decide_next_phase c obs = Ok (c', None) →
     c' = c ∧ ∀ tls_id, tls_id ∈ tls_ids c → ¬ acts obs tls_id).
Proof.
  split.
  - intros Hq. unfold decide_next_phase.
    rewrite decide_loop_quiet by done. done.
  - intros c' (dm & Hl & Hd)%decide_next_phase_Ok.
    case_bool_decide as Ed; [subst dm|done].
    assert (∀ tls_id, tls_id ∈ tls_ids c → ¬ acts obs tls_id) as Hq.
    { intros tls Hin Ha.
      by apply (decide_loop_nonempty _ _ _ _ _ _ Hl); [exists tls|]. }
    split; [|done]. rewrite decide_loop_quiet in Hl by done. congruence.
Qed.

(** ** Leaving the current phase *)

(** X14.  With waiting counts of the green phases that are numbers, a
    call moves an intersection away from the phase reported as current
    only to a green phase, and only when [0.85] times the efficiency of
    some green phase is strictly above the efficiency of the current
    phase, which counts as [0] when the current phase is not green. *)
Theorem switch_needs_gain c obs c' d tls_id a light_info ps cp :
  decide_next_phase c obs = Ok (c', d) →
  entry d tls_id = Some a →
  default ∅ (lights obs) !! tls_id = Some light_info →
  green_phases c !! tls_id = Some ps →
  current_phase light_info = Some cp →
  (∀ p, p ∈ ps →
     is_nan (_calculate_waiting_traffic obs tls_id p) = false) →
  phase_id a ≠ cp →
  phase_id a ∈ ps ∧
  ∃ best, best ∈ ps ∧
    ((if decide (cp ∈ ps) then _calculate_phase_efficiency obs tls_id cp
      else 0) <?
       0.85 * _calculate_phase_efficiency obs tls_id best)%float = true.
Proof.
  intros E Ha El Hg Ec Hn Hne.
  destruct (entry_selection _ _ _ _ _ _ _ _ E Ha El Hg)
    as (tentative & Ht & Hstay).
  unfold stay_rule in Hstay. rewrite Ec in Hstay.
  destruct (raw_ranking obs tls_id ps) as [|[bp best_eff] raw'] eqn:Er;
    [done|].
  rewrite <- Er in Hstay.
  destruct (0.85 * best_eff <=? _)%float eqn:Estay;
    injection Hstay as Hs; [done|].
  split; [by rewrite <- Hs|].
  assert ((bp, best_eff) ∈ raw_ranking obs tls_id ps)
    as [Hbp ->]%elem_of_raw_ranking by (rewrite Er; left).
  exists bp. split; [done|].
  assert (is_nan (0.85 * _calculate_phase_efficiency obs tls_id bp) = false)
    as Nb.
  { eapply proj1, FloatOrder.leb_not_nan.
    apply (mul_le_self 0.85 _ 7656119366529843); [reflexivity|].
    by apply efficiency_nonneg, Hn. }
  destruct (decide (cp ∈ ps)) as [Hin|Hout].
  - rewrite current_efficiency_raw in Estay by done.
    rewrite FloatOrder.leb_negb_ltb in Estay; [by apply negb_false_iff|done|].
    eapply proj2, FloatOrder.leb_not_nan. by apply efficiency_nonneg, Hn.
  - rewrite current_efficiency_unknown in Estay.
    + rewrite FloatOrder.leb_negb_ltb in Estay;
        [by apply negb_false_iff|done|reflexivity].
    + by intros ([p s'] & -> & [? _]%elem_of_raw_ranking)%list_elem_of_fmap.
Qed.

Lemma switch_needs_gain_rush :
  phase_id {| phase_id := 2; duration := 22.7 |} ∈ [0; 2] ∧
  ∃ best, best ∈ [0; 2] ∧
    ((if decide (0%Z ∈ [0%Z; 2%Z])
      then _calculate_phase_efficiency rush "A" 0
      else 0) <?
       0.85 * _calculate_phase_efficiency rush "A" best)%float = true.
Proof.
  apply (switch_needs_gain demo rush demo_after
           (Some {[ "A" := {| phase_id := 2; duration := 22.7 |} ]}) "A" _
           (light 0 (Some 0) 10)).
  - exact rush_call.
  - reflexivity.
  - reflexivity.
  - reflexivity.
  - reflexivity.
  - intros p Hp.
    repeat (apply elem_of_cons in Hp as [->|Hp]; [reflexivity|]).
    by apply not_elem_of_nil in Hp.
  - simpl. lia.
Defined.

(** ** The longest green *)

Lemma saturated_clamp w :
  (230 <=? w)%float = true →
  Py.max 7.0 (Py.min 70.0
    (7.0 + 0.27 * w +
     0.17 * Py.pow_half (Py.max 10.0 (100.0 + w * 1.5)))%float) = 70.0%float.
Proof.
  intros Hw.
  set (d := (7.0 + 0.27 * w + _)%float).
  assert ((70.0 <=? d)%float = true) as Hd.
  { unfold d, Py.pow_half.
    apply (FloatExpr.add_above 69 1.7 70.0); [reflexivity| |].
    - apply (FloatExpr.add_above 7.0 62 69); [reflexivity|reflexivity|].
      by apply (FloatExpr.mul_above 0.27 230 62).
    - apply (FloatExpr.mul_above 0.17 10.0 1.7); [reflexivity|reflexivity|].
      apply (FloatExpr.sqrt_above 100.0 10.0); [reflexivity|].
      apply capacity_at_least_100.
      by apply (FloatOrder.leb_trans 0 230 _ eq_refl). }
  unfold Py.min. by rewrite (FloatOrder.leb_ltb_false _ _ Hd).
Qed.

(** X15.  With [230] or more vehicles waiting for the emitted phase the
    duration is the maximum: exactly [70.0], or [63.0] when
    [time_in_phase] exceeds [60]. *)
Theorem duration_saturates c obs c' d tls_id a light_info :
  min_green_duration c = 7.0%float →
  max_green_duration c = 70.0%float →
  decide_next_phase c obs = Ok (c', d) →
  entry d tls_id = Some a →
  default ∅ (lights obs) !! tls_id = Some light_info →
  (230 <=? _calculate_waiting_traffic obs tls_id (phase_id a))%float = true →
  duration a =
    if (60 <? default 0%float (time_in_phase light_info))%float
    then 63.0%float else 70.0%float.
Proof.
  intros Hmin Hmax E Ha El Hw.
  destruct (entry_action_for _ _ _ _ _ _ E Ha) as [_ Hact].
  apply action_for_inv in Hact as (li & El' & _ & _ & _ & ->).
  rewrite El in El'. injection El' as <-.
  unfold green_duration, _estimate_phase_capacity.
  rewrite Hmin, Hmax, (saturated_clamp _ Hw).
  destruct (60 <? _)%float; vm_compute; reflexivity.
Qed.

(** Three hundred vehicles wait for phase [2]. *)
Definition jam : Observation :=
  observe (light 0 (Some 0) 61) [(0, 5%float); (2, 300%float)].

Lemma jam_call :
  decide_next_phase demo jam =
    Ok (demo_after, Some {[ "A" := {| phase_id := 2; duration := 63.0 |} ]}).
Proof. vm_compute. reflexivity. Qed.

Lemma duration_saturates_jam :
  duration {| phase_id := 2; duration := 63.0 |} =
    if (60 <? default 0%float (time_in_phase (light 0 (Some 0%Z) 61)))%float
    then 63.0%float else 70.0%float.
Proof.
  apply (duration_saturates demo jam demo_after
           (Some {[ "A" := {| phase_id := 2; duration := 63.0 |} ]}) "A").
  - reflexivity.
  - reflexivity.
  - exact jam_call.
  - reflexivity.
  - reflexivity.
  - vm_compute. reflexivity.
Defined.
